(** * CollieDB: a shallow embedding of [src/index.ts]

    The store keeps named tables, each an in-memory JSON document mirrored
    to a file.  This development embeds the [DataBase] class (its
    constructor, [init], the CRUD methods, the timeout methods and the two
    guards) together with the lodash functions it delegates to ([get],
    [has], [set], [unset] and [merge], as they are in lodash 4.17.21), and
    states the properties of the specification over that embedding,
    followed by further properties of the methods: a table as a map,
    persistence, the loading of the tables, and the life of a timeout.

    Modelling conventions.
    - JavaScript values are the JSON values plus [undefined].  An object
      is the list of its own properties in enumeration order; an array is
      the list of its slots, a slot holding [VUndef] being a hole, together
      with its named properties.
    - Numbers are the integers among the doubles (epoch milliseconds and
      durations): a sum or a difference is rounded as the language rounds
      it, and one that overflows is not a number of the model.
    - A property that an object does not own is looked up in its
      prototype chain.  What the chain holds is for the host to say
      ([inherited]); where it is an object of the runtime (a built-in
      function, a prototype) the read yields that object, known by name
      only ([Native]).  A call that goes on to read or write inside such
      an object is not followed: its outcome is [Beyond], and no statement
      says what it does.  The two objects of the store that are indexed by
      table names, [this.mods] and [this.datas], are looked up the same
      way, and a table named [__proto__] replaces the prototype of
      [this.datas] as the assignment in [init] does.
    - A value is an immutable tree.  The store is followed as long as no
      object is reachable along two paths, which is how [init] leaves it:
      what the caller does afterwards to an object it passed in, or to
      one that [get] or [data] returned, is not followed, and neither is
      an object that the caller stores a second time.
    - A method call is a function from the state of the store and of its
      surroundings (the module-level default options, the file system,
      the clock, the pending timers, the log of what was done) to an
      outcome.  One store is followed; calls do not interleave.
    - Event subscribers are passive observers: [emit] records the event
      together with the tables as a synchronous subscriber would see them.
    - The file system never refuses to create a directory or to write a
      file.  A write that is awaited (in [save] and in [init]) is one
      step: the file holds the text when the caller goes on.  [set] and
      [delete] do not wait for the [save] they start: the write is in
      the log as started, the files of the model do not show it, and no
      statement says when, or whether, a file comes to hold it.
    - What the host provides and the source only calls ([path.join], the
      clock, the random source, number coercion, the built-in prototypes
      and lodash's path tokenizer) is the interface [Host]; every
      statement holds for every host. *)

From Stdlib Require Import Ascii String.
From stdpp Require Import gmap strings pretty list.

Set Warnings "-register-all".

Open Scope string_scope.
Open Scope Z_scope.

(** ** JavaScript values *)

Inductive value : Type :=
| VUndef
| VNull
| VBool (b : bool)
| VNum (n : Z)
| VStr (s : string)
| VArr (slots : list value) (named : list (string * value))
| VObj (props : list (string * value)).

(** [v == null] *)
Definition nullish (v : value) : bool :=
  match v with VUndef | VNull => true | _ => false end.

(** [a ?? b] *)
Definition coalesce (a b : value) : value := if nullish a then b else a.

(** lodash [isObject] on the values of the model. *)
Definition isObject (v : value) : bool :=
  match v with VArr _ _ | VObj _ => true | _ => false end.

(** What a read yields: a value of the model, or an object of the
    runtime that no document holds (a built-in function, a prototype),
    known by its name. *)
Inductive result : Type :=
| Val (v : value)
| Native (n : string).

Coercion Val : value >-> result.

(** [a ?? b] where [a] is what a read yielded *)
Definition coalesce_result (a : result) (b : value) : result :=
  match a with
  | Val v => Val (coalesce v b)
  | Native n => Native n
  end.

(** The truth value of a value in a condition. *)
Definition truthy (v : value) : bool :=
  match v with
  | VUndef | VNull => false
  | VBool b => b
  | VNum n => negb (n =? 0)
  | VStr s => negb (String.eqb s "")
  | VArr _ _ | VObj _ => true
  end.

Definition truthy_result (r : result) : bool :=
  match r with
  | Val v => truthy v
  | Native _ => true
  end.

(** The built-in prototype chains, one for each kind of value that has
    properties. *)
Inductive kind : Type := KObject | KArray | KString | KNumber | KBoolean.

Definition kind_of (v : value) : option kind :=
  match v with
  | VObj _ => Some KObject
  | VArr _ _ => Some KArray
  | VStr _ => Some KString
  | VNum _ => Some KNumber
  | VBool _ => Some KBoolean
  | VUndef | VNull => None
  end.

(** ** Property keys *)

Definition digit_of (c : ascii) : option Z :=
  let n := Z.of_nat (nat_of_ascii c) in
  if (48 <=? n) && (n <=? 57) then Some (n - 48) else None.

Fixpoint digits_value (acc : Z) (s : string) : option Z :=
  match s with
  | EmptyString => Some acc
  | String c r =>
      match digit_of c with
      | Some d => digits_value (10 * acc + d) r
      | None => None
      end
  end.

(** lodash [reIsUint]: a canonical decimal numeral (a single zero, or a
    nonzero digit followed by digits), with the number it denotes. *)
Definition parse_uint (s : string) : option Z :=
  match s with
  | EmptyString => None
  | String c r =>
      if decide (s = "0") then Some 0
      else if decide (c = "0"%char) then None
      else digits_value 0 s
  end.

Definition MAX_SAFE_INTEGER : Z := 9007199254740991.

(** lodash [isIndex(value, length)]. *)
Definition isIndex (k : string) (length : Z) : bool :=
  match parse_uint k with
  | Some n => n <? length
  | None => false
  end.

(** The keys the language treats as array indices (and orders first among
    the keys of an object): canonical numerals below [2^32 - 1]. *)
Definition array_index (k : string) : option nat :=
  match parse_uint k with
  | Some n => if n <? 4294967295 then Some (Z.to_nat n) else None
  | None => None
  end.

(** ** Own properties *)

Fixpoint assoc (ps : list (string * value)) (k : string) : option value :=
  match ps with
  | [] => None
  | (k', v) :: r => if decide (k' = k) then Some v else assoc r k
  end.

Fixpoint string_nth (s : string) (i : nat) : option ascii :=
  match s, i with
  | EmptyString, _ => None
  | String c _, O => Some c
  | String _ r, S j => string_nth r j
  end.

(** A slot that holds [VUndef] is a hole: no own property. *)
Definition slot (l : list value) (i : nat) : option value :=
  match l !! i with
  | Some VUndef => None
  | o => o
  end.

(** The own property [k] of [o], if any. *)
Definition own_prop (o : value) (k : string) : option value :=
  match o with
  | VObj ps => assoc ps k
  | VArr l ps =>
      if decide (k = "length") then Some (VNum (Z.of_nat (length l)))
      else match array_index k with
           | Some i => slot l i
           | None => assoc ps k
           end
  | VStr s =>
      if decide (k = "length") then Some (VNum (Z.of_nat (String.length s)))
      else match array_index k with
           | Some i => (fun c => VStr (String c EmptyString)) <$> string_nth s i
           | None => None
           end
  | _ => None
  end.

(** The own property [k] of [o], [undefined] if there is none. *)
Definition own_value (o : value) (k : string) : value :=
  default VUndef (own_prop o k).

(** [hasOwnProperty.call(o, k)] *)
Definition has_own (o : value) (k : string) : bool :=
  bool_decide (is_Some (own_prop o k)).

(** The keys a [for ... in] loop (and [Object.keys]) visits. *)
Definition index_keys (present : nat -> bool) (n : nat) : list nat :=
  filter (fun i => present i = true) (seq 0 n).

Definition nat_key (i : nat) : string := pretty (Z.of_nat i).

Definition enumerable_keys (o : value) : list string :=
  match o with
  | VObj ps => fst <$> ps
  | VArr l ps =>
      (nat_key <$> index_keys (fun i => bool_decide (is_Some (slot l i))) (length l))
      ++ (fst <$> ps)
  | VStr s => nat_key <$> seq 0 (String.length s)
  | _ => []
  end.

(** ** The host interface

    Functions of Node, of the language runtime and of lodash's internals
    that the source calls but does not define. *)

Class Host : Type := {
  (** [path.join(dir, file)] *)
  path_join : string -> string -> string;
  (** the [n]-th reading of [Date.now()] *)
  Date_now : nat -> Z;
  (** [Number.prototype.toString(36)] *)
  radix36 : Z -> string;
  (** the [n]-th draw [Math.random().toString(36).substring(2, len)] *)
  random_suffix : nat -> Z -> string;
  (** the runtime's number coercion of a value that is neither a number
      nor [undefined]; [None] is NaN *)
  ToNumber : value -> option Z;
  (** lodash [stringToPath] *)
  stringToPath : string -> list string;
  (** lodash [reIsDeepProp.test] *)
  reIsDeepProp : string -> bool;
  (** what the prototype chain of a value of the given kind holds under
      a name, if anything: [o[k]] for an [o] that does not own [k] *)
  inherited : kind -> string -> option result;
  (** the runtime's number coercion of one of its own objects; [None] is
      NaN *)
  native_number : string -> option Z;
  (** the enumerable properties of one of the runtime's objects, as a
      [for ... in] loop visits them *)
  native_keys : string -> list string
}.

(** Number coercion of any value; [None] is NaN. *)
Definition to_number `{Host} (v : value) : option Z :=
  match v with
  | VNum n => Some n
  | VUndef => None
  | _ => ToNumber v
  end.

Definition to_number_result `{Host} (r : result) : option Z :=
  match r with
  | Val v => to_number v
  | Native n => native_number n
  end.

(** [k in Object(o)] for a [k] that [o] does not own *)
Definition inherits `{Host} (o : value) (k : string) : bool :=
  match kind_of o with
  | Some c => bool_decide (is_Some (inherited c k))
  | None => false
  end.

(** [k in Object(o)] *)
Definition has_in `{Host} (o : value) (k : string) : bool :=
  has_own o k || inherits o k.

(** [o[k]] for an [o] that is not nullish. *)
Definition get_prop `{Host} (o : value) (k : string) : result :=
  match own_prop o k with
  | Some v => Val v
  | None =>
      match kind_of o with
      | Some c => default (Val VUndef) (inherited c k)
      | None => Val VUndef
      end
  end.

(** ** Numbers

    The numbers of the source are doubles.  The model keeps the integers
    among them: [to_double] rounds an integer to the nearest double (ties
    to the even significand), which is how the language rounds the exact
    sum or difference of two doubles, and [finite] tells whether the
    rounded result is a number or an infinity. *)

Definition to_double (x : Z) : Z :=
  let a := Z.abs x in
  if a <? 2 ^ 53 then x
  else
    let e := Z.log2 a - 52 in
    let q := Z.shiftr a e in
    let r := a - Z.shiftl q e in
    let half := Z.shiftl 1 (e - 1) in
    let q' := if (r <? half) then q
              else if (half <? r) then q + 1
              else if Z.even q then q else q + 1 in
    Z.sgn x * Z.shiftl q' e.

Definition finite (x : Z) : option Z :=
  if Z.abs x <? 2 ^ 1024 then Some x else None.

(** [a + b] and [a - b]; [None] is an infinity. *)
Definition num_add (a b : Z) : option Z := finite (to_double (a + b)).
Definition num_sub (a b : Z) : option Z := finite (to_double (a - b)).

(** ** lodash: [get], [has], [set], [unset] *)

(** A path argument, [string | string[]]. *)
Inductive key : Type :=
| KStr (s : string)
| KPath (segments : list string).

Definition is_word_char (c : ascii) : bool :=
  let n := nat_of_ascii c in
  (((48 <=? n) && (n <=? 57)) || ((65 <=? n) && (n <=? 90))
   || ((97 <=? n) && (n <=? 122)) || (n =? 95))%nat.

(** lodash [reIsPlainProp.test]: word characters only. *)
Fixpoint reIsPlainProp (s : string) : bool :=
  match s with
  | EmptyString => true
  | String c r => is_word_char c && reIsPlainProp r
  end.

Section Lodash.
Context `{Host}.

(** [isKey(value, object)] for a string [value]. *)
Definition isKey (s : string) (object : value) : bool :=
  reIsPlainProp s || negb (reIsDeepProp s)
  || (negb (nullish object) && has_in object s).

(** [castPath(value, object)] *)
Definition castPath (k : key) (object : value) : list string :=
  match k with
  | KPath l => l
  | KStr s => if isKey s object then [s] else stringToPath s
  end.

(** The loop of [baseGet]: it stops at the first nullish object.  [None]:
    the next property is read from an object of the runtime. *)
Fixpoint baseGet_walk (object : result) (path : list string) : option result :=
  match path with
  | [] => Some object
  | k :: rest =>
      match object with
      | Val o =>
          if nullish o then Some (Val VUndef)
          else baseGet_walk (get_prop o k) rest
      | Native _ => None
      end
  end.

Definition baseGet_path (object : value) (path : list string) : option result :=
  match path with
  | [] => Some (Val VUndef)
  | _ => baseGet_walk (Val object) path
  end.

Definition baseGet (object : value) (k : key) : option result :=
  baseGet_path object (castPath k object).

(** [_.get(object, path)], without a default. *)
Definition lodash_get (object : value) (k : key) : option result :=
  if nullish object then Some (Val VUndef) else baseGet object k.

Definition baseHas (object : value) (k : string) : bool :=
  negb (nullish object) && has_own object k.

(** The test [hasPath] falls back on when the last segment is not an
    own property: an index below the length of an array. *)
Definition index_in_array (object : value) (k : string) : bool :=
  match object with
  | VArr l _ => (0 <? Z.of_nat (length l)) && isIndex k (Z.of_nat (length l))
  | _ => false
  end.

(** The loop of [hasPath]: it goes on while the segment is an own
    property, so what it steps into is a value of the model. *)
Fixpoint hasPath_walk (object : value) (path : list string) : bool :=
  match path with
  | [] => false
  | [k] => baseHas object k || index_in_array object k
  | k :: rest => baseHas object k && hasPath_walk (own_value object k) rest
  end.

(** [_.has(object, path)] *)
Definition lodash_has (object : value) (k : key) : bool :=
  negb (nullish object) && hasPath_walk object (castPath k object).

(** *** Writing a property *)

Fixpoint obj_replace (k : string) (v : value) (ps : list (string * value))
  : list (string * value) :=
  match ps with
  | [] => []
  | (k', v') :: r =>
      if decide (k' = k) then (k', v) :: r else (k', v') :: obj_replace k v r
  end.

(** A new index key goes before the first key that is not a smaller
    index; any other new key goes last. *)
Fixpoint obj_insert_index (i : nat) (k : string) (v : value)
    (ps : list (string * value)) : list (string * value) :=
  match ps with
  | [] => [(k, v)]
  | (k', v') :: r =>
      match array_index k' with
      | Some j =>
          if (j <? i)%nat then (k', v') :: obj_insert_index i k v r
          else (k, v) :: ps
      | None => (k, v) :: ps
      end
  end.

Definition obj_set (k : string) (v : value) (ps : list (string * value))
  : list (string * value) :=
  match assoc ps k with
  | Some _ => obj_replace k v ps
  | None =>
      match array_index k with
      | Some i => obj_insert_index i k v ps
      | None => ps ++ [(k, v)]
      end
  end.

(** [l[i] = v]: past the end the array grows, leaving holes. *)
Definition arr_store (l : list value) (i : nat) (v : value) : list value :=
  if (i <? length l)%nat then <[i := v]> l
  else l ++ replicate (i - length l) VUndef ++ [v].

(** [l.length = n]: the array is cut, or grows by holes. *)
Definition set_length (l : list value) (n : nat) : list value :=
  take n l ++ replicate (n - length l) VUndef.

(** What a write comes to: the object after it, a [RangeError] (the
    length of an array set to what is no length), or a write that lands
    outside the values of the model. *)
Inductive write : Type :=
| Wrote (object : value)
| InvalidLength
| Outside.

(** [assignValue(object, key, value)]: [object[key] = value]. *)
Definition assignValue (object : value) (k : string) (v : value) : write :=
  match object with
  | VObj ps => Wrote (VObj (obj_set k v ps))
  | VArr l ps =>
      if decide (k = "length") then
        match to_number v with
        | Some n =>
            if (0 <=? n) && (n <? 4294967296)
            then Wrote (VArr (set_length l (Z.to_nat n)) ps)
            else InvalidLength
        | None => InvalidLength
        end
      else
        match array_index k with
        | Some i => Wrote (VArr (arr_store l i v) ps)
        | None => Wrote (VArr l (obj_set k v ps))
        end
  | _ => Outside
  end.

Definition unsafe_key (k : string) : bool :=
  bool_decide (k = "__proto__" \/ k = "constructor" \/ k = "prototype").

Definition is_array (v : value) : bool :=
  match v with VArr _ _ => true | _ => false end.

(** The container [baseSet] goes on in below the segment [k]: the object
    found there, or a new array or object according to the next segment.
    [None]: what is found there is not an own property of [nested] (an
    object of the runtime, which would be written into), or [k] is the
    length of an array. *)
Definition container (nested : value) (k next : string) : option value :=
  if is_array nested && bool_decide (k = "length") then None
  else
    match own_prop nested k with
    | Some objValue =>
        Some (if isObject objValue then objValue
              else if isIndex next MAX_SAFE_INTEGER then VArr [] [] else VObj [])
    | None =>
        if inherits nested k then None
        else Some (if isIndex next MAX_SAFE_INTEGER then VArr [] [] else VObj [])
    end.

(** The loop of [baseSet].  Every segment but the last reuses the
    container found there, or creates one; the container is written back
    with the inner writes applied, as the in-place mutation leaves it. *)
Fixpoint baseSet_walk (nested : value) (path : list string) (v : value)
  : write :=
  match path with
  | [] => Wrote nested
  | k :: rest =>
      if unsafe_key k then Wrote nested
      else
        match rest with
        | [] => assignValue nested k v
        | k' :: _ =>
            match container nested k k' with
            | Some newValue =>
                match baseSet_walk newValue rest v with
                | Wrote child => assignValue nested k child
                | w => w
                end
            | None => Outside
            end
        end
  end.

(** [_.set(object, path, value)]. *)
Definition lodash_set (object : value) (k : key) (v : value) : write :=
  if nullish object then Wrote object
  else if negb (isObject object) then Wrote object
  else baseSet_walk object (castPath k object) v.

(** *** Removing a property *)

(** [delete o[k]]; what cannot be deleted (the length of an array, the
    properties of a string) stays. *)
Definition delete_prop (o : value) (k : string) : value :=
  match o with
  | VObj ps => VObj (filter (fun p => p.1 <> k) ps)
  | VArr l ps =>
      if decide (k = "length") then o
      else
        match array_index k with
        | Some i => VArr (<[i := VUndef]> l) ps
        | None => VArr l (filter (fun p => p.1 <> k) ps)
        end
  | _ => o
  end.

(** The container [o] seen again after its child at [k] was mutated. *)
Definition put_prop (o : value) (k : string) (c : value) : value :=
  match o with
  | VObj ps => VObj (obj_replace k c ps)
  | VArr l ps =>
      if decide (k = "length") then o
      else
        match array_index k with
        | Some i => VArr (<[i := c]> l) ps
        | None => VArr l (obj_replace k c ps)
        end
  | _ => o
  end.

(** [baseUnset]: [parent] walks all segments but the last with [baseGet],
    then the last one is deleted from what it found.  [None]: the walk
    leaves the document for an object of the runtime. *)
Fixpoint unset_walk (object : value) (path : list string) : option value :=
  match path with
  | [] => Some object
  | [k] => Some (delete_prop object k)
  | k :: rest =>
      if nullish object then Some object
      else
        match own_prop object k with
        | Some c => put_prop object k <$> unset_walk c rest
        | None => if inherits object k then None else Some object
        end
  end.

(** With no segment at all, [toKey(last(path))] is the key
    ["undefined"]. *)
Definition baseUnset (object : value) (k : key) : option value :=
  match castPath k object with
  | [] => Some (delete_prop object "undefined")
  | path => unset_walk object path
  end.

(** [_.unset(object, path)]: the object after the removal. *)
Definition lodash_unset (object : value) (k : key) : option value :=
  if nullish object then Some object else baseUnset object k.
End Lodash.

(** ** Options and lodash [merge] *)

(** An element of [tables]. *)
Record Table : Type := { name : string; file_mod : string }.

(** [DataBaseOptions], each key possibly missing ([Partial]). *)
Record DataBaseOptions : Type := {
  timeoutsTable : option string;
  autoSave : option bool;
  tables : option (list Table);
  mod_dir : option string
}.

Definition DefaultDataBaseOptions : DataBaseOptions := {|
  tables := Some [ {| name := "main"; file_mod := "main.json" |} ];
  timeoutsTable := Some "timeouts";
  mod_dir := Some "./database/";
  autoSave := Some true
|}.

(** [merge] on a key that holds a primitive: a defined source value is
    assigned onto the destination, an undefined one is skipped. *)
Definition merge_value {A : Type} (objValue srcValue : option A) : option A :=
  match srcValue with
  | Some s => Some s
  | None => objValue
  end.

(** [merge] on an element of [tables]: both keys of the source element are
    defined and are assigned onto the destination element. *)
Definition merge_Table (objValue srcValue : Table) : Table :=
  {| name := name srcValue; file_mod := file_mod srcValue |}.

(** [merge] on arrays goes index by index; destination elements past the
    end of the source stay, missing ones are cloned from the source. *)
Fixpoint merge_tables (objValue srcValue : list Table) : list Table :=
  match srcValue, objValue with
  | [], _ => objValue
  | s :: src, [] => s :: merge_tables [] src
  | s :: src, o :: obj => merge_Table o s :: merge_tables obj src
  end.

(** [_.merge(object, source)]: the destination after the merge. *)
Definition merge (object source : DataBaseOptions) : DataBaseOptions := {|
  timeoutsTable := merge_value (timeoutsTable object) (timeoutsTable source);
  autoSave := merge_value (autoSave object) (autoSave source);
  tables :=
    match tables source with
    | Some src => Some (merge_tables (default [] (tables object)) src)
    | None => tables object
    end;
  mod_dir := merge_value (mod_dir object) (mod_dir source)
|}.

(** ** The store and its surroundings *)

Inductive exn : Type :=
| NotInitialized             (* "The database has not been initialized yet!" *)
| NotRegistered (table : string)     (* "The table ... is not registered!" *)
| TypeError
| RangeError                 (* "Invalid array length" *)
| SyntaxError                (* [JSON.parse] of a malformed file *)
| IOError.                   (* [readFileSync] of what is not a file *)

(** The content of a file: JSON text, given by the value it parses to, or
    text that does not parse. *)
Inductive file : Type :=
| Json (v : value)
| Garbage.

Inductive event : Type :=
| EvReady
| EvUpdate (k : key) (v : value) (table : string)
| EvDelete (k : string) (table : string)
| EvExpires (entry : result)
| EvCreateTimeout (entry : value).

(** What the store does to the outside, in program order.  An emitted
    event comes with the own properties of [this.datas] as they are when
    the subscribers run. *)
Inductive effect : Type :=
| Emit (e : event) (view : gmap string value)
| MkDir (path : string)
| WriteFile (path : string) (content : value)
| SetTimeout (tid : string) (delay : option Z).

(** The prototype of [this.datas]: the one every object literal has,
    until a table named [__proto__] is loaded. *)
Inductive prototype : Type :=
| ObjectPrototype
| NullPrototype
| DocPrototype (doc : value).

Record DataBase : Type := {
  (** the fields of the instance: [datas] and [mods] hold the own
      properties of the two objects *)
  options : DataBaseOptions;
  datas : gmap string value;
  datas_proto : prototype;
  mods : gmap string string;
  ready : bool;
  (** the module-level [DefaultDataBaseOptions] object, which [init]
      mutates *)
  defaults : DataBaseOptions;
  (** the file system *)
  files : gmap string file;
  dirs : gset string;
  (** how often the clock and the random source were read *)
  clock_reads : nat;
  random_draws : nat;
  (** the timers that are pending, with the id each will expire *)
  timers : list (string * option Z);
  log : list effect
}.

Definition with_options (o : DataBaseOptions) (st : DataBase) : DataBase :=
  {| options := o; datas := datas st; datas_proto := datas_proto st;
     mods := mods st; ready := ready st; defaults := defaults st;
     files := files st; dirs := dirs st; clock_reads := clock_reads st;
     random_draws := random_draws st; timers := timers st; log := log st |}.

Definition with_datas (d : gmap string value) (st : DataBase) : DataBase :=
  {| options := options st; datas := d; datas_proto := datas_proto st;
     mods := mods st; ready := ready st; defaults := defaults st;
     files := files st; dirs := dirs st; clock_reads := clock_reads st;
     random_draws := random_draws st; timers := timers st; log := log st |}.

Definition with_datas_proto (p : prototype) (st : DataBase) : DataBase :=
  {| options := options st; datas := datas st; datas_proto := p;
     mods := mods st; ready := ready st; defaults := defaults st;
     files := files st; dirs := dirs st; clock_reads := clock_reads st;
     random_draws := random_draws st; timers := timers st; log := log st |}.

Definition with_mods (m : gmap string string) (st : DataBase) : DataBase :=
  {| options := options st; datas := datas st; datas_proto := datas_proto st;
     mods := m; ready := ready st; defaults := defaults st;
     files := files st; dirs := dirs st; clock_reads := clock_reads st;
     random_draws := random_draws st; timers := timers st; log := log st |}.

Definition with_ready (b : bool) (st : DataBase) : DataBase :=
  {| options := options st; datas := datas st; datas_proto := datas_proto st;
     mods := mods st; ready := b; defaults := defaults st; files := files st;
     dirs := dirs st; clock_reads := clock_reads st;
     random_draws := random_draws st; timers := timers st; log := log st |}.

Definition with_defaults (o : DataBaseOptions) (st : DataBase) : DataBase :=
  {| options := options st; datas := datas st; datas_proto := datas_proto st;
     mods := mods st; ready := ready st; defaults := o; files := files st;
     dirs := dirs st; clock_reads := clock_reads st;
     random_draws := random_draws st; timers := timers st; log := log st |}.

Definition with_files (f : gmap string file) (st : DataBase) : DataBase :=
  {| options := options st; datas := datas st; datas_proto := datas_proto st;
     mods := mods st; ready := ready st; defaults := defaults st; files := f;
     dirs := dirs st; clock_reads := clock_reads st;
     random_draws := random_draws st; timers := timers st; log := log st |}.

Definition with_dirs (d : gset string) (st : DataBase) : DataBase :=
  {| options := options st; datas := datas st; datas_proto := datas_proto st;
     mods := mods st; ready := ready st; defaults := defaults st;
     files := files st; dirs := d; clock_reads := clock_reads st;
     random_draws := random_draws st; timers := timers st; log := log st |}.

Definition with_clock_reads (n : nat) (st : DataBase) : DataBase :=
  {| options := options st; datas := datas st; datas_proto := datas_proto st;
     mods := mods st; ready := ready st; defaults := defaults st;
     files := files st; dirs := dirs st; clock_reads := n;
     random_draws := random_draws st; timers := timers st; log := log st |}.

Definition with_random_draws (n : nat) (st : DataBase) : DataBase :=
  {| options := options st; datas := datas st; datas_proto := datas_proto st;
     mods := mods st; ready := ready st; defaults := defaults st;
     files := files st; dirs := dirs st; clock_reads := clock_reads st;
     random_draws := n; timers := timers st; log := log st |}.

Definition with_timers (t : list (string * option Z)) (st : DataBase) : DataBase :=
  {| options := options st; datas := datas st; datas_proto := datas_proto st;
     mods := mods st; ready := ready st; defaults := defaults st;
     files := files st; dirs := dirs st; clock_reads := clock_reads st;
     random_draws := random_draws st; timers := t; log := log st |}.

Definition with_log (l : list effect) (st : DataBase) : DataBase :=
  {| options := options st; datas := datas st; datas_proto := datas_proto st;
     mods := mods st; ready := ready st; defaults := defaults st;
     files := files st; dirs := dirs st; clock_reads := clock_reads st;
     random_draws := random_draws st; timers := timers st; log := l |}.

(** ** Computations on the store

    A method call returns or throws, or goes on inside an object of the
    runtime, where it is not followed; in each case the store is left in
    some state (in the last one, the state in which the call leaves the
    model). *)

Inductive outcome (A : Type) : Type :=
| Return (a : A) (st : DataBase)
| Throw (e : exn) (st : DataBase)
| Beyond (st : DataBase).
Arguments Return {A} & a st.
Arguments Throw {A} e st.
Arguments Beyond {A} st.

Definition M (A : Type) : Type := DataBase -> outcome A.

Definition ret {A : Type} (a : A) : M A := fun st => Return a st.

Definition bind {A B : Type} (m : M A) (f : A -> M B) : M B := fun st =>
  match m st with
  | Return a st' => f a st'
  | Throw e st' => Throw e st'
  | Beyond st' => Beyond st'
  end.

Declare Scope M_scope.
Delimit Scope M_scope with M.
Notation "x ← y ; z" := (bind y (fun x => z))
  (at level 20, y at level 100, z at level 200, only parsing) : M_scope.
Notation "x ;; z" := (bind x (fun _ => z))
  (at level 100, z at level 200, only parsing, right associativity) : M_scope.
Local Open Scope M_scope.

Definition throw {A : Type} (e : exn) : M A := fun st => Throw e st.
Definition beyond {A : Type} : M A := fun st => Beyond st.
Definition gets {A : Type} (f : DataBase -> A) : M A := fun st => Return (f st) st.
Definition modify (f : DataBase -> DataBase) : M unit := fun st => Return tt (f st).

Fixpoint for_each {A : Type} (body : A -> M unit) (l : list A) : M unit :=
  match l with
  | [] => ret tt
  | a :: r => body a ;; for_each body r
  end.

(** The result of an [async] method: a promise, settled by the time the
    caller looks at it. *)
Inductive promise (A : Type) : Type :=
| Fulfilled (a : A)
| Rejected (e : exn).
Arguments Fulfilled {A} a.
Arguments Rejected {A} e.

(** An [async] body never throws at its caller: what it throws rejects
    the promise it returns. *)
Definition async {A : Type} (body : M A) : M (promise A) := fun st =>
  match body st with
  | Return a st' => Return (Fulfilled a) st'
  | Throw e st' => Return (Rejected e) st'
  | Beyond st' => Beyond st'
  end.

(** [JSON.parse(JSON.stringify(v))]: a hole or an [undefined] slot of an
    array becomes [null], a property holding [undefined] is dropped, and
    so are the named properties of an array. *)
Fixpoint to_json (v : value) : value :=
  match v with
  | VArr l _ =>
      VArr (map (fun x => match x with VUndef => VNull | _ => to_json x end) l) []
  | VObj ps =>
      VObj ((fix props (ps : list (string * value)) : list (string * value) :=
               match ps with
               | [] => []
               | (k, VUndef) :: r => props r
               | (k, x) :: r => (k, to_json x) :: props r
               end) ps)
  | _ => v
  end.

(** An object of type [Timeout]. *)
Definition Timeout (expires : Z) (v : value) (time : Z) (id : string) : value :=
  VObj [("expires", VNum expires); ("value", v); ("time", VNum time);
        ("id", VStr id)].

(** ** The class [DataBase] *)

Section DataBase.
Context `{Host}.

(** [generateToken(len = 5)] *)
Definition generateToken (len : Z) : M string := fun st =>
  let timestamp := radix36 (Date_now (clock_reads st)) in
  let random := random_suffix (random_draws st) len in
  Return (timestamp ++ random)%string
    (with_random_draws (S (random_draws st))
       (with_clock_reads (S (clock_reads st)) st)).

(** [Date.now()] *)
Definition now : M Z := fun st =>
  Return (Date_now (clock_reads st)) (with_clock_reads (S (clock_reads st)) st).

(** [this.emit(...)] *)
Definition emit (e : event) : M unit :=
  modify (fun st => with_log (log st ++ [Emit e (datas st)]) st).

Definition perform (e : effect) : M unit :=
  modify (fun st => with_log (log st ++ [e]) st).

(** [new DataBase(options)], in the surroundings [world]; without an
    argument [options] is the default object itself. *)
Definition constructor (world : DataBase) (opts : option DataBaseOptions)
  : DataBase :=
  with_ready false
    (with_mods ∅
       (with_datas_proto ObjectPrototype
          (with_datas ∅
             (with_options
                (merge (default (defaults world) opts) (defaults world)) world)))).

(** [this.mods[table]]: the own property, or what the prototype of the
    object literal holds under that name. *)
Definition mods_get (st : DataBase) (table : string) : result :=
  match mods st !! table with
  | Some path => Val (VStr path)
  | None => default (Val VUndef) (inherited KObject table)
  end.

(** [this.datas[table]]: the own property, or what the prototype chain
    holds.  Read through the accessor [__proto__], a prototype that was
    put in place is the document itself. *)
Definition datas_get (st : DataBase) (table : string) : result :=
  match datas st !! table with
  | Some doc => Val doc
  | None =>
      match datas_proto st with
      | ObjectPrototype => default (Val VUndef) (inherited KObject table)
      | NullPrototype => Val VUndef
      | DocPrototype doc =>
          match own_prop doc table with
          | Some v => Val v
          | None =>
              if decide (table = "__proto__") then
                if inherits doc table then Val doc else Val VUndef
              else get_prop doc table
          end
      end
  end.

(** [checkReady()] *)
Definition checkReady : M bool :=
  r ← gets ready;
  if r then ret true else throw NotInitialized.

(** [checkTable(table)]: it passes when [this.mods[table]] is truthy. *)
Definition checkTable (table : string) : M bool :=
  checkReady ;;
  p ← gets (fun st => mods_get st table);
  if truthy_result p then ret true else throw (NotRegistered table).

(** The default of a [table] parameter: [this.options.tables[0].name]. *)
Definition first_table : M string :=
  ts ← gets (fun st => tables (options st));
  match ts with
  | Some (t :: _) => ret (name t)
  | _ => throw TypeError
  end.

Definition table_or_first (table : option string) : M string :=
  match table with
  | Some t => ret t
  | None => first_table
  end.

(** The default of the [table] parameter of the timeout methods:
    [this.options.timeoutsTable], which as a key reads ["undefined"]
    when it is missing. *)
Definition table_or_timeouts (table : option string) : M string :=
  match table with
  | Some t => ret t
  | None => gets (fun st => default "undefined" (timeoutsTable (options st)))
  end.

(** [this.datas[table]] *)
Definition table_doc (table : string) : M result :=
  gets (fun st => datas_get st table).

(** [this.datas[table]] where the call goes on to work on it. *)
Definition table_value (table : string) : M value :=
  doc ← table_doc table;
  match doc with
  | Val doc => ret doc
  | Native _ => beyond
  end.

(** The document [doc] of [table] after lodash mutated it in place into
    [doc'].  A document that [this.datas] does not own is reached through
    the prototype chain: what a change to it comes to is not followed. *)
Definition mutated (table : string) (doc doc' : value) : M unit := fun st =>
  match datas st !! table with
  | Some _ => Return tt (with_datas (<[table := doc']> (datas st)) st)
  | None => if isObject doc then Beyond st else Return tt st
  end.

(** [await writeFile(path, JSON.stringify(doc, null, "\t"))]: the write
    is started, and the file holds the text when the caller goes on. *)
Definition writeFile (path : string) (doc : value) : M unit :=
  match doc with
  | VUndef => throw TypeError
  | _ =>
      perform (WriteFile path (to_json doc)) ;;
      modify (fun st => with_files (<[path := Json (to_json doc)]> (files st)) st)
  end.

(** [writeFile(path, JSON.stringify(doc, null, "\t"))] where nothing
    waits for the promise: the write is started, and that is all the
    caller gets to see of it. *)
Definition writeFile_started (path : string) (doc : value) : M unit :=
  match doc with
  | VUndef => throw TypeError
  | _ => perform (WriteFile path (to_json doc))
  end.

(** The body of [save(table)], up to and including the call of
    [writeFile]; what is no string is no path to write to. *)
Definition save_with (write : string -> value -> M unit)
    (table : option string) : M (promise bool) :=
  async (
    table ← table_or_first table;
    checkTable table ;;
    path ← gets (fun st => mods_get st table);
    doc ← table_doc table;
    match path with
    | Val (VStr path) =>
        match doc with
        | Val doc => write path doc
        | Native _ => beyond
        end
    | _ => throw TypeError
    end ;;
    ret true).

(** [save(table)], where the caller waits for the promise: the write it
    awaits is done. *)
Definition save (table : option string) : M (promise bool) :=
  save_with writeFile table.

(** [if (this.options.autoSave) this.save(table)]: the promise is
    dropped, so the caller goes on when [save] reaches its [await], with
    the write started. *)
Definition autosave (table : string) : M unit :=
  a ← gets (fun st => autoSave (options st));
  match a with
  | Some true => save_with writeFile_started (Some table) ;; ret tt
  | _ => ret tt
  end.

(** [set(table, key, value, emit)] *)
Definition set (table : option string) (k : key) (v : value) (emit_ : bool)
  : M value :=
  table ← table_or_first table;
  checkTable table ;;
  doc ← table_value table;
  match lodash_set doc k (coalesce v VNull) with
  | Wrote doc' =>
      mutated table doc doc' ;;
      (if emit_ then emit (EvUpdate k v table) else ret tt) ;;
      autosave table ;;
      ret v
  | InvalidLength => throw RangeError
  | Outside => beyond
  end.

(** [get(table, key, dvalue)]; a missing [dvalue] is [VUndef]. *)
Definition get (table : option string) (k : key) (dvalue : value) : M result :=
  table ← table_or_first table;
  checkTable table ;;
  doc ← table_value table;
  match lodash_get doc k with
  | Some r => ret (coalesce_result r dvalue)
  | None => beyond
  end.

(** [data(table)] *)
Definition data (table : option string) : M result :=
  table ← table_or_first table;
  checkTable table ;;
  table_doc table.

(** [has(table, key)] *)
Definition has (table : option string) (k : key) : M bool :=
  table ← table_or_first table;
  checkTable table ;;
  doc ← table_value table;
  ret (lodash_has doc k).

(** [keys(table)] *)
Definition keys (table : option string) : M (list string) :=
  table ← table_or_first table;
  checkTable table ;;
  doc ← table_value table;
  if nullish doc then throw TypeError else ret (enumerable_keys doc).

(** [delete(table, key)] *)
Definition delete (table : option string) (k : string) : M bool :=
  table ← table_or_first table;
  checkTable table ;;
  emit (EvDelete k table) ;;
  doc ← table_value table;
  match lodash_unset doc (KStr k) with
  | Some doc' =>
      mutated table doc doc' ;;
      autosave table ;;
      ret true
  | None => beyond
  end.

(** [edit(table, key, predicate, force, emit)] *)
Definition edit (table : option string) (k : key)
    (predicate : result -> key -> value) (force emit_ : bool) : M bool :=
  table ← table_or_first table;
  checkTable table ;;
  h ← has (Some table) k;
  if h || force then
    old ← get (Some table) k VUndef;
    set (Some table) k (predicate old k) emit_ ;;
    ret true
  else ret false.

(** [timeout(value, time, id, table)] *)
Definition timeout (v : value) (time : Z) (id : option string)
    (table : option string) : M value :=
  id ← match id with Some i => ret i | None => generateToken 5 end;
  table ← table_or_timeouts table;
  checkTable table ;;
  t ← now;
  match num_add t time with
  | Some expires =>
      data ← set (Some table) (KStr id) (Timeout expires v time id) false;
      emit (EvCreateTimeout data) ;;
      ret data
  | None => beyond
  end.

(** [expire(tid, table)] *)
Definition expire (tid : string) (table : option string) : M unit :=
  table ← table_or_timeouts table;
  checkTable table ;;
  doc ← table_value table;
  (if nullish doc then throw TypeError else emit (EvExpires (get_prop doc tid))) ;;
  delete (Some table) tid ;;
  ret tt.

(** *** [init] *)

Definition existsSync (p : string) : M bool :=
  gets (fun st => bool_decide (is_Some (files st !! p)) || bool_decide (p ∈ dirs st)).

Definition mkdirSync (p : string) : M unit :=
  perform (MkDir p) ;;
  modify (fun st => with_dirs ({[p]} ∪ dirs st) st).

(** [JSON.parse(readFileSync(path, "utf-8"))] *)
Definition readFile_parse (p : string) : M value :=
  f ← gets (fun st => files st !! p);
  match f with
  | Some (Json v) => ret v
  | Some Garbage => throw SyntaxError
  | None => throw IOError
  end.

(** [this.mods[name] = path].  Under the name [__proto__] the assignment
    reaches the accessor of the prototype, which ignores a string. *)
Definition assign_mods (n path : string) (st : DataBase) : DataBase :=
  if bool_decide (n = "__proto__") && bool_decide (mods st !! n = None)
     && bool_decide (is_Some (inherited KObject n))
  then st
  else with_mods (<[n := path]> (mods st)) st.

(** [Object.setPrototypeOf(this.datas, doc)] as the accessor [__proto__]
    does it: what is neither an object nor [null] is ignored. *)
Definition set_prototype (doc : value) (st : DataBase) : DataBase :=
  match doc with
  | VObj _ | VArr _ _ => with_datas_proto (DocPrototype doc) st
  | VNull => with_datas_proto NullPrototype st
  | _ => st
  end.

(** The accessor [__proto__] is found in the prototype chain of
    [this.datas]. *)
Definition reaches_accessor (st : DataBase) : bool :=
  match datas_proto st with
  | ObjectPrototype => bool_decide (is_Some (inherited KObject "__proto__"))
  | NullPrototype => false
  | DocPrototype doc => negb (has_own doc "__proto__") && inherits doc "__proto__"
  end.

(** [this.datas[name] = doc].  Under the name [__proto__] the assignment
    reaches the accessor, when there is one to reach, and replaces the
    prototype of [this.datas]. *)
Definition assign_datas (n : string) (doc : value) (st : DataBase) : DataBase :=
  if bool_decide (n = "__proto__") && bool_decide (datas st !! n = None)
     && reaches_accessor st
  then set_prototype doc st
  else with_datas (<[n := doc]> (datas st)) st.

(** The body of the loop over [this.options.tables]. *)
Definition load_table (T : Table) : M unit :=
  dir ← gets (fun st => mod_dir (options st));
  match dir with
  | None => throw TypeError
  | Some dir =>
      e ← existsSync dir;
      (if e then ret tt else mkdirSync dir) ;;
      let Path := path_join dir (file_mod T) in
      modify (assign_mods (name T) Path) ;;
      e ← existsSync Path;
      (if e then ret tt else writeFile Path (VObj [])) ;;
      doc ← readFile_parse Path;
      modify (assign_datas (name T) doc)
  end.

(** [Timeouts[TimeuotId].expires] *)
Definition read_expires (table TimeuotId : string) : M result :=
  Timeouts ← table_value table;
  match get_prop Timeouts TimeuotId with
  | Val entry =>
      if nullish entry then throw TypeError else ret (get_prop entry "expires")
  | Native _ => beyond
  end.

(** [Date.now() >= expires] *)
Definition overdue (t : Z) (expires : result) : bool :=
  match to_number_result expires with
  | Some e => e <=? t
  | None => false
  end.

(** [expires - Date.now() ?? 1]: the difference is never nullish, so the
    fallback is never taken; [None] is no finite number (NaN, or an
    infinity). *)
Definition remaining (expires : result) (t : Z) : option Z :=
  match to_number_result expires with
  | Some e => num_sub e t
  | None => None
  end.

(** [setTimeout(() => this.expire(tid), delay)] *)
Definition setTimeout (tid : string) (delay : option Z) : M unit :=
  perform (SetTimeout tid delay) ;;
  modify (fun st => with_timers (timers st ++ [(tid, delay)]) st).

(** The body of the loop over the keys of the timeouts table.  A key
    that was deleted since the loop began is not visited. *)
Definition scan_timeout (table TimeuotId : string) : M unit :=
  Timeouts ← table_value table;
  if has_own Timeouts TimeuotId then
    t ← now;
    e ← read_expires table TimeuotId;
    if overdue t e then expire TimeuotId None
    else
      e ← read_expires table TimeuotId;
      t ← now;
      setTimeout TimeuotId (remaining e t)
  else ret tt.

Definition load_tables : M unit :=
  modify (fun st =>
    let o := merge (defaults st) (options st) in
    with_options o (with_defaults o st)) ;;
  ts ← gets (fun st => tables (options st));
  match ts with
  | None => throw TypeError
  | Some ts => for_each load_table ts
  end.

(** The keys the loop [for (const TimeuotId in Timeouts)] visits. *)
Definition scanned_keys (Timeouts : result) : list string :=
  match Timeouts with
  | Val doc => enumerable_keys doc
  | Native n => native_keys n
  end.

Definition scan_timeouts : M unit :=
  table ← table_or_timeouts None;
  Timeouts ← table_doc table;
  for_each (scan_timeout table) (scanned_keys Timeouts).

(** [init()] *)
Definition init : M (promise unit) :=
  async (
    load_tables ;;
    modify (with_ready true) ;;
    emit EvReady ;;
    scan_timeouts).

(** The event loop runs the callback of the [i]-th pending timer. *)
Definition fire (i : nat) : M unit :=
  t ← gets (fun st => timers st !! i);
  match t with
  | None => ret tt
  | Some (tid, _) =>
      modify (fun st => with_timers (base.delete i (timers st)) st) ;;
      expire tid None
  end.
End DataBase.

(** ** A host and a world to run examples in *)

Fixpoint split_dots (cur : string) (s : string) : list string :=
  match s with
  | EmptyString => [cur]
  | String c r =>
      if decide (c = "."%char) then cur :: split_dots "" r
      else split_dots (cur ++ String c EmptyString) r
  end.

Fixpoint has_dot (s : string) : bool :=
  match s with
  | EmptyString => false
  | String c r => bool_decide (c = "."%char) || has_dot r
  end.

(** The names every object inherits from [Object.prototype]. *)
Definition object_prototype_names : list string :=
  ["constructor"; "hasOwnProperty"; "isPrototypeOf"; "propertyIsEnumerable";
   "toLocaleString"; "toString"; "valueOf"; "__proto__";
   "__defineGetter__"; "__defineSetter__"; "__lookupGetter__";
   "__lookupSetter__"].

(** Paths are joined by concatenation, the clock stands at [1000], dotted
    strings are split at the dots, and the prototype chains hold what
    [Object.prototype] holds: objects of the runtime that are no numbers
    and have nothing to enumerate. *)
Definition simple_host : Host := {|
  path_join := fun d f => (d ++ f)%string;
  Date_now := fun _ => 1000;
  radix36 := fun n => pretty n;
  random_suffix := fun _ _ => "abc";
  ToNumber := fun _ => None;
  stringToPath := split_dots "";
  reIsDeepProp := has_dot;
  inherited := fun _ k =>
    if bool_decide (k ∈ object_prototype_names)
    then Some (Native ("Object.prototype." ++ k)) else None;
  native_number := fun _ => None;
  native_keys := fun _ => []
|}.

(** A world with the given files and directories, in which the module
    was just loaded and nothing has happened yet. *)
Definition world (fs : gmap string file) (ds : gset string) : DataBase := {|
  options := DefaultDataBaseOptions; datas := ∅; datas_proto := ObjectPrototype;
  mods := ∅; ready := false;
  defaults := DefaultDataBaseOptions; files := fs; dirs := ds;
  clock_reads := 0; random_draws := 0; timers := []; log := []
|}.

(** ** Vocabulary of the statements *)

(** The events a log reports, without the views. *)
Definition emitted (l : list effect) : list event :=
  omap (fun e => match e with Emit ev _ => Some ev | _ => None end) l.

(** [a] occurs in [l] at an earlier position than some occurrence of [b]. *)
Definition precedes {A : Type} (a b : A) (l : list A) : Prop :=
  exists i j : nat, (i < j)%nat /\ l !! i = Some a /\ l !! j = Some b.


(** A store on which [checkTable(table)] passes. *)
Definition registered (st : DataBase) (table : string) : Prop :=
  ready st = true /\ exists path, mods st !! table = Some path /\ path <> "".

(** A store just constructed with the default options, in an empty file
    system. *)
Definition fresh : DataBase := constructor (world ∅ ∅) None.

(** The state in which a call leaves the store. *)
Definition final {A : Type} (o : outcome A) : DataBase :=
  match o with
  | Return _ st => st
  | Throw _ st => st
  | Beyond st => st
  end.

(** Every run of [m] relates the state it starts in to the one it ends in. *)
Definition preserves (R : relation DataBase) {A : Type} (m : M A) : Prop :=
  forall st, R st (final (m st)).

(** [st'] differs from [st] at most by writes of files, started or
    done. *)
Definition only_writes (st st' : DataBase) : Prop :=
  options st' = options st /\ datas st' = datas st /\ mods st' = mods st
  /\ ready st' = ready st /\ defaults st' = defaults st
  /\ timers st' = timers st /\ clock_reads st' = clock_reads st
  /\ random_draws st' = random_draws st
  /\ exists writes, log st' = (log st ++ writes)%list /\ emitted writes = [].

(** The default store once [init] has run: one table, ["main"]. *)
Definition main_store : DataBase := final (@init simple_host fresh).

(** Options that register a second table, named as the timeouts table. *)
Definition with_timeouts_table : DataBaseOptions := {|
  timeoutsTable := None; autoSave := None; mod_dir := None;
  tables := Some [ {| name := "main"; file_mod := "main.json" |};
                   {| name := "timeouts"; file_mod := "timeouts.json" |} ]
|}.

(** [this.datas] after lodash turned the document of [table] into [doc]. *)
Definition datas_with (st : DataBase) (table : string) (doc : value)
  : gmap string value :=
  match datas st !! table with
  | Some _ => <[table := doc]> (datas st)
  | None => datas st
  end.

(** The key [k] leads somewhere in [doc]: it resolves to at least one
    segment, none of them a name [baseSet] refuses, and a string that is
    tokenized does not come back as its own first segment. *)
Definition addresses `{Host} (k : key) (doc : value) : Prop :=
  castPath k doc <> []
  /\ Forall (fun s => unsafe_key s = false) (castPath k doc)
  /\ match k with
     | KPath _ => True
     | KStr s => isKey s doc = true \/ head (stringToPath s) <> Some s
     end.

(** The default store after [set("main", "k", null)]. *)
Definition null_store : DataBase :=
  final (@set simple_host (Some "main") (KStr "k") VNull true main_store).

(** [st'] agrees with [st] on what [f] reads. *)
Definition keeps {A : Type} (f : DataBase -> A) : relation DataBase :=
  fun st st' => f st' = f st.

(** What decides whether the guards pass and where the timeouts live. *)
Definition config (st : DataBase)
  : DataBaseOptions * gmap string string * bool * DataBaseOptions :=
  (options st, mods st, ready st, defaults st).

(** What [init] does once the options are merged. *)
Definition init_rest `{Host} : M unit :=
  (ts ← gets (fun st => tables (options st));
   match ts with
   | None => throw TypeError
   | Some ts => for_each load_table ts
   end) ;;
  modify (with_ready true) ;;
  emit EvReady ;;
  scan_timeouts.

(** The events the scan of the timeouts table is to emit when the clock
    reads [t]: for each key in turn whose entry is overdue, [expires] with
    the entry, then [delete]. *)
Definition expired_events `{Host} (t : Z) (table : string)
    (Timeouts : value) (ks : list string) : list event :=
  flat_map
    (fun k =>
       match own_prop Timeouts k with
       | Some entry =>
           if overdue t (get_prop entry "expires")
           then [EvExpires (Val entry); EvDelete k table]
           else []
       | None => []
       end)
    ks.

(** The timeouts table of [st] is registered and holds the object [ps],
    whose keys are distinct and whose entries are not [null]. *)
Definition holds_timeouts (st : DataBase) (table : string)
    (ps : list (string * value)) : Prop :=
  table = default "undefined" (timeoutsTable (options st))
  /\ (exists path, mods st !! table = Some path /\ path <> "")
  /\ datas st !! table = Some (VObj ps)
  /\ NoDup ps.*1
  /\ Forall (fun p => nullish p.2 = false) ps.

(** The default store with a timeouts table, once [init] has run. *)
Definition timeouts_store : DataBase :=
  final (@init simple_host (constructor (world ∅ ∅) (Some with_timeouts_table))).

(** A restart: the file of the timeouts table holds an entry that is
    overdue when the clock reads [1000], and one that is not. *)
Definition overdue_entry : value := Timeout 5 (VStr "old") 5 "a".

Definition pending_entry : value := Timeout 5000 (VStr "new") 4000 "b".

Definition restart_files : gmap string file :=
  {[ "./database/timeouts.json" := Json (VObj [("a", overdue_entry); ("b", pending_entry)]) ]}.

Definition restarted : DataBase :=
  constructor (world restart_files {[ "./database/" ]}) (Some with_timeouts_table).

(** The state of the store while the timeouts table, registered under
    [path] and now holding [cur], is scanned. *)
Definition scanning (table path : string) (st : DataBase)
    (cur : list (string * value)) : Prop :=
  ready st = true
  /\ mods st !! table = Some path
  /\ default "undefined" (timeoutsTable (options st)) = table
  /\ datas st !! table = Some (VObj cur).

(** A property name made of word characters only, which lodash takes as
    one segment whatever the object. *)
Definition plain_key (k : string) : Prop := reIsPlainProp k = true.

(** A plain name that [baseSet] does not refuse. *)
Definition writable_key (k : string) : Prop :=
  reIsPlainProp k = true /\ unsafe_key k = false.


(** The state after [await writeFile(path, JSON.stringify(doc))]. *)
Definition written (path : string) (doc : value) (st : DataBase) : DataBase :=
  with_files (<[path := Json (to_json doc)]> (files st))
    (with_log (log st ++ [WriteFile path (to_json doc)]) st).

(** The state in which a caller that does not wait goes on after
    [writeFile(path, JSON.stringify(doc))]. *)
Definition started (path : string) (doc : value) (st : DataBase) : DataBase :=
  with_log (log st ++ [WriteFile path (to_json doc)]) st.

(** What the loop of [init] loads from the path [p]: the content of the
    file, or the empty object it writes when there is no file. *)
Definition file_doc (fs : gmap string file) (p : string) : value :=
  match fs !! p with
  | Some (Json v) => v
  | _ => VObj []
  end.

(** [fs'] is [fs] with empty objects written at some paths that held no
    file. *)
Definition grown (fs fs' : gmap string file) : Prop :=
  forall p, fs' !! p = fs !! p
            \/ (fs !! p = None /\ fs' !! p = Some (Json (VObj []))).

(** The file of table [T] under [dir] can be loaded in [st]: its path is
    not a directory, and does not hold text that fails to parse. *)
Definition loadable `{Host} (st : DataBase) (dir : string) (T : Table) : Prop :=
  (path_join dir (file_mod T) ∉ dirs st)
  /\ path_join dir (file_mod T) <> dir
  /\ files st !! path_join dir (file_mod T) <> Some Garbage.

(** An entry of the timeouts table that is not overdue when the clock
    reads [t]. *)
Definition pending `{Host} (t : Z) (p : string * value) : Prop :=
  overdue t (get_prop p.2 "expires") = false.

#[global] Instance pending_dec `{Host} t p : Decision (pending t p).
Proof. unfold pending. apply _. Defined.

(** The timer the scan registers for a pending entry. *)
Definition timer_of `{Host} (t : Z) (p : string * value) : string * option Z :=
  (p.1, remaining (get_prop p.2 "expires") t).


(** A store whose table ["main"] was loaded from a file holding [5]. *)
Definition scalar_store : DataBase :=
  final (@init simple_host
           (constructor (world {[ "./database/main.json" := Json (VNum 5) ]}
                           {[ "./database/" ]}) None)).

(** A store constructed where the file of ["main"] does not parse. *)
Definition corrupt : DataBase :=
  constructor (world {[ "./database/main.json" := Garbage ]} {[ "./database/" ]}) None.


(** A store whose table ["main"] was loaded from a file holding [null]. *)
Definition nulled_store : DataBase :=
  final (@init simple_host
           (constructor (world {[ "./database/main.json" := Json VNull ]}
                           {[ "./database/" ]}) None)).

(** Options that register a table named [__proto__]; the timeouts table
    stays the default one, which is not registered. *)
Definition proto_options : DataBaseOptions := {|
  timeoutsTable := None; autoSave := None; mod_dir := None;
  tables := Some [ {| name := "main"; file_mod := "main.json" |};
                   {| name := "__proto__"; file_mod := "proto.json" |} ]
|}.

(** The file of that table holds an object with a property ["timeouts"],
    itself an object with one overdue entry. *)
Definition proto_files : gmap string file :=
  {[ "./database/proto.json" := Json (VObj [("timeouts", VObj [("a", overdue_entry)])]) ]}.

Definition proto_world : DataBase :=
  constructor (world proto_files {[ "./database/" ]}) (Some proto_options).

(** The store [init] leaves there. *)
Definition proto_store : DataBase := final (@init simple_host proto_world).



(** The value found by walking [path] from [o] through own properties
    only. *)
Fixpoint stored (o : value) (path : list string) : option value :=
  match path with
  | [] => Some o
  | k :: rest =>
      match own_prop o k with
      | Some c => stored c rest
      | None => None
      end
  end.


(** The write along [path] ends on the length of an array. *)
Fixpoint sets_length `{Host} (nested : value) (path : list string) : bool :=
  match path with
  | [] => false
  | k :: rest =>
      match rest with
      | [] => is_array nested && bool_decide (k = "length")
      | k' :: _ =>
          match container nested k k' with
          | Some c => sets_length c rest
          | None => false
          end
      end
  end.

(** What is found at the end of [path] once [v] was written there: [v],
    or the number it stands for where it became the length of an array. *)
Definition landed `{Host} (doc : value) (path : list string) (v : value) : value :=
  if sets_length doc path then default v (VNum <$> to_number v) else v.

(** * Properties *)

(** ** The guards *)

Section Guards.
Context `{Host}.


Lemma mods_get_own st table path :
  mods st !! table = Some path -> mods_get st table = Val (VStr path).
Proof. unfold mods_get. by intros ->. Qed.

Lemma truthy_path path : path <> "" -> truthy (VStr path) = true.
Proof. intros Hp. cbn. by destruct path. Qed.

Lemma checkTable_passes st table :
  ready st = true -> truthy_result (mods_get st table) = true ->
  checkTable table st = Return true st.
Proof.
  unfold checkTable, checkReady, bind, gets, ret, throw.
  by intros -> ->.
Qed.

Lemma checkTable_ok st table :
  registered st table -> checkTable table st = Return true st.
Proof.
  intros (Hr & path & Hm & Hp). apply checkTable_passes; [exact Hr |].
  rewrite (mods_get_own _ _ _ Hm). by apply truthy_path.
Qed.

End Guards.



(** ** Frames: what a call leaves alone *)

Lemma emitted_app l1 l2 : emitted (l1 ++ l2) = (emitted l1 ++ emitted l2)%list.
Proof. apply omap_app. Qed.

Lemma emitted_Emit e view l : emitted (Emit e view :: l) = e :: emitted l.
Proof. reflexivity. Qed.

#[global] Instance only_writes_refl : Reflexive only_writes.
Proof.
  intros st. repeat split. exists []. split; [symmetry; apply app_nil_r | reflexivity].
Qed.

#[global] Instance only_writes_trans : Transitive only_writes.
Proof.
  intros a b c (?&?&?&?&?&?&?&?& w1 & ? & ?) (?&?&?&?&?&?&?&?& w2 & ? & ?).
  repeat split; try congruence.
  exists (w1 ++ w2)%list. split.
  - rewrite app_assoc. congruence.
  - rewrite emitted_app. by rewrite H8, H18.
Qed.

Section Frames.
Context (R : relation DataBase) `{!Reflexive R} `{!Transitive R}.

Lemma preserves_ret {A} (a : A) : preserves R (ret a).
Proof. intros st. reflexivity. Qed.

Lemma preserves_throw {A} e : preserves R (@throw A e).
Proof. intros st. reflexivity. Qed.

Lemma preserves_gets {A} (f : DataBase -> A) : preserves R (gets f).
Proof. intros st. reflexivity. Qed.

Lemma preserves_beyond {A} : preserves R (@beyond A).
Proof. intros st. reflexivity. Qed.

Lemma preserves_bind {A B} (m : M A) (f : A -> M B) :
  preserves R m -> (forall a, preserves R (f a)) -> preserves R (bind m f).
Proof.
  intros Hm Hf st. unfold bind. specialize (Hm st).
  destruct (m st) as [a s | e s | s]; cbn in *; [| exact Hm | exact Hm].
  etransitivity; [exact Hm | apply Hf].
Qed.

Lemma preserves_async {A} (m : M A) : preserves R m -> preserves R (async m).
Proof.
  intros Hm st. unfold async. specialize (Hm st).
  destruct (m st); exact Hm.
Qed.

Lemma preserves_for_each_in {A} (body : A -> M unit) l :
  (forall a, a ∈ l -> preserves R (body a)) -> preserves R (for_each body l).
Proof.
  induction l as [| a l IH]; intros Hb; cbn.
  - apply preserves_ret.
  - apply preserves_bind.
    + apply Hb. by left.
    + intros _. apply IH. intros b Hin. apply Hb. by right.
Qed.

Lemma preserves_for_each {A} (body : A -> M unit) l :
  (forall a, preserves R (body a)) -> preserves R (for_each body l).
Proof. intros Hb. apply preserves_for_each_in. intros a _. apply Hb. Qed.
End Frames.

Lemma preserves_modify (R : relation DataBase) (g : DataBase -> DataBase) :
  (forall st, R st (g st)) -> preserves R (modify g).
Proof. intros Hg st. apply Hg. Qed.

#[global] Instance keeps_refl {A} (f : DataBase -> A) : Reflexive (keeps f).
Proof. intros st. reflexivity. Qed.

#[global] Instance keeps_trans {A} (f : DataBase -> A) : Transitive (keeps f).
Proof. intros a b c Hab Hbc. unfold keeps in *. congruence. Qed.

Lemma mutated_keeps {A} (f : DataBase -> A) table doc doc' :
  (forall d st, f (with_datas d st) = f st) ->
  preserves (keeps f) (mutated table doc doc').
Proof.
  intros Hf st. unfold mutated, keeps.
  destruct (datas st !! table); [apply Hf |]. by destruct (isObject doc).
Qed.

Ltac destruct_all_matches :=
  repeat match goal with
         | |- context [match ?x with _ => _ end] => destruct x
         end; reflexivity.

Create HintDb frames.
#[global] Hint Extern 1 (Reflexive _) => exact _ : frames.
#[global] Hint Extern 1 (Transitive _) => exact _ : frames.

Ltac frame_step :=
  first
    [ exact _
    | solve [eauto 3 with frames]
    | apply preserves_ret | apply preserves_throw | apply preserves_gets
    | apply preserves_beyond
    | apply preserves_async
    | apply preserves_for_each; [| | intros ?]
    | apply preserves_modify; intros ?; first [reflexivity | by destruct_all_matches]
    | apply mutated_keeps; reflexivity
    | apply preserves_bind; [| | intros ?]
    | match goal with
      | |- preserves _ (match ?x with _ => _ end) => destruct x
      end ].

Ltac frame := repeat frame_step.

Lemma checkReady_frame R `{!Reflexive R} `{!Transitive R} : preserves R checkReady.
Proof. unfold checkReady. frame. Qed.
#[global] Hint Resolve checkReady_frame : frames.

Lemma checkTable_frame `{Host} R `{!Reflexive R} `{!Transitive R} t : preserves R (checkTable t).
Proof. unfold checkTable. frame. Qed.
#[global] Hint Resolve checkTable_frame : frames.

Lemma table_or_first_frame R `{!Reflexive R} `{!Transitive R} t :
  preserves R (table_or_first t).
Proof. unfold table_or_first, first_table. frame. Qed.
#[global] Hint Resolve table_or_first_frame : frames.

Lemma table_or_timeouts_frame R `{!Reflexive R} `{!Transitive R} t :
  preserves R (table_or_timeouts t).
Proof. unfold table_or_timeouts. frame. Qed.
#[global] Hint Resolve table_or_timeouts_frame : frames.

Lemma table_doc_frame `{Host} R `{!Reflexive R} `{!Transitive R} t : preserves R (table_doc t).
Proof. unfold table_doc. frame. Qed.
#[global] Hint Resolve table_doc_frame : frames.

Lemma table_value_frame `{Host} R `{!Reflexive R} `{!Transitive R} t :
  preserves R (table_value t).
Proof. unfold table_value. frame. Qed.
#[global] Hint Resolve table_value_frame : frames.

Lemma writeFile_only_writes path doc : preserves only_writes (writeFile path doc).
Proof.
  intros st. destruct doc; cbn; try reflexivity.
  all: repeat split; eexists; split; reflexivity.
Qed.
#[global] Hint Resolve writeFile_only_writes : frames.

Lemma writeFile_started_only_writes path doc :
  preserves only_writes (writeFile_started path doc).
Proof.
  intros st. destruct doc; cbn; try reflexivity.
  all: repeat split; eexists; split; reflexivity.
Qed.
#[global] Hint Resolve writeFile_started_only_writes : frames.

Lemma save_only_writes `{Host} table : preserves only_writes (save table).
Proof. unfold save, save_with. frame. Qed.
#[global] Hint Resolve save_only_writes : frames.

Lemma autosave_only_writes `{Host} table : preserves only_writes (autosave table).
Proof. unfold autosave, save_with. frame. Qed.
#[global] Hint Resolve autosave_only_writes : frames.

Lemma checkTable_cases `{Host} table st :
  checkTable table st = Return true st
  \/ exists e, checkTable table st = Throw e st.
Proof.
  unfold checkTable, checkReady, bind, gets, ret, throw.
  destruct (ready st); [| right; by eexists].
  destruct (truthy_result (mods_get st table)); [by left | right; by eexists].
Qed.

(** A [save] of a document of the model settles, and so does one that
    is not waited for. *)
Lemma save_settles `{Host} table st doc :
  datas_get st table = Val doc ->
  exists p, save (Some table) st = Return p (final (save (Some table) st)).
Proof.
  intros Hd. unfold save, save_with, async, table_or_first, table_doc, bind, ret, gets.
  destruct (checkTable_cases table st) as [-> | [e ->]]; [| by eexists].
  rewrite Hd.
  destruct (mods_get st table) as [[] |]; try (by eexists).
  destruct doc; by eexists.
Qed.

Lemma save_started_settles `{Host} table st doc :
  datas_get st table = Val doc ->
  exists p, save_with writeFile_started (Some table) st
            = Return p (final (save_with writeFile_started (Some table) st)).
Proof.
  intros Hd. unfold save_with, async, table_or_first, table_doc, bind, ret, gets.
  destruct (checkTable_cases table st) as [-> | [e ->]]; [| by eexists].
  rewrite Hd.
  destruct (mods_get st table) as [[] |]; try (by eexists).
  destruct doc; by eexists.
Qed.

Lemma autosave_returns `{Host} table st doc :
  datas_get st table = Val doc ->
  autosave table st = Return tt (final (autosave table st)).
Proof.
  intros Hd. unfold autosave, bind, gets, ret.
  destruct (autoSave (options st)) as [[]|]; try reflexivity.
  destruct (save_started_settles table st doc Hd) as [p ->]. reflexivity.
Qed.

Lemma datas_get_own `{Host} st table doc :
  datas st !! table = Some doc -> datas_get st table = Val doc.
Proof. unfold datas_get. by intros ->. Qed.

Lemma table_value_own `{Host} st table doc :
  datas st !! table = Some doc -> table_value table st = Return doc st.
Proof.
  intros Hd. unfold table_value, table_doc, bind, gets, ret.
  by rewrite (datas_get_own _ _ _ Hd).
Qed.

Lemma mutated_own `{Host} st table doc0 doc doc' :
  datas st !! table = Some doc0 ->
  mutated table doc doc' st
  = Return tt (with_datas (<[table := doc']> (datas st)) st).
Proof. unfold mutated. by intros ->. Qed.

(** ** Running the monad by hand *)

Ltac run :=
  repeat (progress (unfold bind, ret, gets, modify, throw, emit, perform; cbv beta)).

Ltac proj :=
  cbn [options datas datas_proto mods ready defaults files dirs clock_reads
       random_draws timers log with_options with_datas with_datas_proto
       with_mods with_ready with_defaults with_files with_dirs
       with_clock_reads with_random_draws with_timers with_log final].

(** ** lodash: removing what is not there *)

Lemma obj_replace_absent k v ps : assoc ps k = None -> obj_replace k v ps = ps.
Proof.
  induction ps as [| [k' v'] ps IH]; cbn; [reflexivity |].
  destruct (decide (k' = k)); [discriminate |].
  intros Hn. by rewrite IH.
Qed.


Lemma filter_absent k ps :
  assoc ps k = None -> filter (fun p : string * value => p.1 <> k) ps = ps.
Proof.
  induction ps as [| [k' v'] ps IH]; [reflexivity |].
  cbn [assoc]. destruct (decide (k' = k)); [discriminate |].
  intros Hn. rewrite filter_cons_True by done. by rewrite IH.
Qed.






Lemma has_own_true o k : has_own o k = true -> exists v, own_prop o k = Some v.
Proof. unfold has_own. intros Hb. apply bool_decide_eq_true in Hb. exact Hb. Qed.

Lemma own_prop_has_own o k v : own_prop o k = Some v -> has_own o k = true.
Proof. unfold has_own. intros ->. by apply bool_decide_eq_true. Qed.

Lemma own_prop_not_nullish o k v : own_prop o k = Some v -> nullish o = false.
Proof. by destruct o. Qed.

Section UnsetAbsent.
Context `{Host}.

Lemma unset_walk_nullish o path :
  nullish o = true -> unset_walk o path = Some o.
Proof.
  intros Hn. destruct path as [| k [| k' rest]]; cbn; [reflexivity | |].
  - destruct o; try discriminate; reflexivity.
  - by rewrite Hn.
Qed.


Lemma hasPath_walk_cons o k k' rest :
  hasPath_walk o (k :: k' :: rest)
  = baseHas o k && hasPath_walk (own_value o k) (k' :: rest).
Proof. reflexivity. Qed.



(** A key that is one segment is deleted from the document itself. *)
Lemma lodash_unset_segment doc k s :
  castPath k doc = [s] -> lodash_unset doc k = Some (delete_prop doc s).
Proof.
  unfold lodash_unset, baseUnset. intros ->.
  destruct (nullish doc) eqn:En; [| reflexivity].
  destruct doc; try discriminate; reflexivity.
Qed.
End UnsetAbsent.

Lemma assoc_filter_ne k s (ps : list (string * value)) :
  s <> k -> assoc (filter (fun p => p.1 <> k) ps) s = assoc ps s.
Proof.
  intros Hne. induction ps as [| [k' v'] ps IH]; [reflexivity |].
  destruct (decide (k' = k)) as [-> | Hk].
  - rewrite filter_cons_False by (cbn; tauto).
    cbn [assoc]. by rewrite decide_False by done.
  - rewrite filter_cons_True by done. cbn [assoc].
    destruct (decide (k' = s)); [reflexivity | exact IH].
Qed.

Lemma assoc_filter_eq k (ps : list (string * value)) :
  assoc (filter (fun p => p.1 <> k) ps) k = None.
Proof.
  induction ps as [| [k' v'] ps IH]; [reflexivity |].
  destruct (decide (k' = k)) as [-> | Hk].
  - by rewrite filter_cons_False by (cbn; tauto).
  - rewrite filter_cons_True by done. cbn [assoc].
    by rewrite decide_False by done.
Qed.

(** ** [delete] *)

Section Delete.
Context `{Host}.

Lemma delete_spec st table doc k doc' :
  registered st table -> datas st !! table = Some doc ->
  lodash_unset doc (KStr k) = Some doc' ->
  exists st',
    delete (Some table) k st = Return true st'
    /\ datas st' = <[table := doc']> (datas st)
    /\ options st' = options st /\ mods st' = mods st /\ ready st' = ready st
    /\ defaults st' = defaults st /\ timers st' = timers st
    /\ clock_reads st' = clock_reads st
    /\ exists writes,
         log st' = (log st ++ Emit (EvDelete k table) (datas st) :: writes)%list
         /\ emitted writes = [].
Proof.
  intros Hreg Hdoc Hu.
  unfold delete, table_or_first, bind, ret.
  rewrite (checkTable_ok _ _ Hreg).
  unfold emit, modify.
  erewrite table_value_own by (proj; exact Hdoc).
  rewrite Hu.
  erewrite mutated_own by (proj; exact Hdoc).
  erewrite autosave_returns
    by (apply datas_get_own; proj; apply lookup_insert_eq).
  match goal with |- context [final (autosave table ?s)] =>
    pose proof (autosave_only_writes table s) as Hw; cbv beta in Hw;
    set (st1 := s) in *; set (st' := final (autosave table st1)) in * end.
  destruct Hw as (Ho & Hd & Hm & Hr & Hdf & Ht & Hc & _ & writes & Hl & He).
  exists st'. split; [reflexivity |].
  repeat split; try (etransitivity; [eassumption | reflexivity]).
  exists writes. split; [| exact He].
  rewrite Hl. unfold st1. proj. by rewrite <- app_assoc.
Qed.

Lemma has_spec st table doc k :
  registered st table -> datas st !! table = Some doc ->
  has (Some table) k st = Return (lodash_has doc k) st.
Proof.
  intros Hreg Hdoc. unfold has, table_or_first, bind, ret.
  rewrite (checkTable_ok _ _ Hreg), (table_value_own _ _ _ Hdoc). reflexivity.
Qed.

End Delete.

Lemma main_store_registered : registered main_store "main".
Proof.
  split; [reflexivity |]. exists "./database/main.json".
  split; [reflexivity | discriminate].
Qed.

Lemma main_store_document : datas main_store !! "main" = Some (VObj []).
Proof. reflexivity. Qed.



(** ** lodash: a value that is read is there *)

Section GetHas.
Context `{Host}.

Lemma get_prop_own o k v : own_prop o k = Some v -> get_prop o k = Val v.
Proof. unfold get_prop. by intros ->. Qed.




(** Along own properties [get] finds what is stored. *)
Lemma stored_get path : forall o v,
  stored o path = Some v -> baseGet_walk (Val o) path = Some (Val v).
Proof.
  induction path as [| k rest IH]; intros o v; cbn; [by intros [= ->] |].
  destruct (own_prop o k) as [c |] eqn:Ec; [| discriminate].
  intros Hs. rewrite (own_prop_not_nullish _ _ _ Ec), (get_prop_own _ _ _ Ec).
  by apply IH.
Qed.

Lemma stored_has path : forall o v,
  path <> [] -> stored o path = Some v -> hasPath_walk o path = true.
Proof.
  induction path as [| k rest IH]; intros o v Hne; [done |].
  cbn [stored]. destruct (own_prop o k) as [c |] eqn:Ec; [| discriminate].
  intros Hs.
  assert (Hb : baseHas o k = true).
  { unfold baseHas.
    by rewrite (own_prop_not_nullish _ _ _ Ec), (own_prop_has_own _ _ _ Ec). }
  destruct rest as [| k' rest].
  - cbn. by rewrite Hb.
  - rewrite hasPath_walk_cons, Hb. unfold own_value. rewrite Ec. cbn [default andb].
    by eapply IH.
Qed.





Lemma lodash_has_stored doc k v :
  castPath k doc <> [] -> stored doc (castPath k doc) = Some v ->
  lodash_has doc k = true.
Proof.
  intros Hne Hs. unfold lodash_has.
  destruct (castPath k doc) as [| s path] eqn:Ec; [done |].
  assert (Hn : nullish doc = false).
  { cbn in Hs. destruct (own_prop doc s) eqn:Eo; [| discriminate].
    by eapply own_prop_not_nullish. }
  rewrite Hn. cbn [negb andb]. by eapply stored_has.
Qed.

Lemma lodash_get_stored doc k v :
  castPath k doc <> [] -> stored doc (castPath k doc) = Some v ->
  lodash_get doc k = Some (Val v).
Proof.
  intros Hne Hs. unfold lodash_get, baseGet, baseGet_path.
  destruct (castPath k doc) as [| s path] eqn:Ec; [done |].
  assert (Hn : nullish doc = false).
  { cbn in Hs. destruct (own_prop doc s) eqn:Eo; [| discriminate].
    by eapply own_prop_not_nullish. }
  rewrite Hn. by apply stored_get.
Qed.
End GetHas.

(** ** [get] and [set] on a table with its document *)

Section SetGetEdit.
Context `{Host}.

Lemma get_spec st table doc k dvalue :
  registered st table -> datas st !! table = Some doc ->
  get (Some table) k dvalue st
  = match lodash_get doc k with
    | Some r => Return (coalesce_result r dvalue) st
    | None => Beyond st
    end.
Proof.
  intros Hreg Hdoc. unfold get, table_or_first, bind, ret.
  rewrite (checkTable_ok _ _ Hreg), (table_value_own _ _ _ Hdoc).
  by destruct (lodash_get doc k).
Qed.

Lemma set_spec st table doc k v emit_ doc' :
  registered st table -> datas st !! table = Some doc ->
  lodash_set doc k (coalesce v VNull) = Wrote doc' ->
  exists st',
    set (Some table) k v emit_ st = Return v st'
    /\ datas st' = datas_with st table doc'
    /\ options st' = options st /\ mods st' = mods st /\ ready st' = ready st
    /\ timers st' = timers st /\ clock_reads st' = clock_reads st
    /\ exists writes,
         log st'
         = (log st
            ++ (if emit_ then [Emit (EvUpdate k v table) (datas_with st table doc')]
                else []) ++ writes)%list
         /\ emitted writes = [].
Proof.
  intros Hreg Hdoc Hset.
  unfold set, table_or_first, bind, ret.
  rewrite (checkTable_ok _ _ Hreg), (table_value_own _ _ _ Hdoc), Hset.
  rewrite (mutated_own _ _ _ _ _ Hdoc).
  unfold datas_with. rewrite Hdoc.
  destruct emit_; unfold emit, modify;
    erewrite autosave_returns
      by (apply datas_get_own; proj; apply lookup_insert_eq).
  all: match goal with |- context [final (autosave ?t ?s)] =>
    pose proof (autosave_only_writes t s) as Hw; cbv beta in Hw;
    set (st1 := s) in *; set (st' := final (autosave t st1)) in * end.
  all: destruct Hw as (Ho & Hd & Hm & Hr & Hdf & Ht & Hc & _ & writes & Hl & He).
  all: exists st'; split; [reflexivity |].
  all: repeat split; try (etransitivity; [eassumption | reflexivity]).
  all: exists writes; split; [| exact He].
  all: rewrite Hl; unfold st1; proj.
  - by rewrite <- app_assoc.
  - reflexivity.
Qed.

Lemma set_invalid_length st table doc k v emit_ :
  registered st table -> datas st !! table = Some doc ->
  lodash_set doc k (coalesce v VNull) = InvalidLength ->
  set (Some table) k v emit_ st = Throw RangeError st.
Proof.
  intros Hreg Hdoc Hset.
  unfold set, table_or_first, bind, ret.
  by rewrite (checkTable_ok _ _ Hreg), (table_value_own _ _ _ Hdoc), Hset.
Qed.

Lemma set_outside st table doc k v emit_ :
  registered st table -> datas st !! table = Some doc ->
  lodash_set doc k (coalesce v VNull) = Outside ->
  set (Some table) k v emit_ st = Beyond st.
Proof.
  intros Hreg Hdoc Hset.
  unfold set, table_or_first, bind, ret.
  by rewrite (checkTable_ok _ _ Hreg), (table_value_own _ _ _ Hdoc), Hset.
Qed.

(** Whatever the store and the table, what [set] returns is its
    argument. *)
Lemma set_returns_argument st table k v emit_ r st' :
  set table k v emit_ st = Return r st' -> r = v.
Proof.
  unfold set, bind, ret, throw, beyond.
  destruct (table_or_first table st) as [t s0 | |]; [| discriminate ..].
  destruct (checkTable t s0) as [? s1 | |]; [| discriminate ..].
  destruct (table_value t s1) as [doc s2 | |]; [| discriminate ..].
  destruct (lodash_set doc k (coalesce v VNull)); [| discriminate ..].
  destruct (mutated t doc object s2) as [? s3 | |]; [| discriminate ..].
  destruct emit_; unfold emit, modify;
    match goal with |- context [autosave t ?s] => destruct (autosave t s) end;
    try discriminate; by intros [= <- _].
Qed.
End SetGetEdit.

(** ** lodash: reading back what was written *)

Lemma assoc_obj_replace k v ps :
  is_Some (assoc ps k) -> assoc (obj_replace k v ps) k = Some v.
Proof.
  induction ps as [| [k' v'] ps IH]; cbn; [by intros [? ?] |].
  destruct (decide (k' = k)) as [-> | Hne]; cbn.
  - by rewrite decide_True.
  - rewrite decide_False by done. exact IH.
Qed.

Lemma assoc_obj_replace_ne k s v ps :
  s <> k -> assoc (obj_replace k v ps) s = assoc ps s.
Proof.
  intros Hne. induction ps as [| [k' v'] ps IH]; cbn; [reflexivity |].
  destruct (decide (k' = k)) as [-> | Hk]; cbn.
  - by rewrite !decide_False by done.
  - destruct (decide (k' = s)); [reflexivity | exact IH].
Qed.

Lemma assoc_obj_insert_index i k v ps :
  assoc ps k = None -> assoc (obj_insert_index i k v ps) k = Some v.
Proof.
  induction ps as [| [k' v'] ps IH]; cbn [obj_insert_index assoc].
  - by rewrite decide_True.
  - destruct (decide (k' = k)) as [-> | Hne]; [discriminate |]. intros Hn.
    destruct (array_index k') as [j |]; [destruct (j <? i)%nat |];
      cbn [assoc]; rewrite ?decide_True by done; try reflexivity.
    rewrite decide_False by done. by apply IH.
Qed.

Lemma assoc_obj_insert_index_ne i k s v ps :
  s <> k -> assoc (obj_insert_index i k v ps) s = assoc ps s.
Proof.
  intros Hne. induction ps as [| [k' v'] ps IH]; cbn [obj_insert_index assoc].
  - by rewrite decide_False by done.
  - destruct (array_index k') as [j |]; [destruct (j <? i)%nat |];
      cbn [assoc]; rewrite ?(decide_False (P := k = s)) by done; try reflexivity.
    destruct (decide (k' = s)); [reflexivity | exact IH].
Qed.

Lemma assoc_app_absent k v ps :
  assoc ps k = None -> assoc (ps ++ [(k, v)]) k = Some v.
Proof.
  induction ps as [| [k' v'] ps IH]; cbn.
  - by rewrite decide_True.
  - destruct (decide (k' = k)); [discriminate | exact IH].
Qed.

Lemma assoc_app_ne k s v ps :
  s <> k -> assoc (ps ++ [(k, v)]) s = assoc ps s.
Proof.
  intros Hne. induction ps as [| [k' v'] ps IH]; cbn.
  - by rewrite decide_False by done.
  - destruct (decide (k' = s)); [reflexivity | exact IH].
Qed.

Lemma assoc_obj_set k v ps : assoc (obj_set k v ps) k = Some v.
Proof.
  unfold obj_set. destruct (assoc ps k) eqn:Ea.
  - apply assoc_obj_replace. by rewrite Ea.
  - destruct (array_index k).
    + by apply assoc_obj_insert_index.
    + by apply assoc_app_absent.
Qed.

Lemma assoc_obj_set_ne k s v ps : s <> k -> assoc (obj_set k v ps) s = assoc ps s.
Proof.
  intros Hne. unfold obj_set. destruct (assoc ps k).
  - by apply assoc_obj_replace_ne.
  - destruct (array_index k).
    + by apply assoc_obj_insert_index_ne.
    + by apply assoc_app_ne.
Qed.

Lemma arr_store_lookup l i v : arr_store l i v !! i = Some v.
Proof.
  unfold arr_store. destruct (i <? length l)%nat eqn:E.
  - apply Nat.ltb_lt in E. by apply list_lookup_insert_eq.
  - apply Nat.ltb_ge in E.
    rewrite lookup_app_r by done.
    rewrite lookup_app_r by (rewrite length_replicate; lia).
    rewrite length_replicate.
    replace (i - length l - (i - length l))%nat with 0%nat by lia. reflexivity.
Qed.

Lemma array_index_length : array_index "length" = None.
Proof. reflexivity. Qed.

Lemma array_index_not_length k i : array_index k = Some i -> k <> "length".
Proof. intros Hi ->. discriminate. Qed.

Lemma slot_arr_store l i v : v <> VUndef -> slot (arr_store l i v) i = Some v.
Proof. intros Hv. unfold slot. rewrite arr_store_lookup. by destruct v. Qed.

Lemma length_set_length l n : length (set_length l n) = n.
Proof.
  unfold set_length. rewrite length_app, length_take, length_replicate. lia.
Qed.

Section Assign.
Context `{Host}.

(** After [assignValue], the key is an own property holding the value
    written, the length of an array apart. *)
Lemma own_prop_assignValue o k v o' :
  assignValue o k v = Wrote o' -> v <> VUndef ->
  is_array o && bool_decide (k = "length") = false ->
  own_prop o' k = Some v.
Proof.
  destruct o; cbn; try discriminate.
  - destruct (decide (k = "length")) as [-> | Hk]; [by rewrite bool_decide_eq_true_2 |].
    intros Ha Hv _.
    destruct (array_index k) as [i |] eqn:Ei; injection Ha as <-; cbn;
      rewrite decide_False by done; rewrite Ei.
    + by apply slot_arr_store.
    + apply assoc_obj_set.
  - intros [= <-] _ _. cbn. apply assoc_obj_set.
Qed.

Lemma own_prop_assignValue_length o v o' :
  is_array o = true -> assignValue o "length" v = Wrote o' ->
  exists n, to_number v = Some n /\ own_prop o' "length" = Some (VNum n).
Proof.
  destruct o; try discriminate. intros _. cbn.
  destruct (to_number v) as [n |]; [| discriminate].
  destruct ((0 <=? n) && (n <? 4294967296)) eqn:En; [| discriminate].
  intros [= <-]. exists n. split; [reflexivity |]. cbn.
  rewrite length_set_length. apply andb_true_iff in En as [Hn _].
  apply Z.leb_le in Hn. by rewrite Z2Nat.id.
Qed.

Lemma isObject_assignValue o k v o' : assignValue o k v = Wrote o' -> isObject o' = true.
Proof.
  destruct o; cbn; try discriminate.
  - destruct (decide (k = "length")).
    + destruct (to_number v); [| discriminate].
      destruct (_ && _); [| discriminate]. by intros [= <-].
    + destruct (array_index k); by intros [= <-].
  - by intros [= <-].
Qed.

Lemma kind_of_assignValue o k v o' :
  assignValue o k v = Wrote o' -> kind_of o' = kind_of o.
Proof.
  destruct o; cbn; try discriminate.
  - destruct (decide (k = "length")).
    + destruct (to_number v); [| discriminate].
      destruct (_ && _); [| discriminate]. by intros [= <-].
    + destruct (array_index k); by intros [= <-].
  - by intros [= <-].
Qed.

Lemma inherits_assignValue o k v o' s :
  assignValue o k v = Wrote o' -> inherits o' s = inherits o s.
Proof. intros Ha. unfold inherits. by rewrite (kind_of_assignValue _ _ _ _ Ha). Qed.
End Assign.

Lemma isObject_not_nullish o : isObject o = true -> nullish o = false.
Proof. by destruct o. Qed.

Lemma isObject_not_undef o : isObject o = true -> o <> VUndef.
Proof. by destruct o. Qed.

Section Roundtrip.
Context `{Host}.

Lemma container_not_length nested k k' c :
  container nested k k' = Some c ->
  is_array nested && bool_decide (k = "length") = false.
Proof. unfold container. by destruct (is_array nested && bool_decide (k = "length")). Qed.

Lemma isObject_container nested k k' c :
  container nested k k' = Some c -> isObject c = true.
Proof.
  unfold container. destruct (is_array nested && bool_decide (k = "length"));
    [discriminate |].
  destruct (own_prop nested k) as [o |].
  - intros [= <-]. destruct (isObject o) eqn:E; [exact E |].
    by destruct (isIndex k' MAX_SAFE_INTEGER).
  - destruct (inherits nested k); [discriminate |].
    intros [= <-]. by destruct (isIndex k' MAX_SAFE_INTEGER).
Qed.

Lemma baseSet_walk_cons nested k k' rest v :
  baseSet_walk nested (k :: k' :: rest) v
  = if unsafe_key k then Wrote nested
    else match container nested k k' with
         | Some newValue =>
             match baseSet_walk newValue (k' :: rest) v with
             | Wrote child => assignValue nested k child
             | w => w
             end
         | None => Outside
         end.
Proof. reflexivity. Qed.

(** What [baseSet] wrote is stored at the end of the path. *)
Lemma baseSet_walk_roundtrip path : forall nested v nested',
  path <> [] ->
  Forall (fun k => unsafe_key k = false) path ->
  v <> VUndef ->
  baseSet_walk nested path v = Wrote nested' ->
  isObject nested' = true
  /\ stored nested' path = Some (landed nested path v).
Proof.
  induction path as [| k rest IH]; intros nested v nested' Hne Hsafe Hv Hset; [done |].
  apply Forall_cons in Hsafe as [Hk Hrest].
  destruct rest as [| k' rest].
  - cbn [baseSet_walk] in Hset. rewrite Hk in Hset.
    split; [by eapply isObject_assignValue |].
    unfold landed. cbn [sets_length stored].
    destruct (is_array nested && bool_decide (k = "length")) eqn:El.
    + apply andb_true_iff in El as [Harr Hl]. apply bool_decide_eq_true in Hl as ->.
      destruct (own_prop_assignValue_length _ _ _ Harr Hset) as (n & -> & ->).
      reflexivity.
    + by rewrite (own_prop_assignValue _ _ _ _ Hset Hv El).
  - rewrite baseSet_walk_cons, Hk in Hset.
    destruct (container nested k k') as [nv |] eqn:Ec; [| discriminate].
    destruct (baseSet_walk nv (k' :: rest) v) as [child | |] eqn:Ew;
      [| discriminate ..].
    destruct (IH nv v child ltac:(done) Hrest Hv Ew) as [Hco Hcs].
    split; [by eapply isObject_assignValue |].
    change (stored nested' (k :: k' :: rest))
      with (match own_prop nested' k with
            | Some c => stored c (k' :: rest)
            | None => None
            end).
    rewrite (own_prop_assignValue _ _ _ _ Hset (isObject_not_undef _ Hco)
               (container_not_length _ _ _ _ Ec)).
    rewrite Hcs. unfold landed.
    change (sets_length nested (k :: k' :: rest))
      with (match container nested k k' with
            | Some c => sets_length c (k' :: rest)
            | None => false
            end).
    by rewrite Ec.
Qed.
End Roundtrip.

Lemma digit_is_word_char c d : digit_of c = Some d -> is_word_char c = true.
Proof.
  destruct c as [[] [] [] [] [] [] [] []]; vm_compute; congruence.
Qed.

Lemma digits_value_plain s : forall acc n,
  digits_value acc s = Some n -> reIsPlainProp s = true.
Proof.
  induction s as [| c s IH]; intros acc n; cbn; [reflexivity |].
  destruct (digit_of c) as [d |] eqn:Ed; [| discriminate].
  intros Hv. rewrite (digit_is_word_char _ _ Ed). cbn. by eapply IH.
Qed.

Lemma array_index_plain s i : array_index s = Some i -> reIsPlainProp s = true.
Proof.
  unfold array_index, parse_uint.
  destruct s as [| c s]; [discriminate |].
  destruct (decide (String c s = "0")) as [-> | _]; [reflexivity |].
  destruct (decide (c = "0"%char)); [discriminate |].
  destruct (digits_value 0 (String c s)) eqn:Ed; [| discriminate].
  intros _. by eapply digits_value_plain.
Qed.

Section Stable.
Context `{Host}.

(** A write at [k] leaves the own properties with other names, as far as
    they are not plain names. *)
Lemma has_own_assignValue_ne o k c o' s :
  assignValue o k c = Wrote o' -> s <> k -> reIsPlainProp s = false ->
  has_own o' s = has_own o s.
Proof.
  intros Ha Hne Hp. unfold has_own.
  assert (Hl : s <> "length") by (intros ->; discriminate).
  assert (Hi : array_index s = None).
  { destruct (array_index s) eqn:Es; [| reflexivity].
    apply array_index_plain in Es. congruence. }
  destruct o; cbn in Ha; try discriminate.
  - destruct (decide (k = "length")).
    + destruct (to_number c); [| discriminate].
      destruct (_ && _); [| discriminate]. injection Ha as <-.
      cbn. by rewrite !decide_False, Hi by done.
    + destruct (array_index k); injection Ha as <-; cbn;
        rewrite !decide_False by done; rewrite Hi; [reflexivity |].
      by rewrite assoc_obj_set_ne.
  - injection Ha as <-. cbn. by rewrite assoc_obj_set_ne.
Qed.

Lemma baseSet_walk_top nested k rest v nested' :
  unsafe_key k = false ->
  baseSet_walk nested (k :: rest) v = Wrote nested' ->
  exists c, assignValue nested k c = Wrote nested' /\ (c = v \/ isObject c = true).
Proof.
  intros Hk. destruct rest as [| k' rest].
  - cbn [baseSet_walk]. rewrite Hk.
    intros Ha. exists v. split; [exact Ha | by left].
  - rewrite baseSet_walk_cons, Hk.
    destruct (container nested k k') as [nv |] eqn:Ec; [| discriminate].
    destruct (baseSet_walk nv (k' :: rest) v) as [child | |] eqn:Ew;
      [| discriminate ..].
    intros Ha. exists child. split; [exact Ha |]. right.
    pose proof (isObject_container _ _ _ _ Ec) as Hnv.
    destruct rest as [| k'' rest].
    + cbn [baseSet_walk] in Ew. destruct (unsafe_key k').
      * by injection Ew as <-.
      * by eapply isObject_assignValue.
    + rewrite baseSet_walk_cons in Ew. destruct (unsafe_key k').
      * by injection Ew as <-.
      * destruct (container nv k' k''); [| discriminate].
        destruct (baseSet_walk _ (k'' :: rest) v); try discriminate.
        by eapply isObject_assignValue.
Qed.

(** The key resolves to the same segments after the write as before. *)
Lemma castPath_after_set k doc doc' v :
  isObject doc = true -> addresses k doc -> v <> VUndef ->
  lodash_set doc k v = Wrote doc' ->
  castPath k doc' = castPath k doc.
Proof.
  intros Hobj (Hne & Hsafe & Hk) Hv Hset.
  destruct k as [s | l]; [| reflexivity].
  unfold lodash_set in Hset.
  rewrite (isObject_not_nullish _ Hobj), Hobj in Hset. cbn [negb] in Hset.
  destruct (castPath (KStr s) doc) as [| k0 rest] eqn:Ep; [done |].
  apply Forall_cons in Hsafe as [Hk0 _].
  destruct (baseSet_walk_top _ _ _ _ _ Hk0 Hset) as (c & Ha & Hc).
  pose proof (isObject_not_nullish _ (isObject_assignValue _ _ _ _ Ha)) as Hnn.
  cbn [castPath] in *. unfold isKey, has_in in *. rewrite Hnn.
  rewrite (isObject_not_nullish _ Hobj) in *. cbn [negb andb] in *.
  rewrite (inherits_assignValue _ _ _ _ s Ha).
  destruct (reIsPlainProp s || negb (reIsDeepProp s)) eqn:Esyn;
    cbn [orb] in *; [congruence |].
  apply orb_false_iff in Esyn as [Hplain _].
  destruct (has_own doc s || inherits doc s) eqn:Ein.
  - injection Ep as <- <-.
    assert (Hc' : c <> VUndef)
      by (destruct Hc as [-> | Hc]; [done | by apply isObject_not_undef]).
    assert (Hl : is_array doc && bool_decide (s = "length") = false).
    { rewrite (bool_decide_eq_false_2 (s = "length")) by (intros ->; discriminate).
      apply andb_false_r. }
    by rewrite (own_prop_has_own _ _ _ (own_prop_assignValue _ _ _ _ Ha Hc' Hl)).
  - destruct Hk as [Hk | Hk]; [discriminate |].
    rewrite Ep in Hk. cbn in Hk.
    apply orb_false_iff in Ein as [Eown Einh].
    rewrite (has_own_assignValue_ne _ _ _ _ s Ha) by congruence.
    by rewrite Eown, Einh.
Qed.

Lemma lodash_set_get doc k v doc' :
  isObject doc = true -> addresses k doc -> v <> VUndef ->
  lodash_set doc k v = Wrote doc' ->
  stored doc' (castPath k doc') = Some (landed doc (castPath k doc) v)
  /\ castPath k doc' <> []
  /\ isObject doc' = true.
Proof.
  intros Hobj Haddr Hv Hset.
  rewrite (castPath_after_set _ _ _ _ Hobj Haddr Hv Hset).
  destruct Haddr as (Hne & Hsafe & _).
  unfold lodash_set in Hset.
  rewrite (isObject_not_nullish _ Hobj), Hobj in Hset. cbn [negb] in Hset.
  destruct (baseSet_walk_roundtrip _ _ _ _ Hne Hsafe Hv Hset) as (Hobj' & Hst).
  by repeat split.
Qed.
End Stable.

(** ** [has], [get], [set] and [edit] together *)

Lemma registered_transfer st st' table :
  registered st table -> mods st' = mods st -> ready st' = ready st ->
  registered st' table.
Proof.
  intros (Hr & path & Hm & Hp) Hm' Hr'. split; [congruence |].
  exists path. split; [congruence | exact Hp].
Qed.

Lemma coalesce_undef v : coalesce v VUndef = VUndef -> nullish v = true.
Proof. unfold coalesce. by destruct v. Qed.


Section HasGetSet.
Context `{Host}.

(** What [get] and [has] answer right after a [set] that lodash carried
    out within the document. *)
Lemma set_then_read st table k v emit_ doc doc' :
  registered st table ->
  datas st !! table = Some doc ->
  isObject doc = true ->
  addresses k doc ->
  lodash_set doc k (coalesce v VNull) = Wrote doc' ->
  exists st',
    set (Some table) k v emit_ st = Return v st'
    /\ datas st' = <[table := doc']> (datas st)
    /\ stored doc' (castPath k doc)
       = Some (landed doc (castPath k doc) (coalesce v VNull))
    /\ has (Some table) k st' = Return true st'
    /\ forall dvalue,
         get (Some table) k dvalue st'
         = Return (Val (coalesce (landed doc (castPath k doc) (coalesce v VNull))
                          dvalue)) st'.
Proof.
  intros Hreg Hdoc Hobj Haddr Hset.
  destruct (set_spec st table doc k v emit_ doc' Hreg Hdoc Hset)
    as (st' & Hs & Hd & _ & Hm & Hr & _).
  unfold datas_with in Hd. rewrite Hdoc in Hd.
  exists st'. split; [exact Hs |]. split; [exact Hd |].
  pose proof (registered_transfer _ _ _ Hreg Hm Hr) as Hreg'.
  assert (Hdoc' : datas st' !! table = Some doc')
    by (rewrite Hd; apply lookup_insert_eq).
  assert (Hw : coalesce v VNull <> VUndef) by (by destruct v).
  pose proof (castPath_after_set _ _ _ _ Hobj Haddr Hw Hset) as Hstable.
  destruct (lodash_set_get _ _ _ _ Hobj Haddr Hw Hset) as (Hst & Hne & _).
  split; [by rewrite Hstable in Hst |].
  split.
  - rewrite (has_spec _ _ _ _ Hreg' Hdoc').
    by rewrite (lodash_has_stored _ _ _ Hne Hst).
  - intros dvalue. rewrite (get_spec _ _ _ _ _ Hreg' Hdoc').
    by rewrite (lodash_get_stored _ _ _ Hne Hst).
Qed.


(** C4 (as amended).  On an initialized store, for a registered table
    whose document is an object or an array and a key that addresses it,
    a [set] that lodash carries out within the document returns, [has] is
    true afterwards, and the [get] that follows yields what the write
    left at the end of the path, or [undefined] if that is [null]: so,
    unless the write was to the length of an array, it yields the value
    written, and [undefined] where that value is [null] or [undefined]. *)
Theorem set_then_get st table k v emit_ doc doc' :
  registered st table ->
  datas st !! table = Some doc ->
  isObject doc = true ->
  addresses k doc ->
  lodash_set doc k (coalesce v VNull) = Wrote doc' ->
  exists st',
    set (Some table) k v emit_ st = Return v st'
    /\ has (Some table) k st' = Return true st'
    /\ get (Some table) k VUndef st'
       = Return (Val (coalesce (landed doc (castPath k doc) (coalesce v VNull))
                        VUndef)) st'
    /\ (sets_length doc (castPath k doc) = false ->
        get (Some table) k VUndef st'
        = Return (Val (if nullish v then VUndef else v)) st').
Proof.
  intros Hreg Hdoc Hobj Haddr Hset.
  destruct (set_then_read st table k v emit_ doc doc' Hreg Hdoc Hobj Haddr Hset)
    as (st' & Hs & _ & _ & Hhas & Hget).
  exists st'. split; [exact Hs |]. split; [exact Hhas |].
  split; [apply Hget |].
  intros Hlen. rewrite Hget. unfold landed. rewrite Hlen. by destruct v.
Qed.

(** C8 (as amended).  Whenever [set] returns, it returns the value the
    caller supplied, unchanged.  On an initialized store and a registered
    table with its document, it does return when lodash carries the write
    out within the document, and the document then is what lodash left;
    what is stored at the end of the path is the supplied value, or [null]
    when the caller supplied [undefined] (or the number the value stands
    for, where it became the length of an array).  A value that cannot be
    the length of an array makes [set] throw a [RangeError], the store
    left as it was. *)
Theorem set_returns_its_argument st table doc k v emit_ :
  registered st table -> datas st !! table = Some doc ->
  (forall t r st', set t k v emit_ st = Return r st' -> r = v)
  /\ (forall doc', lodash_set doc k (coalesce v VNull) = Wrote doc' ->
      exists st',
        set (Some table) k v emit_ st = Return v st'
        /\ datas st' = <[table := doc']> (datas st)
        /\ (isObject doc = true -> addresses k doc ->
            stored doc' (castPath k doc)
            = Some (landed doc (castPath k doc) (coalesce v VNull))))
  /\ (lodash_set doc k (coalesce v VNull) = InvalidLength ->
      set (Some table) k v emit_ st = Throw RangeError st).
Proof.
  intros Hreg Hdoc. split; [| split].
  - intros t r st'. apply set_returns_argument.
  - intros doc' Hset.
    destruct (set_spec st table doc k v emit_ doc' Hreg Hdoc Hset)
      as (st' & Hs & Hd & _).
    unfold datas_with in Hd. rewrite Hdoc in Hd.
    exists st'. split; [exact Hs |]. split; [exact Hd |].
    intros Hobj Haddr.
    destruct (set_then_read st table k v emit_ doc doc' Hreg Hdoc Hobj Haddr Hset)
      as (st2 & _ & _ & Hst & _).
    exact Hst.
  - by apply set_invalid_length.
Qed.

End HasGetSet.



Lemma set_then_get_witness :
  registered main_store "main"
  /\ datas main_store !! "main" = Some (VObj [])
  /\ isObject (VObj []) = true
  /\ @addresses simple_host (KStr "a.b") (VObj [])
  /\ @lodash_set simple_host (VObj []) (KStr "a.b") (coalesce (VStr "x") VNull)
     = Wrote (VObj [("a", VObj [("b", VStr "x")])])
  /\ exists st',
       @set simple_host (Some "main") (KStr "a.b") (VStr "x") true main_store
       = Return (VStr "x") st'
       /\ @get simple_host (Some "main") (KStr "a.b") VUndef st'
          = Return (Val (VStr "x")) st'.
Proof.
  assert (Ha : @addresses simple_host (KStr "a.b") (VObj [])).
  { split; [discriminate |]. split.
    - repeat constructor.
    - right. discriminate. }
  assert (Hs : @lodash_set simple_host (VObj []) (KStr "a.b") (coalesce (VStr "x") VNull)
               = Wrote (VObj [("a", VObj [("b", VStr "x")])])) by reflexivity.
  split; [exact main_store_registered |]. split; [exact main_store_document |].
  split; [reflexivity |]. split; [exact Ha |]. split; [exact Hs |].
  destruct (@set_then_get simple_host main_store "main" (KStr "a.b") (VStr "x") true
              _ _ main_store_registered main_store_document eq_refl Ha Hs)
    as (st' & Hset & _ & _ & Hget).
  exists st'. split; [exact Hset | exact (Hget eq_refl)].
Defined.

(** C4, as stated, fails for [null]: the [get] that follows
    [set(t, "a.b", null)] yields [undefined], which is not [null]. *)
Lemma set_null_then_get_undefined :
  exists st r,
    @set simple_host (Some "main") (KStr "a.b") VNull true main_store = Return VNull st
    /\ @get simple_host (Some "main") (KStr "a.b") VUndef st = Return r st
    /\ r <> Val VNull.
Proof.
  eexists _, _. split; [reflexivity |]. split; [reflexivity | discriminate].
Qed.

Lemma set_returns_its_argument_witness :
  registered main_store "main"
  /\ datas main_store !! "main" = Some (VObj [])
  /\ @lodash_set simple_host (VObj []) (KStr "a") (coalesce (VNum 1) VNull)
     = Wrote (VObj [("a", VNum 1)])
  /\ exists st', @set simple_host (Some "main") (KStr "a") (VNum 1) true main_store
               = Return (VNum 1) st'
               /\ datas st' = <["main" := VObj [("a", VNum 1)]]> (datas main_store).
Proof.
  assert (Hs : @lodash_set simple_host (VObj []) (KStr "a") (coalesce (VNum 1) VNull)
               = Wrote (VObj [("a", VNum 1)])) by reflexivity.
  split; [exact main_store_registered |]. split; [exact main_store_document |].
  split; [exact Hs |].
  destruct (proj1 (proj2 (@set_returns_its_argument simple_host main_store "main"
                            (VObj []) (KStr "a") (VNum 1) true
                            main_store_registered main_store_document)) _ Hs)
    as (st' & Hr & Hd & _).
  exists st'. split; [exact Hr | exact Hd].
Defined.

(** C8, as stated, fails when the caller supplies [undefined]: [null] is
    written, [undefined] is returned. *)
Lemma set_undefined_returns_undefined :
  exists r st' doc written,
    @set simple_host (Some "main") (KStr "k") VUndef true main_store = Return r st'
    /\ datas st' !! "main" = Some doc
    /\ own_prop doc "k" = Some written
    /\ written = VNull /\ r <> written.
Proof.
  eexists _, _, _, _. split; [reflexivity |].
  split; [reflexivity |]. split; [reflexivity |]. split; [reflexivity | discriminate].
Qed.



(** ** What the methods leave alone *)

Section Keeps.
Context `{Host}.

Lemma save_config table : preserves (keeps config) (save table).
Proof. unfold save, save_with, writeFile, perform. frame. Qed.

Lemma autosave_config table : preserves (keeps config) (autosave table).
Proof. unfold autosave, save_with, writeFile_started, perform. frame. Qed.

Lemma delete_config table k : preserves (keeps config) (delete table k).
Proof. unfold delete, emit. pose proof autosave_config. frame. Qed.

Lemma expire_config tid table : preserves (keeps config) (expire tid table).
Proof. unfold expire, emit. pose proof delete_config. frame. Qed.

Lemma scan_timeout_config table tid : preserves (keeps config) (scan_timeout table tid).
Proof.
  unfold scan_timeout, now, read_expires, setTimeout, perform.
  pose proof expire_config. frame.
Qed.

Lemma scan_timeouts_config : preserves (keeps config) scan_timeouts.
Proof. unfold scan_timeouts. pose proof scan_timeout_config. frame. Qed.

Lemma load_table_options T : preserves (keeps options) (load_table T).
Proof.
  unfold load_table, existsSync, mkdirSync, writeFile, readFile_parse, perform,
    assign_mods, assign_datas, set_prototype.
  frame.
Qed.

Lemma load_table_defaults T : preserves (keeps defaults) (load_table T).
Proof.
  unfold load_table, existsSync, mkdirSync, writeFile, readFile_parse, perform,
    assign_mods, assign_datas, set_prototype.
  frame.
Qed.

Lemma final_async {A} (m : M A) st : final (async m st) = final (m st).
Proof. unfold async. by destruct (m st). Qed.

Lemma init_unfold st :
  init st
  = async init_rest
      (with_options (merge (defaults st) (options st))
         (with_defaults (merge (defaults st) (options st)) st)).
Proof.
  unfold init, init_rest, load_tables, async.
  unfold bind at 1 2. unfold modify at 1. unfold bind at 2.
  reflexivity.
Qed.

Lemma init_rest_options : preserves (keeps options) init_rest.
Proof.
  unfold init_rest, emit.
  pose proof load_table_options.
  assert (preserves (keeps options) scan_timeouts).
  { intros st. pose proof (scan_timeouts_config st) as Hc.
    unfold keeps, config in *. congruence. }
  frame.
Qed.

(** The options in force once [init] is over, whether it succeeded or
    not: the defaults merged with the options of the instance. *)
Lemma init_options st :
  options (final (init st)) = merge (defaults st) (options st).
Proof.
  rewrite init_unfold, final_async.
  match goal with |- context [init_rest ?s] => rewrite (init_rest_options s) end.
  reflexivity.
Qed.
End Keeps.

(** ** The options in force *)

(** C5 (the code departs from it).  Whatever options the caller passes
    to the constructor, every key the defaults define comes out with the
    default value, after construction and again after [init]: the three
    scalar keys, and the first element of [tables]. *)
Theorem defaults_override_caller_options `{Host} fs ds opts :
  let st := constructor (world fs ds) (Some opts) in
  (timeoutsTable (options st) = Some "timeouts"
   /\ autoSave (options st) = Some true
   /\ mod_dir (options st) = Some "./database/"
   /\ head (default [] (tables (options st)))
      = Some {| name := "main"; file_mod := "main.json" |})
  /\ (timeoutsTable (options (final (init st))) = Some "timeouts"
      /\ autoSave (options (final (init st))) = Some true
      /\ mod_dir (options (final (init st))) = Some "./database/"
      /\ head (default [] (tables (options (final (init st)))))
         = Some {| name := "main"; file_mod := "main.json" |}).
Proof.
  intros st. split.
  - subst st. unfold constructor, world. cbn.
    repeat split. by destruct (tables opts) as [[| T ts] |].
  - rewrite init_options. subst st. unfold constructor, world. cbn.
    repeat split. by destruct (tables opts) as [[| T ts] |].
Qed.

(** The options of the README ([tables] with one table, ["users"]), with
    every other key set as well, end up as the defaults. *)
Example readme_options_are_lost :
  let caller := {| timeoutsTable := Some "ephemeral"; autoSave := Some false;
                   mod_dir := Some "./data/";
                   tables := Some [ {| name := "users"; file_mod := "users.json" |} ] |} in
  let st := final (@init simple_host (constructor (world ∅ ∅) (Some caller))) in
  options st = DefaultDataBaseOptions
  /\ mods st !! "users" = None
  /\ mods st !! "main" = Some "./database/main.json".
Proof. repeat split; reflexivity. Qed.

(** ** [init] when the timeouts table is not registered *)

Section NoTimeoutsTable.
Context `{Host}.






End NoTimeoutsTable.



(** ** [timeout] schedules nothing *)

Section Timeout.
Context `{Host}.

Lemma timeout_timers v time id table :
  preserves (keeps timers) (timeout v time id table).
Proof.
  unfold timeout, generateToken, now, set, emit, autosave, save_with, writeFile_started,
    writeFile, perform.
  frame.
Qed.

(** C2 (the code departs from it).  [timeout] registers no timer: the
    pending timers are the same after the call as before, so on a store
    without pending timers the event loop has no callback to run, and no
    expiration follows. *)
Theorem timeout_schedules_no_expiration v time id table st :
  let st' := final (timeout v time id table st) in
  timers st' = timers st
  /\ (timers st = [] -> forall i, fire i st' = Return tt st').
Proof.
  intros st'. pose proof (timeout_timers v time id table st) as Ht.
  split; [exact Ht |].
  intros Hnil i. unfold fire, bind, gets.
  fold st' in Ht. unfold keeps in Ht. rewrite Ht, Hnil. reflexivity.
Qed.
End Timeout.

(** The call of the specification, [timeout("bye", 0, "t1")] on an
    initialized store whose timeouts table is registered: the entry is
    stored and announced, no timer is pending, and the entry stays. *)
Example timeout_bye_never_expires :
  let entry := Timeout 1000 (VStr "bye") 0 "t1" in
  let st := final (@timeout simple_host (VStr "bye") 0 (Some "t1") None timeouts_store) in
  timers timeouts_store = []
  /\ @timeout simple_host (VStr "bye") 0 (Some "t1") None timeouts_store
     = Return entry st
  /\ timers st = []
  /\ emitted (log st) = [EvReady; EvCreateTimeout entry]
  /\ datas st !! "timeouts" = Some (VObj [("t1", entry)]).
Proof. repeat split; vm_compute; reflexivity. Qed.

(** ** [init]: the order of the events *)

Lemma bind_run {A B} (m : M A) (f : A -> M B) st a st' :
  m st = Return a st' -> bind m f st = f a st'.
Proof. unfold bind. by intros ->. Qed.

Section Scan.
Context `{Host}.
Context (t0 : Z) (frozen : forall n, Date_now n = t0).
Context (table path : string) (path_ok : path <> "").

Lemma scanning_registered st cur : scanning table path st cur -> registered st table.
Proof. intros (Hr & Hm & _). split; [exact Hr |]. by exists path. Qed.

Lemma castPath_own o k e : own_prop o k = Some e -> castPath (KStr k) o = [k].
Proof.
  intros Ho. unfold castPath, isKey, has_in.
  rewrite (own_prop_not_nullish _ _ _ Ho), (own_prop_has_own _ _ _ Ho).
  cbn [negb andb orb]. by rewrite orb_true_r.
Qed.

Lemma lodash_unset_own cur k e :
  assoc cur k = Some e ->
  lodash_unset (VObj cur) (KStr k) = Some (VObj (filter (fun p => p.1 <> k) cur)).
Proof.
  intros Ha. by rewrite (lodash_unset_segment _ _ k (castPath_own (VObj cur) k e Ha)).
Qed.

Lemma expire_run st cur k e :
  scanning table path st cur -> assoc cur k = Some e ->
  exists st',
    expire k None st = Return tt st'
    /\ scanning table path st' (filter (fun p => p.1 <> k) cur)
    /\ emitted (log st') = (emitted (log st) ++ [EvExpires e; EvDelete k table])%list.
Proof.
  intros Hs Ha. pose proof Hs as (Hr & Hm & Ht & Hd).
  unfold expire, table_or_timeouts. unfold bind at 1. unfold gets at 1.
  rewrite Ht. unfold bind at 1.
  rewrite (checkTable_ok _ _ (scanning_registered _ _ Hs)).
  unfold bind at 1. rewrite (table_value_own _ _ _ Hd).
  unfold bind at 1. unfold emit, modify.
  cbn [nullish]. cbv beta.
  match goal with |- context [bind (delete _ _) _ ?s] => set (st1 := s) end.
  assert (Hs1 : scanning table path st1 cur) by (subst st1; repeat split; assumption).
  pose proof Hs1 as (Hr1 & Hm1 & Ht1 & Hd1).
  destruct (delete_spec st1 table _ k _ (scanning_registered _ _ Hs1) Hd1
              (lodash_unset_own _ _ _ Ha))
    as (st' & Hdel & Hdatas & Ho & Hmods & Hready & _ & _ & _ & writes & Hlog & Hw).
  exists st'. unfold bind. rewrite Hdel. split; [reflexivity |]. split.
  - repeat split; try congruence.
    rewrite Hdatas. apply lookup_insert_eq.
  - rewrite Hlog. subst st1. proj.
    rewrite !emitted_app, !emitted_Emit, Hw.
    rewrite (get_prop_own (VObj cur) k e Ha). cbn.
    rewrite <- app_assoc. reflexivity.
Qed.

Lemma read_expires_run st cur k e :
  datas st !! table = Some (VObj cur) -> assoc cur k = Some e ->
  nullish e = false ->
  read_expires table k st = Return (get_prop e "expires") st.
Proof.
  intros Hd Ha He. unfold read_expires, bind, ret.
  rewrite (table_value_own _ _ _ Hd), (get_prop_own (VObj cur) k e Ha).
  by rewrite He.
Qed.

Lemma scan_timeout_run st cur k e :
  scanning table path st cur -> assoc cur k = Some e -> nullish e = false ->
  exists st',
    scan_timeout table k st = Return tt st'
    /\ scanning table path st'
         (if overdue t0 (get_prop e "expires")
          then filter (fun p => p.1 <> k) cur else cur)
    /\ emitted (log st')
       = (emitted (log st)
          ++ if overdue t0 (get_prop e "expires")
             then [EvExpires e; EvDelete k table] else [])%list.
Proof.
  intros Hs Ha He. pose proof Hs as (Hr & Hm & Ht & Hd).
  unfold scan_timeout.
  erewrite bind_run by (by apply table_value_own).
  rewrite (own_prop_has_own (VObj cur) k e Ha).
  erewrite bind_run by reflexivity. rewrite frozen.
  erewrite bind_run by (eapply read_expires_run; [exact Hd | exact Ha | exact He]).
  destruct (overdue t0 (get_prop e "expires")) eqn:Eo.
  - match goal with |- context [expire k None ?s] => set (st2 := s) end.
    assert (Hs2 : scanning table path st2 cur) by (repeat split; assumption).
    destruct (expire_run st2 cur k e Hs2 Ha) as (st' & Hrun & Hsc & Hl).
    exists st'. split; [exact Hrun |]. split; [exact Hsc | exact Hl].
  - erewrite bind_run by (eapply read_expires_run; [exact Hd | exact Ha | exact He]).
    erewrite bind_run by reflexivity.
    unfold setTimeout, perform. run.
    eexists. split; [reflexivity |]. split.
    + repeat split; assumption.
    + proj. rewrite emitted_app. reflexivity.
Qed.

Lemma expired_events_ext t Timeouts Timeouts' ks :
  (forall k, k ∈ ks -> own_prop Timeouts' k = own_prop Timeouts k) ->
  expired_events t table Timeouts' ks = expired_events t table Timeouts ks.
Proof.
  unfold expired_events. induction ks as [| k ks IH]; intros Hk; [reflexivity |].
  cbn [flat_map]. rewrite (Hk k) by by left.
  rewrite IH; [reflexivity |]. intros k' Hin. apply Hk. by right.
Qed.

Lemma scan_loop ks : forall st cur,
  scanning table path st cur -> NoDup ks ->
  (forall k, k ∈ ks -> exists e, assoc cur k = Some e /\ nullish e = false) ->
  exists st',
    for_each (scan_timeout table) ks st = Return tt st'
    /\ emitted (log st')
       = (emitted (log st) ++ expired_events t0 table (VObj cur) ks)%list.
Proof.
  induction ks as [| k ks IH]; intros st cur Hs Hnd Hks.
  - exists st. split; [reflexivity |]. cbn. by rewrite app_nil_r.
  - apply NoDup_cons in Hnd as [Hk Hnd].
    destruct (Hks k ltac:(by left)) as (e & Ha & He).
    destruct (scan_timeout_run st cur k e Hs Ha He) as (st1 & Hrun & Hs1 & Hl1).
    set (cur1 := if overdue t0 (get_prop e "expires")
                 then filter (fun p => p.1 <> k) cur else cur) in *.
    assert (Hsame : forall k', k' ∈ ks -> assoc cur1 k' = assoc cur k').
    { intros k' Hin. subst cur1.
      destruct (overdue t0 (get_prop e "expires")); [| reflexivity].
      apply assoc_filter_ne. intros ->. contradiction. }
    destruct (IH st1 cur1 Hs1 Hnd) as (st' & Hrest & Hl').
    { intros k' Hin. rewrite (Hsame k' Hin). apply Hks. by right. }
    exists st'. split.
    + cbn [for_each]. unfold bind. rewrite Hrun. exact Hrest.
    + rewrite Hl', Hl1, <- app_assoc. f_equal.
      rewrite (expired_events_ext _ (VObj cur) (VObj cur1) ks).
      * change (expired_events t0 table (VObj cur) (k :: ks))
          with ((match own_prop (VObj cur) k with
                 | Some entry =>
                     if overdue t0 (get_prop entry "expires")
                     then [EvExpires (Val entry); EvDelete k table]
                     else []
                 | None => []
                 end) ++ expired_events t0 table (VObj cur) ks)%list.
        cbn [own_prop]. by rewrite Ha.
      * intros k' Hin. cbn [own_prop]. by rewrite Hsame.
Qed.
End Scan.

Lemma assoc_elem_of k ps :
  k ∈ ps.*1 -> exists e, assoc ps k = Some e /\ (k, e) ∈ ps.
Proof.
  induction ps as [| [k0 v0] ps IH]; cbn; [by intros ?%elem_of_nil |].
  destruct (decide (k0 = k)) as [-> | Hne].
  - intros _. exists v0. split; [reflexivity | by left].
  - intros [? | Hin]%elem_of_cons; [congruence |].
    destruct (IH Hin) as (e & Ha & He). exists e. split; [exact Ha | by right].
Qed.

Section InitOrder.
Context `{Host}.

Lemma perform_quiet e :
  (forall ev view, e <> Emit ev view) ->
  preserves (keeps (fun st => emitted (log st))) (perform e).
Proof.
  intros He. unfold perform. apply preserves_modify. intros st.
  unfold keeps. proj. rewrite emitted_app.
  destruct e; [by destruct (He e view) | ..]; cbn; by rewrite app_nil_r.
Qed.

Lemma load_tables_quiet :
  preserves (keeps (fun st => emitted (log st))) load_tables.
Proof.
  assert (Hp : forall e, (forall ev view, e <> Emit ev view) ->
                 preserves (keeps (fun st => emitted (log st))) (perform e))
    by apply perform_quiet.
  assert (Hw : forall path doc,
             preserves (keeps (fun st => emitted (log st))) (writeFile path doc)).
  { intros path doc. unfold writeFile. destruct doc; frame; try by apply Hp. }
  assert (Hm : forall p, preserves (keeps (fun st => emitted (log st))) (mkdirSync p)).
  { intros p. unfold mkdirSync. frame; try by apply Hp. }
  unfold load_tables, load_table, existsSync, readFile_parse, assign_mods,
    assign_datas, set_prototype.
  frame.
Qed.

(** C1 (as amended).  The clock stands still while [init] runs, the
    tables load, and the timeouts table is registered and holds an object
    with no [null] entry.  Then [init] completes, and the events it emits
    are: [ready], once and first; then, for each key of the timeouts table
    in enumeration order whose entry has [expires <= now], the [expires]
    event with that entry followed by the [delete] event for that key.
    The overdue entries are expired after [ready], not before. *)
Theorem init_emits_ready_then_expirations t0 st st1 table ps :
  (forall n, Date_now n = t0) ->
  load_tables st = Return tt st1 ->
  holds_timeouts st1 table ps ->
  exists st',
    init st = Return (Fulfilled tt) st'
    /\ emitted (log st')
       = (emitted (log st)
          ++ EvReady :: expired_events t0 table (VObj ps) ps.*1)%list.
Proof.
  intros frozen Hload (Ht & (path & Hm & Hp) & Hd & Hnd & Hnn).
  pose proof (load_tables_quiet st) as Hq. rewrite Hload in Hq.
  unfold keeps in Hq. cbn [final] in Hq.
  set (st2 := with_log (log st1 ++ [Emit EvReady (datas st1)]) (with_ready true st1)).
  assert (Hs2 : scanning table path st2 ps) by (repeat split; done).
  destruct (scan_loop t0 frozen table path Hp ps.*1 st2 ps Hs2 Hnd) as (st' & Hrun & Hl).
  { intros k Hin. destruct (assoc_elem_of _ _ Hin) as (e & Ha & He).
    exists e. split; [exact Ha |].
    rewrite Forall_forall in Hnn. exact (Hnn _ He). }
  exists st'. split.
  - unfold init, async. erewrite bind_run by exact Hload.
    erewrite bind_run by reflexivity. erewrite bind_run by reflexivity.
    unfold scan_timeouts, table_or_timeouts, table_doc.
    erewrite bind_run by reflexivity. erewrite bind_run by reflexivity.
    match goal with
    | |- match ?run with _ => _ end = _ =>
        change run with (for_each
                  (scan_timeout (default "undefined" (timeoutsTable (options st1))))
                  (scanned_keys
                     (datas_get st1
                        (default "undefined" (timeoutsTable (options st1)))))
                  st2)
    end.
    rewrite <- Ht, (datas_get_own _ _ _ Hd).
    change (scanned_keys (Val (VObj ps))) with (ps.*1).
    by rewrite Hrun.
  - rewrite Hl. subst st2. proj. rewrite emitted_app, Hq, <- app_assoc. reflexivity.
Qed.
End InitOrder.

Lemma init_emits_ready_then_expirations_witness :
  let st1 := final (@load_tables simple_host restarted) in
  (forall n, @Date_now simple_host n = 1000)
  /\ @load_tables simple_host restarted = Return tt st1
  /\ holds_timeouts st1 "timeouts" [("a", overdue_entry); ("b", pending_entry)]
  /\ exists st',
       @init simple_host restarted = Return (Fulfilled tt) st'
       /\ emitted (log st')
          = [EvReady; EvExpires overdue_entry; EvDelete "a" "timeouts"].
Proof.
  intros st1.
  assert (Hc : forall n, @Date_now simple_host n = 1000) by reflexivity.
  assert (Hl : @load_tables simple_host restarted = Return tt st1)
    by (vm_compute; reflexivity).
  assert (Hh : holds_timeouts st1 "timeouts" [("a", overdue_entry); ("b", pending_entry)]).
  { split; [reflexivity |]. split.
    - exists "./database/timeouts.json". split; [reflexivity | discriminate].
    - split; [reflexivity |]. split.
      + apply (bool_decide_unpack _). reflexivity.
      + repeat constructor. }
  split; [exact Hc |]. split; [exact Hl |]. split; [exact Hh |].
  destruct (@init_emits_ready_then_expirations simple_host 1000 restarted st1
              "timeouts" _ Hc Hl Hh) as (st' & Hi & He).
  exists st'. split; [exact Hi |]. rewrite He. reflexivity.
Defined.

(** C1, as stated, fails: on a restart with an overdue entry on disk,
    [init] emits [ready] first; the [expires] event of the entry does not
    come before it. *)
Lemma ready_precedes_overdue_expiration :
  let events := emitted (log (final (@init simple_host restarted))) in
  events = [EvReady; EvExpires overdue_entry; EvDelete "a" "timeouts"]
  /\ precedes EvReady (EvExpires overdue_entry) events
  /\ ~ precedes (EvExpires overdue_entry) EvReady events.
Proof.
  intros events.
  assert (He : events = [EvReady; EvExpires overdue_entry; EvDelete "a" "timeouts"])
    by (vm_compute; reflexivity).
  split; [exact He |]. rewrite He. clear He. clearbody events. split.
  - exists 0%nat, 1%nat. repeat split. lia.
  - intros (i & j & Hlt & Hi & Hj).
    destruct j as [| [| [| j]]]; cbn in Hj; try discriminate Hj. lia.
Qed.

(** * Further properties of the methods *)

(** ** Plain keys on an object document *)

Section PlainKeys.
Context `{Host}.

Lemma castPath_plain k doc : plain_key k -> castPath (KStr k) doc = [k].
Proof. unfold plain_key, castPath, isKey. by intros ->. Qed.

Lemma lodash_set_plain ps k v :
  writable_key k -> lodash_set (VObj ps) (KStr k) v = Wrote (VObj (obj_set k v ps)).
Proof.
  intros [Hp Hs]. unfold lodash_set. cbn [nullish isObject negb].
  rewrite (castPath_plain _ _ Hp). cbn [baseSet_walk]. by rewrite Hs.
Qed.

Lemma lodash_get_plain ps k :
  plain_key k -> lodash_get (VObj ps) (KStr k) = Some (get_prop (VObj ps) k).
Proof.
  intros Hp. unfold lodash_get, baseGet. cbn [nullish].
  by rewrite (castPath_plain _ _ Hp).
Qed.

Lemma lodash_has_plain ps k :
  plain_key k -> lodash_has (VObj ps) (KStr k) = bool_decide (is_Some (assoc ps k)).
Proof.
  intros Hp. unfold lodash_has. cbn [nullish negb andb].
  rewrite (castPath_plain _ _ Hp). cbn. by rewrite orb_false_r.
Qed.

Lemma lodash_unset_plain ps k :
  plain_key k ->
  lodash_unset (VObj ps) (KStr k) = Some (VObj (filter (fun p => p.1 <> k) ps)).
Proof.
  intros Hp. by rewrite (lodash_unset_segment _ _ k (castPath_plain _ _ Hp)).
Qed.

Lemma get_prop_obj ps k v : assoc ps k = Some v -> get_prop (VObj ps) k = Val v.
Proof. apply (get_prop_own (VObj ps)). Qed.

(** What an object yields under a name depends on its own property of
    that name only. *)
Lemma get_prop_obj_ext ps ps' k :
  assoc ps' k = assoc ps k -> get_prop (VObj ps') k = get_prop (VObj ps) k.
Proof. unfold get_prop. cbn [own_prop kind_of]. by intros ->. Qed.

(** What an object that does not own the name yields under it. *)
Lemma get_prop_obj_absent ps k :
  assoc ps k = None ->
  get_prop (VObj ps) k = default (Val VUndef) (inherited KObject k).
Proof. unfold get_prop. cbn [own_prop kind_of]. by intros ->. Qed.
End PlainKeys.

Lemma assoc_is_Some_elem k ps : is_Some (assoc ps k) <-> k ∈ ps.*1.
Proof.
  induction ps as [| [k0 v0] ps IH]; cbn.
  - split; [by intros [? ?] | by intros ?%elem_of_nil].
  - destruct (decide (k0 = k)) as [-> | Hk].
    + split; [intros _; by left | by eexists].
    + rewrite IH. split; [by right |].
      intros [? | ?]%elem_of_cons; [congruence | done].
Qed.

Lemma filter_obj_insert_index i k v ps :
  assoc ps k = None ->
  filter (fun p : string * value => p.1 <> k) (obj_insert_index i k v ps) = ps.
Proof.
  induction ps as [| [k0 v0] ps IH]; cbn [obj_insert_index assoc].
  - intros _. by rewrite filter_cons_False by (cbn; tauto).
  - destruct (decide (k0 = k)) as [-> | Hk]; [discriminate |]. intros Ha.
    assert (Hrest : filter (fun p : string * value => p.1 <> k) ((k0, v0) :: ps)
                    = (k0, v0) :: ps).
    { apply filter_absent. cbn [assoc]. by rewrite decide_False by done. }
    destruct (array_index k0) as [j |]; [destruct (j <? i)%nat |].
    + rewrite filter_cons_True by done. by rewrite IH.
    + by rewrite filter_cons_False by (cbn; tauto).
    + by rewrite filter_cons_False by (cbn; tauto).
Qed.

Lemma filter_obj_set k v ps :
  assoc ps k = None ->
  filter (fun p : string * value => p.1 <> k) (obj_set k v ps) = ps.
Proof.
  intros Ha. unfold obj_set. rewrite Ha. destruct (array_index k).
  - by apply filter_obj_insert_index.
  - rewrite filter_app, filter_absent by done.
    rewrite filter_cons_False by (cbn; tauto). by rewrite app_nil_r.
Qed.

(** ** A table as a map from plain keys *)

Section TableAsMap.
Context `{Host}.

Lemma keys_spec st table doc :
  registered st table -> datas st !! table = Some doc ->
  keys (Some table) st
  = if nullish doc then Throw TypeError st
    else Return (enumerable_keys doc) st.
Proof.
  intros Hreg Hdoc. unfold keys, table_or_first, bind, ret.
  rewrite (checkTable_ok _ _ Hreg), (table_value_own _ _ _ Hdoc). unfold throw.
  by destruct (nullish _).
Qed.

Lemma get_plain st table ps k dvalue :
  registered st table -> datas st !! table = Some (VObj ps) -> plain_key k ->
  get (Some table) (KStr k) dvalue st
  = Return (coalesce_result (get_prop (VObj ps) k) dvalue) st.
Proof.
  intros Hreg Hdoc Hk.
  by rewrite (get_spec _ _ _ _ _ Hreg Hdoc), (lodash_get_plain _ _ Hk).
Qed.

Lemma has_plain st table ps k :
  registered st table -> datas st !! table = Some (VObj ps) -> plain_key k ->
  has (Some table) (KStr k) st = Return (bool_decide (is_Some (assoc ps k))) st.
Proof.
  intros Hreg Hdoc Hk.
  by rewrite (has_spec _ _ _ _ Hreg Hdoc), (lodash_has_plain _ _ Hk).
Qed.

Lemma set_plain_spec st table ps k v emit_ :
  registered st table -> datas st !! table = Some (VObj ps) -> writable_key k ->
  exists st',
    set (Some table) (KStr k) v emit_ st = Return v st'
    /\ registered st' table
    /\ datas st' = <[table := VObj (obj_set k (coalesce v VNull) ps)]> (datas st).
Proof.
  intros Hreg Hdoc Hk.
  destruct (set_spec st table _ (KStr k) v emit_ _ Hreg Hdoc
              (lodash_set_plain ps k _ Hk))
    as (st' & Hs & Hd & _ & Hm & Hr & _).
  exists st'. split; [exact Hs |]. split; [by eapply registered_transfer |].
  rewrite Hd. unfold datas_with. by rewrite Hdoc.
Qed.

Lemma delete_plain_spec st table ps k :
  registered st table -> datas st !! table = Some (VObj ps) -> plain_key k ->
  exists st',
    delete (Some table) k st = Return true st'
    /\ registered st' table
    /\ datas st' = <[table := VObj (filter (fun p => p.1 <> k) ps)]> (datas st).
Proof.
  intros Hreg Hdoc Hk.
  destruct (delete_spec st table _ k _ Hreg Hdoc (lodash_unset_plain ps k Hk))
    as (st' & Hs & Hd & _ & Hm & Hr & _).
  exists st'. split; [exact Hs |]. split; [by eapply registered_transfer |].
  exact Hd.
Qed.

(** X1.  On an object document, [set] at a writable plain key stores the
    value (or [null] for [undefined]) under that key and leaves what [get]
    and [has] answer for every other plain key as it was. *)
Theorem set_leaves_other_keys st table ps k v emit_ :
  registered st table -> datas st !! table = Some (VObj ps) -> writable_key k ->
  exists st',
    set (Some table) (KStr k) v emit_ st = Return v st'
    /\ has (Some table) (KStr k) st' = Return true st'
    /\ (forall k' dvalue, plain_key k' -> k' <> k ->
        exists x b,
          get (Some table) (KStr k') dvalue st = Return x st
          /\ get (Some table) (KStr k') dvalue st' = Return x st'
          /\ has (Some table) (KStr k') st = Return b st
          /\ has (Some table) (KStr k') st' = Return b st').
Proof.
  intros Hreg Hdoc Hk.
  destruct (set_plain_spec st table ps k v emit_ Hreg Hdoc Hk)
    as (st' & Hs & Hreg' & Hd).
  assert (Hdoc' : datas st' !! table = Some (VObj (obj_set k (coalesce v VNull) ps)))
    by (rewrite Hd; apply lookup_insert_eq).
  exists st'. split; [exact Hs |]. split.
  - rewrite (has_plain _ _ _ _ Hreg' Hdoc' (proj1 Hk)), assoc_obj_set.
    by rewrite bool_decide_eq_true_2 by by eexists.
  - intros k' dvalue Hk' Hne.
    rewrite (get_plain _ _ _ _ _ Hreg Hdoc Hk'), (get_plain _ _ _ _ _ Hreg' Hdoc' Hk').
    rewrite (has_plain _ _ _ _ Hreg Hdoc Hk'), (has_plain _ _ _ _ Hreg' Hdoc' Hk').
    rewrite assoc_obj_set_ne by done.
    rewrite (get_prop_obj_ext ps (obj_set k (coalesce v VNull) ps) k')
      by (by apply assoc_obj_set_ne).
    eexists _, _. repeat split; reflexivity.
Qed.

(** X2.  On an object document, [delete] of a plain key removes it: [has]
    is false afterwards, [keys] no longer lists it, [get] yields what the
    prototype chain holds under that name, which is the default where the
    chain holds nothing, and what [get] answers for every other plain key
    is as it was. *)
Theorem delete_removes_key st table ps k :
  registered st table -> datas st !! table = Some (VObj ps) -> plain_key k ->
  exists st' ks,
    delete (Some table) k st = Return true st'
    /\ has (Some table) (KStr k) st' = Return false st'
    /\ (forall dvalue,
          get (Some table) (KStr k) dvalue st'
          = Return (coalesce_result (default (Val VUndef) (inherited KObject k))
                      dvalue) st')
    /\ (inherited KObject k = None ->
        forall dvalue, get (Some table) (KStr k) dvalue st' = Return (Val dvalue) st')
    /\ keys (Some table) st' = Return ks st' /\ (k ∉ ks)
    /\ (forall k' dvalue, plain_key k' -> k' <> k ->
        exists x,
          get (Some table) (KStr k') dvalue st = Return x st
          /\ get (Some table) (KStr k') dvalue st' = Return x st').
Proof.
  intros Hreg Hdoc Hk.
  destruct (delete_plain_spec st table ps k Hreg Hdoc Hk) as (st' & Hs & Hreg' & Hd).
  assert (Hdoc' : datas st' !! table = Some (VObj (filter (fun p => p.1 <> k) ps)))
    by (rewrite Hd; apply lookup_insert_eq).
  assert (Hget : forall dvalue,
            get (Some table) (KStr k) dvalue st'
            = Return (coalesce_result (default (Val VUndef) (inherited KObject k))
                        dvalue) st').
  { intros dvalue. rewrite (get_plain _ _ _ _ _ Hreg' Hdoc' Hk).
    by rewrite (get_prop_obj_absent _ _ (assoc_filter_eq k ps)). }
  exists st', (filter (fun p => p.1 <> k) ps).*1.
  split; [exact Hs |]. split; [| split; [| split; [| split; [| split]]]].
  - rewrite (has_plain _ _ _ _ Hreg' Hdoc' Hk), assoc_filter_eq.
    apply f_equal2; [| reflexivity].
    apply bool_decide_eq_false. by intros [? ?].
  - exact Hget.
  - intros Hi dvalue. rewrite Hget, Hi. reflexivity.
  - by rewrite (keys_spec _ _ _ Hreg' Hdoc').
  - rewrite <- assoc_is_Some_elem, assoc_filter_eq. by intros [? ?].
  - intros k' dvalue Hk' Hne.
    rewrite (get_plain _ _ _ _ _ Hreg Hdoc Hk'), (get_plain _ _ _ _ _ Hreg' Hdoc' Hk').
    rewrite (get_prop_obj_ext ps (filter (fun p => p.1 <> k) ps) k')
      by (by apply assoc_filter_ne).
    eexists. split; reflexivity.
Qed.

(** X3.  On an object document that does not hold the plain key yet,
    [set] followed by [delete] of that key gives back the tables as they
    were. *)
Theorem set_then_delete_restores st table ps k v emit_ :
  registered st table -> datas st !! table = Some (VObj ps) -> writable_key k ->
  assoc ps k = None ->
  exists st1 st2,
    set (Some table) (KStr k) v emit_ st = Return v st1
    /\ delete (Some table) k st1 = Return true st2
    /\ datas st2 = datas st.
Proof.
  intros Hreg Hdoc Hk Ha.
  destruct (set_plain_spec st table ps k v emit_ Hreg Hdoc Hk)
    as (st1 & Hs & Hreg1 & Hd1).
  assert (Hdoc1 : datas st1 !! table = Some (VObj (obj_set k (coalesce v VNull) ps)))
    by (rewrite Hd1; apply lookup_insert_eq).
  destruct (delete_plain_spec st1 table _ k Hreg1 Hdoc1 (proj1 Hk))
    as (st2 & Hdel & _ & Hd2).
  exists st1, st2. split; [exact Hs |]. split; [exact Hdel |].
  rewrite Hd2, Hd1, insert_insert_eq, filter_obj_set by done.
  by apply insert_id.
Qed.

(** X4.  On an object document, [keys] after a [set] at a writable plain
    key lists that key and exactly the keys listed before. *)
Theorem keys_after_set st table ps k v emit_ :
  registered st table -> datas st !! table = Some (VObj ps) -> writable_key k ->
  exists st' ks',
    keys (Some table) st = Return ps.*1 st
    /\ set (Some table) (KStr k) v emit_ st = Return v st'
    /\ keys (Some table) st' = Return ks' st'
    /\ (forall x, x ∈ ks' <-> x = k \/ x ∈ ps.*1).
Proof.
  intros Hreg Hdoc Hk.
  destruct (set_plain_spec st table ps k v emit_ Hreg Hdoc Hk)
    as (st' & Hs & Hreg' & Hd).
  assert (Hdoc' : datas st' !! table = Some (VObj (obj_set k (coalesce v VNull) ps)))
    by (rewrite Hd; apply lookup_insert_eq).
  exists st', (obj_set k (coalesce v VNull) ps).*1.
  split; [by rewrite (keys_spec _ _ _ Hreg Hdoc) |].
  split; [exact Hs |].
  split; [by rewrite (keys_spec _ _ _ Hreg' Hdoc') |].
  intros x. rewrite <- !assoc_is_Some_elem.
  destruct (decide (x = k)) as [-> | Hne].
  - rewrite assoc_obj_set. split; [by left | by eexists].
  - rewrite assoc_obj_set_ne by done. split; [by right |].
    intros [? | ?]; [congruence | done].
Qed.
End TableAsMap.

(** ** Persistence *)

Lemma bind_ret {A B} (a : A) (f : A -> M B) : bind (ret a) f = f a.
Proof. reflexivity. Qed.


Lemma lodash_set_defined `{Host} doc k v doc' :
  doc <> VUndef -> lodash_set doc k v = Wrote doc' -> doc' <> VUndef.
Proof.
  intros Hd. unfold lodash_set.
  destruct (nullish doc); [by intros [= <-] |].
  destruct (isObject doc) eqn:Ho; cbn [negb]; [| by intros [= <-]].
  destruct (castPath k doc) as [| s rest]; [by intros [= <-] |].
  destruct (unsafe_key s) eqn:Es.
  - cbn [baseSet_walk]. rewrite Es. by intros [= <-].
  - intros Hw. destruct (baseSet_walk_top _ _ _ _ _ Es Hw) as (c & Ha & _).
    apply isObject_not_undef. by eapply isObject_assignValue.
Qed.

Section Persistence.
Context `{Host}.


Lemma save_started_run st table path doc :
  registered st table -> mods st !! table = Some path ->
  datas st !! table = Some doc -> doc <> VUndef ->
  save_with writeFile_started (Some table) st
  = Return (Fulfilled true) (started path doc st).
Proof.
  intros Hreg Hm Hd Hu. unfold save_with, async, table_or_first.
  rewrite bind_ret. erewrite bind_run by by apply checkTable_ok.
  unfold table_doc, writeFile_started. run.
  rewrite (mods_get_own _ _ _ Hm), (datas_get_own _ _ _ Hd).
  by destruct doc.
Qed.

Lemma autosave_run st table path doc :
  registered st table -> mods st !! table = Some path ->
  datas st !! table = Some doc -> doc <> VUndef ->
  autosave table st
  = Return tt (if decide (autoSave (options st) = Some true)
               then started path doc st else st).
Proof.
  intros Hreg Hm Hd Hu. unfold autosave. unfold bind at 1. unfold gets at 1.
  destruct (autoSave (options st)) as [[] |].
  - rewrite decide_True by done. unfold bind.
    by rewrite (save_started_run _ _ _ _ Hreg Hm Hd Hu).
  - by rewrite decide_False by done.
  - by rewrite decide_False by done.
Qed.

(** The state in which a [set] that lodash carried out leaves the
    store. *)
Lemma set_run st table path doc k v (emit_ : bool) doc' :
  registered st table -> mods st !! table = Some path ->
  datas st !! table = Some doc -> doc <> VUndef ->
  lodash_set doc k (coalesce v VNull) = Wrote doc' ->
  let st1 := with_datas (<[table := doc']> (datas st)) st in
  let st2 := if emit_
             then with_log (log st1 ++ [Emit (EvUpdate k v table) (datas st1)]) st1
             else st1 in
  set (Some table) k v emit_ st
  = Return v (if decide (autoSave (options st) = Some true)
              then started path doc' st2 else st2).
Proof.
  intros Hreg Hm Hd Hu Hset st1 st2.
  pose proof (lodash_set_defined _ _ _ _ Hu Hset) as Hu'.
  unfold set, table_or_first. rewrite bind_ret.
  erewrite bind_run by by apply checkTable_ok.
  erewrite bind_run by by apply table_value_own.
  rewrite Hset.
  erewrite bind_run by by eapply mutated_own.
  fold st1.
  assert (Hreg1 : registered st1 table) by (by eapply registered_transfer).
  assert (Hd1 : datas st1 !! table = Some doc') by apply lookup_insert_eq.
  assert (Hm1 : mods st1 !! table = Some path) by exact Hm.
  destruct emit_.
  - erewrite bind_run by reflexivity. fold st2.
    assert (Hreg2 : registered st2 table) by (by eapply registered_transfer).
    erewrite bind_run by (by apply (autosave_run st2 table path doc')).
    reflexivity.
  - erewrite bind_run by reflexivity.
    erewrite bind_run by (by apply (autosave_run st1 table path doc')).
    reflexivity.
Qed.


(** X7.  A [set] that lodash carries out within the document starts a
    write of the JSON of the new document to the path of the table when
    [autoSave] is [true], and starts no write otherwise.  The [update]
    event, if asked for, is emitted before the write is started, with the
    caller's own value; its subscribers see the new document. *)
Theorem set_persists_iff_autosave st table path doc k v emit_ doc' :
  registered st table -> mods st !! table = Some path ->
  datas st !! table = Some doc -> doc <> VUndef ->
  lodash_set doc k (coalesce v VNull) = Wrote doc' ->
  exists st',
    set (Some table) k v emit_ st = Return v st'
    /\ log st'
       = (log st
          ++ (if emit_
              then [Emit (EvUpdate k v table) (<[table := doc']> (datas st))]
              else [])
          ++ (if decide (autoSave (options st) = Some true)
              then [WriteFile path (to_json doc')] else []))%list.
Proof.
  intros Hreg Hm Hd Hu Hset.
  eexists. split; [by eapply set_run |].
  change (options (with_datas _ st)) with (options st).
  destruct (decide (autoSave (options st) = Some true)), emit_;
    unfold started; proj; rewrite <- ?app_assoc, ?app_nil_r; reflexivity.
Qed.
End Persistence.

(** ** A document that is not an object *)

Section ScalarDocument.
Context `{Host}.

(** X8 (as amended).  When the file of a table holds JSON that is not an
    object or an array (a number, a string, a boolean, [null]), [set]
    returns its argument and emits [update] as usual, but stores nothing:
    the tables are as before, and so is every answer of [has] and of
    [get]; a [get] that went on inside an object of the runtime before
    does so afterwards. *)
Theorem set_on_scalar_document st table doc k v emit_ :
  registered st table -> datas st !! table = Some doc -> isObject doc = false ->
  exists st',
    set (Some table) k v emit_ st = Return v st'
    /\ datas st' = datas st
    /\ emitted (log st')
       = (emitted (log st) ++ if emit_ then [EvUpdate k v table] else [])%list
    /\ (forall k' dvalue,
        (exists b,
           has (Some table) k' st = Return b st
           /\ has (Some table) k' st' = Return b st')
        /\ ((exists x,
               get (Some table) k' dvalue st = Return x st
               /\ get (Some table) k' dvalue st' = Return x st')
            \/ (get (Some table) k' dvalue st = Beyond st
                /\ get (Some table) k' dvalue st' = Beyond st'))).
Proof.
  intros Hreg Hdoc Hobj.
  assert (Hset : lodash_set doc k (coalesce v VNull) = Wrote doc).
  { unfold lodash_set. destruct (nullish doc); [reflexivity |]. by rewrite Hobj. }
  destruct (set_spec st table doc k v emit_ doc Hreg Hdoc Hset)
    as (st' & Hs & Hd & _ & Hm & Hr & _ & _ & writes & Hl & Hw).
  assert (Hd' : datas st' = datas st).
  { rewrite Hd. unfold datas_with. rewrite Hdoc. by apply insert_id. }
  assert (Hreg' : registered st' table) by (by eapply registered_transfer).
  assert (Hdoc' : datas st' !! table = Some doc) by (by rewrite Hd').
  exists st'. split; [exact Hs |]. split; [exact Hd' |]. split.
  - rewrite Hl, !emitted_app, Hw, app_nil_r. by destruct emit_.
  - intros k' dvalue.
    rewrite (get_spec _ _ _ _ _ Hreg Hdoc), (get_spec _ _ _ _ _ Hreg' Hdoc').
    rewrite (has_spec _ _ _ _ Hreg Hdoc), (has_spec _ _ _ _ Hreg' Hdoc').
    split; [by eexists |].
    destruct (lodash_get doc k'); [left; by eexists | by right].
Qed.
End ScalarDocument.

(** ** The options in force, continued *)

Lemma merge_tables_nil src : merge_tables [] src = src.
Proof. induction src as [| s src IH]; [reflexivity |]. cbn. by rewrite IH. Qed.

Lemma merge_Table_src o s : merge_Table o s = s.
Proof. by destruct s. Qed.

Lemma merge_tables_absorb d : forall o,
  merge_tables d (merge_tables o d) = merge_tables o d.
Proof.
  induction d as [| s d IH]; intros o.
  - destruct o; cbn; [reflexivity |]. by rewrite merge_tables_nil.
  - destruct o as [| x o]; cbn [merge_tables]; rewrite !merge_Table_src, IH;
      reflexivity.
Qed.

Lemma merge_tables_idem l : merge_tables l l = l.
Proof.
  induction l as [| s l IH]; [reflexivity |].
  cbn [merge_tables]. by rewrite merge_Table_src, IH.
Qed.

Lemma merge_absorb d o : merge d (merge o d) = merge o d.
Proof.
  destruct d as [dt da dl dm], o as [ot oa ol om]. unfold merge. cbn.
  f_equal.
  - by destruct dt, ot.
  - by destruct da, oa.
  - destruct dl as [dl |]; cbn.
    + by rewrite merge_tables_absorb.
    + destruct ol as [ol |]; cbn; [| reflexivity]. by rewrite merge_tables_nil.
  - by destruct dm, om.
Qed.

Lemma merge_idem o : merge o o = o.
Proof.
  destruct o as [t a l m]. unfold merge. cbn. f_equal.
  - by destruct t.
  - by destruct a.
  - destruct l as [l |]; cbn; [| reflexivity]. by rewrite merge_tables_idem.
  - by destruct m.
Qed.

Section OptionsInForce.
Context `{Host}.

Lemma init_rest_defaults : preserves (keeps defaults) init_rest.
Proof.
  unfold init_rest, emit.
  pose proof load_table_defaults.
  assert (preserves (keeps defaults) scan_timeouts).
  { intros st. pose proof (scan_timeouts_config st) as Hc.
    unfold keeps, config in *. congruence. }
  frame.
Qed.

Lemma init_defaults st :
  defaults (final (init st)) = merge (defaults st) (options st).
Proof.
  rewrite init_unfold, final_async.
  match goal with |- context [init_rest ?s] => rewrite (init_rest_defaults s) end.
  reflexivity.
Qed.

(** X9.  [init] leaves the options of a constructed store as the
    constructor made them, whether it succeeds or not, and it overwrites
    the module-level defaults with them: a store constructed afterwards
    without options gets the options of the first one. *)
Theorem init_publishes_options world opts :
  let st := constructor world opts in
  options (final (init st)) = options st
  /\ defaults (final (init st)) = options st
  /\ options (constructor (final (init st)) None) = options st.
Proof.
  intros st.
  assert (Ho : merge (defaults st) (options st) = options st).
  { subst st. unfold constructor. proj. apply merge_absorb. }
  split; [by rewrite init_options |].
  split; [by rewrite init_defaults |].
  unfold constructor at 1. proj. cbn [default id].
  rewrite init_defaults, Ho. apply merge_idem.
Qed.

Lemma first_table_main st fs ds opts :
  options st = options (constructor (world fs ds) opts) ->
  first_table st = Return "main" st
  /\ timeoutsTable (options st) = Some "timeouts".
Proof.
  intros Ho. unfold first_table, bind, gets. rewrite Ho.
  unfold constructor, world. proj. cbn.
  destruct opts as [o |]; cbn; [| by split].
  destruct (tables o) as [[| T ts] |]; by split.
Qed.

(** X10.  On a store with the options a constructor call produced,
    whatever options the caller passed, a call that leaves out the table
    is the call on the table ["main"], and for the timeout methods the call
    on the table ["timeouts"]. *)
Theorem omitted_table_is_main st fs ds opts k v emit_ dvalue predicate force
    id time :
  options st = options (constructor (world fs ds) opts) ->
  set None k v emit_ st = set (Some "main") k v emit_ st
  /\ get None k dvalue st = get (Some "main") k dvalue st
  /\ has None k st = has (Some "main") k st
  /\ keys None st = keys (Some "main") st
  /\ data None st = data (Some "main") st
  /\ delete None id st = delete (Some "main") id st
  /\ edit None k predicate force emit_ st
     = edit (Some "main") k predicate force emit_ st
  /\ save None st = save (Some "main") st
  /\ timeout v time (Some id) None st = timeout v time (Some id) (Some "timeouts") st
  /\ expire id None st = expire id (Some "timeouts") st.
Proof.
  intros Ho. destruct (first_table_main st fs ds opts Ho) as [Hf Ht].
  unfold set, get, has, keys, data, delete, edit, save, save_with, async, timeout, expire,
    table_or_first, table_or_timeouts.
  rewrite !bind_ret.
  assert (Hb : forall B (f : string -> M B), bind first_table f st = f "main" st)
    by (intros B f; by apply bind_run).
  assert (Hg : forall B (f : string -> M B),
             bind (gets (fun st => default "undefined" (timeoutsTable (options st))))
               f st = f "timeouts" st).
  { intros B f. apply bind_run. unfold gets. by rewrite Ht. }
  rewrite !Hb, !Hg.
  repeat split; reflexivity.
Qed.
End OptionsInForce.

(** ** [init]: loading the tables *)

Lemma grown_refl fs : grown fs fs.
Proof. intros p. by left. Qed.

Lemma grown_trans a b c : grown a b -> grown b c -> grown a c.
Proof.
  intros Hab Hbc p. destruct (Hbc p) as [Hc | [Hb Hc]], (Hab p) as [Hb' | [Ha Hb']].
  - left. congruence.
  - right. split; congruence.
  - right. split; congruence.
  - congruence.
Qed.

Lemma file_doc_grown fs fs' p : grown fs fs' -> file_doc fs' p = file_doc fs p.
Proof.
  intros Hg. unfold file_doc. destruct (Hg p) as [-> | [-> ->]]; reflexivity.
Qed.

Lemma for_each_app {A} (body : A -> M unit) l1 l2 st :
  for_each body (l1 ++ l2) st = bind (for_each body l1) (fun _ => for_each body l2) st.
Proof.
  revert st. induction l1 as [| a l1 IH]; intros st; [reflexivity |].
  cbn [for_each app]. unfold bind. destruct (body a st); [| reflexivity ..].
  rewrite IH. reflexivity.
Qed.

Lemma assign_mods_keeps `{Host} {A} (f : DataBase -> A) n p st :
  (forall m s, f (with_mods m s) = f s) -> f (assign_mods n p st) = f st.
Proof. intros Hf. unfold assign_mods. by destruct (_ && _). Qed.

Lemma assign_datas_keeps `{Host} {A} (f : DataBase -> A) n d st :
  (forall m s, f (with_datas m s) = f s) ->
  (forall q s, f (with_datas_proto q s) = f s) ->
  f (assign_datas n d st) = f st.
Proof.
  intros Hf Hg. unfold assign_datas, set_prototype.
  destruct (_ && _); [| apply Hf]. by destruct d.
Qed.

Lemma assign_mods_ext `{Host} n p s1 s2 :
  mods s1 = mods s2 -> mods (assign_mods n p s1) = mods (assign_mods n p s2).
Proof. intros Hm. unfold assign_mods. rewrite Hm. by destruct (_ && _); cbn; rewrite ?Hm. Qed.

Lemma assign_datas_ext `{Host} n d s1 s2 :
  datas s1 = datas s2 -> datas_proto s1 = datas_proto s2 ->
  datas (assign_datas n d s1) = datas (assign_datas n d s2)
  /\ datas_proto (assign_datas n d s1) = datas_proto (assign_datas n d s2).
Proof.
  intros Hd Hp. unfold assign_datas, reaches_accessor, set_prototype.
  rewrite Hd, Hp. destruct (_ && _); [| by cbn; rewrite ?Hd, ?Hp].
  by destruct d; cbn; rewrite ?Hd, ?Hp.
Qed.

Lemma assign_mods_other `{Host} n0 p st n :
  n <> n0 -> mods (assign_mods n0 p st) !! n = mods st !! n.
Proof.
  intros Hne. unfold assign_mods. destruct (_ && _); [reflexivity |].
  cbn. by apply lookup_insert_ne.
Qed.

Lemma assign_datas_other `{Host} n0 d st n :
  n <> n0 -> datas (assign_datas n0 d st) !! n = datas st !! n.
Proof.
  intros Hne. unfold assign_datas, set_prototype.
  destruct (_ && _); [by destruct d |]. cbn. by apply lookup_insert_ne.
Qed.

Lemma assign_mods_named `{Host} n p st :
  n <> "__proto__" -> assign_mods n p st = with_mods (<[n := p]> (mods st)) st.
Proof. intros Hn. unfold assign_mods. by rewrite (bool_decide_eq_false_2 _ Hn). Qed.

Lemma assign_datas_named `{Host} n d st :
  n <> "__proto__" -> assign_datas n d st = with_datas (<[n := d]> (datas st)) st.
Proof. intros Hn. unfold assign_datas. by rewrite (bool_decide_eq_false_2 _ Hn). Qed.

Section Loading.
Context `{Host}.

(** The steps of the loop body up to the reading of the file. *)
Lemma load_table_steps st T dir :
  mod_dir (options st) = Some dir ->
  (files st !! path_join dir (file_mod T) = None ->
   (path_join dir (file_mod T) ∉ dirs st) /\ path_join dir (file_mod T) <> dir) ->
  exists st1,
    load_table T st
    = bind (readFile_parse (path_join dir (file_mod T)))
        (fun doc => modify (assign_datas (name T) doc)) st1
    /\ options st1 = options st /\ ready st1 = ready st
    /\ mods st1 = mods (assign_mods (name T) (path_join dir (file_mod T)) st)
    /\ datas st1 = datas st /\ datas_proto st1 = datas_proto st
    /\ files st1
       = match files st !! path_join dir (file_mod T) with
         | Some _ => files st
         | None => <[path_join dir (file_mod T) := Json (VObj [])]> (files st)
         end
    /\ dirs st1 ⊆ {[dir]} ∪ dirs st
    /\ emitted (log st1) = emitted (log st).
Proof.
  intros Hdir Hp. set (p := path_join dir (file_mod T)) in *.
  unfold load_table. erewrite bind_run by reflexivity. rewrite Hdir. fold p.
  erewrite bind_run by reflexivity.
  set (sta := if bool_decide (is_Some (files st !! dir)) || bool_decide (dir ∈ dirs st)
              then st
              else with_dirs ({[dir]} ∪ dirs st)
                     (with_log (log st ++ [MkDir dir]) st)).
  assert (Ha : (if bool_decide (is_Some (files st !! dir))
                   || bool_decide (dir ∈ dirs st)
                then ret tt else mkdirSync dir) st = Return tt sta).
  { unfold sta. by destruct (_ || _). }
  erewrite bind_run by exact Ha.
  assert (Hsta : options sta = options st /\ ready sta = ready st
                 /\ mods sta = mods st /\ datas sta = datas st
                 /\ datas_proto sta = datas_proto st /\ files sta = files st
                 /\ dirs sta ⊆ {[dir]} ∪ dirs st
                 /\ emitted (log sta) = emitted (log st)).
  { unfold sta. destruct (_ || _); proj; repeat split; try reflexivity.
    - intros q Hq. apply elem_of_union. by right.
    - rewrite emitted_app. cbn. by rewrite app_nil_r. }
  destruct Hsta as (Ho & Hr & Hm & Hd & Hdp & Hf & Hdirs & Hl).
  erewrite bind_run by reflexivity.
  set (stb := assign_mods (name T) p sta).
  assert (Hfb : files stb = files st).
  { unfold stb. by rewrite (assign_mods_keeps files) by reflexivity. }
  assert (Hpb : bool_decide (is_Some (files stb !! p)) || bool_decide (p ∈ dirs stb)
                = bool_decide (is_Some (files st !! p))).
  { rewrite Hfb. destruct (files st !! p) as [f |] eqn:Ef.
    - by rewrite bool_decide_eq_true_2 by by eexists.
    - destruct (Hp eq_refl) as [Hnd Hne].
      rewrite (bool_decide_eq_false_2 (p ∈ dirs stb)); [apply orb_false_r |].
      unfold stb. rewrite (assign_mods_keeps dirs) by reflexivity.
      intros Hin. apply Hdirs in Hin.
      rewrite elem_of_union, elem_of_singleton in Hin. tauto. }
  unfold existsSync at 1. erewrite bind_run by reflexivity.
  rewrite Hpb.
  set (stc := match files st !! p with
              | Some _ => stb
              | None => with_files (<[p := Json (VObj [])]> (files stb))
                          (with_log (log stb ++ [WriteFile p (VObj [])]) stb)
              end).
  assert (Hc : (if bool_decide (is_Some (files st !! p))
                then ret tt else writeFile p (VObj [])) stb = Return tt stc).
  { unfold stc. destruct (files st !! p) as [f |].
    - by rewrite bool_decide_eq_true_2 by by eexists.
    - by rewrite bool_decide_eq_false_2 by by intros [? ?]. }
  erewrite bind_run by exact Hc.
  exists stc. split; [reflexivity |].
  unfold stc, stb.
  destruct (files st !! p) as [f |]; proj;
    rewrite ?(assign_mods_keeps options), ?(assign_mods_keeps ready),
      ?(assign_mods_keeps datas), ?(assign_mods_keeps datas_proto),
      ?(assign_mods_keeps files), ?(assign_mods_keeps dirs),
      ?(assign_mods_keeps log) by reflexivity.
  - repeat split; try assumption. by apply assign_mods_ext.
  - repeat split; try assumption; [by apply assign_mods_ext | by rewrite Hf |].
    rewrite emitted_app. cbn. by rewrite app_nil_r.
Qed.

Lemma load_table_run st T dir :
  mod_dir (options st) = Some dir -> loadable st dir T ->
  exists st',
    load_table T st = Return tt st'
    /\ options st' = options st /\ ready st' = ready st
    /\ mods st' = mods (assign_mods (name T) (path_join dir (file_mod T)) st)
    /\ datas st'
       = datas (assign_datas (name T)
                  (file_doc (files st) (path_join dir (file_mod T))) st)
    /\ files st'
       = <[path_join dir (file_mod T)
             := Json (file_doc (files st) (path_join dir (file_mod T)))]> (files st)
    /\ dirs st' ⊆ {[dir]} ∪ dirs st.
Proof.
  intros Hdir (Hnd & Hne & Hng).
  destruct (load_table_steps st T dir Hdir ltac:(done))
    as (st1 & -> & Ho & Hr & Hm & Hd & Hdp & Hf & Hdirs & _).
  set (p := path_join dir (file_mod T)) in *.
  assert (Hread : readFile_parse p st1 = Return (file_doc (files st) p) st1).
  { unfold readFile_parse, bind, gets, ret, file_doc. rewrite Hf.
    destruct (files st !! p) as [[v |] |] eqn:Ef; rewrite ?Ef, ?lookup_insert_eq;
      [reflexivity | done | reflexivity]. }
  erewrite bind_run by exact Hread.
  eexists. split; [reflexivity |].
  rewrite (assign_datas_keeps options), (assign_datas_keeps ready),
    (assign_datas_keeps mods), (assign_datas_keeps files),
    (assign_datas_keeps dirs) by reflexivity.
  repeat split; try assumption.
  - by apply assign_datas_ext.
  - rewrite Hf. unfold file_doc.
    destruct (files st !! p) as [[v |] |] eqn:Ef; [| done | reflexivity].
    by rewrite insert_id.
Qed.

Lemma load_table_garbage st T dir :
  mod_dir (options st) = Some dir ->
  files st !! path_join dir (file_mod T) = Some Garbage ->
  exists st',
    load_table T st = Throw SyntaxError st'
    /\ ready st' = ready st /\ datas st' = datas st
    /\ mods st' = mods (assign_mods (name T) (path_join dir (file_mod T)) st)
    /\ emitted (log st') = emitted (log st).
Proof.
  intros Hdir Hg.
  destruct (load_table_steps st T dir Hdir ltac:(congruence))
    as (st1 & -> & Ho & Hr & Hm & Hd & Hdp & Hf & Hdirs & Hl).
  rewrite Hg in Hf.
  exists st1. split; [| by repeat split].
  unfold readFile_parse, bind, gets. by rewrite Hf, Hg.
Qed.

Lemma loadable_later st st' dir T :
  dirs st' ⊆ {[dir]} ∪ dirs st -> grown (files st) (files st') ->
  loadable st dir T -> loadable st' dir T.
Proof.
  intros Hd Hg (Hnd & Hne & Hng). split; [| split; [exact Hne |]].
  - intros Hin. apply Hd in Hin.
    rewrite elem_of_union, elem_of_singleton in Hin. tauto.
  - destruct (Hg (path_join dir (file_mod T))) as [-> | [_ ->]]; [exact Hng | done].
Qed.

Lemma load_loop dir ts : forall st,
  mod_dir (options st) = Some dir ->
  (forall T, T ∈ ts -> loadable st dir T) ->
  exists st',
    for_each load_table ts st = Return tt st'
    /\ options st' = options st /\ ready st' = ready st
    /\ dirs st' ⊆ {[dir]} ∪ dirs st
    /\ grown (files st) (files st')
    /\ (forall n, n ∉ name <$> ts ->
        mods st' !! n = mods st !! n /\ datas st' !! n = datas st !! n)
    /\ (forall l1 T l2, ts = (l1 ++ T :: l2)%list -> name T ∉ name <$> l2 ->
        name T <> "__proto__" ->
        mods st' !! name T = Some (path_join dir (file_mod T))
        /\ datas st' !! name T
           = Some (file_doc (files st) (path_join dir (file_mod T))))
    /\ (forall T, T ∈ ts ->
        files st' !! path_join dir (file_mod T)
        = Some (Json (file_doc (files st) (path_join dir (file_mod T))))).
Proof.
  induction ts as [| T0 ts IH]; intros st Hdir Hok.
  - exists st. split; [reflexivity |]. split; [reflexivity |].
    split; [reflexivity |]. split; [set_solver |]. split; [apply grown_refl |].
    split; [done |]. split.
    + intros l1 T l2 Hnil. by destruct l1.
    + by intros T ?%elem_of_nil.
  - destruct (load_table_run st T0 dir Hdir (Hok T0 ltac:(by left)))
      as (st1 & Hrun & Ho1 & Hr1 & Hm1 & Hd1 & Hf1 & Hdirs1).
    assert (Hg1 : grown (files st) (files st1)).
    { intros q. rewrite Hf1.
      destruct (decide (q = path_join dir (file_mod T0))) as [-> | Hq].
      - rewrite lookup_insert_eq. unfold file_doc.
        destruct (Hok T0 ltac:(by left)) as (_ & _ & Hng).
        destruct (files st !! path_join dir (file_mod T0)) as [[v |] |];
          [by left | done | by right].
      - left. by apply lookup_insert_ne. }
    destruct (IH st1) as (st' & Hrest & Ho & Hr & Hdirs & Hg & Hout & Hin & Hfiles).
    { congruence. }
    { intros T HT. eapply loadable_later; [exact Hdirs1 | exact Hg1 |].
      apply Hok. by right. }
    exists st'. split; [cbn [for_each]; by erewrite bind_run by exact Hrun |].
    split; [congruence |]. split; [congruence |].
    split.
    { intros q Hq. apply Hdirs in Hq. apply elem_of_union in Hq as [Hq | Hq];
        [apply elem_of_union; by left | by apply Hdirs1]. }
    split; [by eapply grown_trans |].
    split; [| split].
    + intros n Hn. rewrite fmap_cons, not_elem_of_cons in Hn. destruct Hn as [Hn0 Hn].
      destruct (Hout n Hn) as [-> ->]. rewrite Hm1, Hd1.
      by rewrite assign_mods_other, assign_datas_other by done.
    + intros l1 T l2 Heq Hlast Hproto. destruct l1 as [| T1 l1]; cbn in Heq.
      * injection Heq as <- <-. destruct (Hout (name T0) Hlast) as [-> ->].
        rewrite Hm1, Hd1, assign_mods_named, assign_datas_named by done.
        cbn. by rewrite !lookup_insert_eq.
      * injection Heq as <- ->.
        destruct (Hin l1 T l2 eq_refl Hlast Hproto) as [-> ->].
        by rewrite (file_doc_grown _ _ _ Hg1).
    + intros T [-> | HT]%elem_of_cons.
      * destruct (Hg (path_join dir (file_mod T0))) as [-> | [Hnone _]].
        -- rewrite Hf1. apply lookup_insert_eq.
        -- rewrite Hf1, lookup_insert_eq in Hnone. discriminate.
      * rewrite (Hfiles T HT). by rewrite (file_doc_grown _ _ _ Hg1).
Qed.

(** X11.  The loop of [init] over the configured tables.  When no table
    file is malformed or a directory, it completes; every table whose name
    is not [__proto__] is then registered under its path below the
    directory of the store and holds what its file held, or the empty
    object when there was no file, in which case the file now exists and
    holds the empty object.  Where two tables share a name the last one
    wins.  No existing file is changed, and names that are not configured
    get no own entry. *)
Theorem load_tables_registers st ts dir :
  tables (merge (defaults st) (options st)) = Some ts ->
  mod_dir (merge (defaults st) (options st)) = Some dir ->
  (forall T, T ∈ ts -> loadable st dir T) ->
  exists st',
    load_tables st = Return tt st'
    /\ (forall l1 T l2, ts = (l1 ++ T :: l2)%list -> name T ∉ name <$> l2 ->
        name T <> "__proto__" ->
        mods st' !! name T = Some (path_join dir (file_mod T))
        /\ datas st' !! name T
           = Some (file_doc (files st) (path_join dir (file_mod T))))
    /\ (forall T, T ∈ ts ->
        files st' !! path_join dir (file_mod T)
        = Some (Json (file_doc (files st) (path_join dir (file_mod T)))))
    /\ (forall q, is_Some (files st !! q) -> files st' !! q = files st !! q)
    /\ (forall n, n ∉ name <$> ts ->
        mods st' !! n = mods st !! n /\ datas st' !! n = datas st !! n).
Proof.
  intros Hts Hdir Hok.
  set (o := merge (defaults st) (options st)) in *.
  set (st0 := with_options o (with_defaults o st)).
  destruct (load_loop dir ts st0 Hdir Hok)
    as (st' & Hrun & _ & _ & _ & Hg & Hout & Hin & Hfiles).
  exists st'. split.
  - unfold load_tables. erewrite bind_run by reflexivity.
    erewrite bind_run by reflexivity. proj. fold o. rewrite Hts. exact Hrun.
  - split; [exact Hin |]. split; [exact Hfiles |]. split; [| exact Hout].
    intros q [f Hq]. destruct (Hg q) as [Hsame | [Hnone _]]; [exact Hsame |].
    cbn in Hnone. congruence.
Qed.

(** X12.  When the file of a configured table does not parse, and the
    tables before it load, [init] does not throw: the promise it returns
    is rejected with the syntax error.  The store is then no more ready
    than it was, no event was emitted, and the tables configured after the
    failing one were not looked at. *)
Theorem init_rejects_malformed_file st l1 T l2 dir :
  tables (merge (defaults st) (options st)) = Some (l1 ++ T :: l2)%list ->
  mod_dir (merge (defaults st) (options st)) = Some dir ->
  (forall T', T' ∈ l1 -> loadable st dir T') ->
  files st !! path_join dir (file_mod T) = Some Garbage ->
  exists st',
    init st = Return (Rejected SyntaxError) st'
    /\ ready st' = ready st
    /\ emitted (log st') = emitted (log st)
    /\ (forall n, n ∉ name <$> (l1 ++ [T])%list ->
        mods st' !! n = mods st !! n /\ datas st' !! n = datas st !! n).
Proof.
  intros Hts Hdir Hok Hbad.
  set (o := merge (defaults st) (options st)) in *.
  set (st0 := with_options o (with_defaults o st)).
  destruct (load_loop dir l1 st0 Hdir Hok)
    as (st1 & Hrun & Ho1 & Hr1 & Hdirs1 & Hg & Hout & _ & _).
  assert (Hbad1 : files st1 !! path_join dir (file_mod T) = Some Garbage).
  { destruct (Hg (path_join dir (file_mod T))) as [-> | [Hnone _]]; [exact Hbad |].
    cbn in Hnone. congruence. }
  destruct (load_table_garbage st1 T dir) as (st' & Hthrow & Hr & Hd & Hm & _);
    [by rewrite Ho1 | exact Hbad1 |].
  assert (Hload : load_tables st = Throw SyntaxError st').
  { unfold load_tables. erewrite bind_run by reflexivity.
    erewrite bind_run by reflexivity. proj. fold o. rewrite Hts.
    rewrite for_each_app. erewrite bind_run by exact Hrun.
    cbn [for_each]. unfold bind. by rewrite Hthrow. }
  exists st'. split; [| split; [| split]].
  - unfold init, async, bind. by rewrite Hload.
  - by rewrite Hr, Hr1.
  - pose proof (load_tables_quiet st) as Hq. rewrite Hload in Hq. exact Hq.
  - intros n Hn. rewrite fmap_app, not_elem_of_app in Hn. destruct Hn as [Hn1 Hn2].
    cbn in Hn2. rewrite not_elem_of_cons in Hn2. destruct Hn2 as [Hn2 _].
    destruct (Hout n Hn1) as [Hmn Hdn].
    rewrite Hm, Hd, assign_mods_other by done. by rewrite Hmn, Hdn.
Qed.
End Loading.

(** ** [init]: what the scan leaves behind *)

Lemma assoc_app l1 l2 k :
  assoc (l1 ++ l2) k = match assoc l1 k with Some v => Some v | None => assoc l2 k end.
Proof.
  induction l1 as [| [k' v'] l1 IH]; [reflexivity |].
  cbn [assoc app]. by destruct (decide (k' = k)).
Qed.

Lemma assoc_not_elem k ps : k ∉ ps.*1 -> assoc ps k = None.
Proof.
  intros Hk. destruct (assoc ps k) eqn:Ea; [| reflexivity].
  exfalso. apply Hk, assoc_is_Some_elem. by eexists.
Qed.

Section ScanState.
Context `{Host}.
Context (t0 : Z) (frozen : forall n, Date_now n = t0).
Context (table path : string) (path_ok : path <> "").

Lemma expire_timers tid tb : preserves (keeps timers) (expire tid tb).
Proof.
  unfold expire, delete, emit, autosave, save_with, writeFile_started, perform.
  frame.
Qed.

Lemma scan_timeout_state st cur k e :
  scanning table path st cur -> assoc cur k = Some e -> nullish e = false ->
  exists st',
    scan_timeout table k st = Return tt st'
    /\ scanning table path st'
         (if overdue t0 (get_prop e "expires")
          then filter (fun p => p.1 <> k) cur else cur)
    /\ timers st'
       = (timers st
          ++ if overdue t0 (get_prop e "expires") then []
             else [(k, remaining (get_prop e "expires") t0)])%list.
Proof.
  intros Hs Ha He. pose proof Hs as (Hr & Hm & Ht & Hd).
  unfold scan_timeout.
  erewrite bind_run by (by apply table_value_own).
  rewrite (own_prop_has_own (VObj cur) k e Ha).
  erewrite bind_run by reflexivity. rewrite frozen.
  erewrite bind_run by (eapply read_expires_run; [exact Hd | exact Ha | exact He]).
  destruct (overdue t0 (get_prop e "expires")) eqn:Eo.
  - match goal with |- context [expire k None ?s] => set (st2 := s) end.
    assert (Hs2 : scanning table path st2 cur) by (repeat split; assumption).
    destruct (expire_run table path path_ok st2 cur k e Hs2 Ha) as (st' & Hrun & Hsc & _).
    exists st'. split; [exact Hrun |]. split; [exact Hsc |].
    pose proof (expire_timers k None st2) as Hk. rewrite Hrun in Hk.
    rewrite app_nil_r. exact Hk.
  - erewrite bind_run by (eapply read_expires_run; [exact Hd | exact Ha | exact He]).
    erewrite bind_run by reflexivity. rewrite frozen.
    unfold setTimeout, perform. run.
    eexists. split; [reflexivity |]. split; [repeat split; assumption |].
    reflexivity.
Qed.

Lemma scan_loop_state todo : forall kept st,
  scanning table path st (kept ++ todo)%list ->
  NoDup ((kept ++ todo)%list).*1 ->
  Forall (fun p => nullish p.2 = false) todo ->
  exists st',
    for_each (scan_timeout table) todo.*1 st = Return tt st'
    /\ scanning table path st' (kept ++ filter (pending t0) todo)%list
    /\ timers st' = (timers st ++ (timer_of t0 <$> filter (pending t0) todo))%list.
Proof.
  induction todo as [| [k e] todo IH]; intros kept st Hs Hnd Hnn.
  - exists st. split; [reflexivity |]. split; [exact Hs |]. by rewrite app_nil_r.
  - apply Forall_cons in Hnn as [He Hnn]. cbn [snd] in He.
    rewrite fmap_app, fmap_cons in Hnd. cbn [fst] in Hnd.
    apply NoDup_app in Hnd as (Hnd1 & Hcross & Hnd2).
    apply NoDup_cons in Hnd2 as [Hk Hnd2].
    assert (Hkd : k ∉ kept.*1) by (intros Hin; apply (Hcross k Hin); by left).
    assert (Ha : assoc (kept ++ (k, e) :: todo)%list k = Some e).
    { rewrite assoc_app, (assoc_not_elem _ _ Hkd). cbn [assoc].
      by rewrite decide_True. }
    destruct (scan_timeout_state st _ k e Hs Ha He) as (st1 & Hrun & Hs1 & Ht1).
    destruct (overdue t0 (get_prop e "expires")) eqn:Eo.
    + assert (Hcur : filter (fun p : string * value => p.1 <> k) (kept ++ (k, e) :: todo)%list
                     = (kept ++ todo)%list).
      { rewrite filter_app, filter_cons_False by (cbn; tauto).
        rewrite !filter_absent by by apply assoc_not_elem. reflexivity. }
      rewrite Hcur in Hs1.
      destruct (IH kept st1 Hs1) as (st' & Hrest & Hs' & Ht'); [| exact Hnn |].
      { rewrite fmap_app. apply NoDup_app. split; [exact Hnd1 |].
        split; [| exact Hnd2]. intros x Hx Hx'. apply (Hcross x Hx). by right. }
      exists st'. split; [cbn [for_each fmap list_fmap fst]; by erewrite bind_run by exact Hrun |].
      rewrite filter_cons_False by (unfold pending; cbn [snd]; congruence).
      split; [exact Hs' |]. by rewrite Ht', Ht1, app_nil_r.
    + assert (Hs1' : scanning table path st1 ((kept ++ [(k, e)]) ++ todo)%list)
        by (by rewrite <- app_assoc).
      destruct (IH (kept ++ [(k, e)])%list st1 Hs1') as (st' & Hrest & Hs' & Ht');
        [| exact Hnn |].
      { rewrite <- app_assoc. cbn [app]. rewrite fmap_app, fmap_cons. cbn [fst].
        apply NoDup_app. split; [exact Hnd1 |]. split; [exact Hcross |].
        by apply NoDup_cons. }
      exists st'. split; [cbn [for_each fmap list_fmap fst]; by erewrite bind_run by exact Hrun |].
      rewrite filter_cons_True by (unfold pending; cbn [snd]; exact Eo).
      rewrite <- app_assoc in Hs'. split; [exact Hs' |].
      rewrite Ht', Ht1, <- app_assoc. reflexivity.
Qed.
End ScanState.

Section InitScan.
Context `{Host}.

Lemma load_tables_timers : preserves (keeps timers) load_tables.
Proof.
  unfold load_tables, load_table, existsSync, mkdirSync, writeFile,
    readFile_parse, perform, assign_mods, assign_datas, set_prototype.
  frame.
Qed.

(** X13.  The clock stands still while [init] runs, the tables load, and
    the timeouts table is registered and holds an object with no [null]
    entry.  Then [init] completes with the store ready; the timeouts table
    holds the entries that are not overdue, in their order, and one timer
    was registered for each of them, in that order, after the timers that
    were pending, its delay the time the entry has left: the difference
    of [expires] and the clock as the language rounds it, and no number
    where [expires] is none. *)
Theorem init_scan_outcome t0 st st1 table ps :
  (forall n, Date_now n = t0) ->
  load_tables st = Return tt st1 ->
  holds_timeouts st1 table ps ->
  exists st',
    init st = Return (Fulfilled tt) st'
    /\ ready st' = true
    /\ datas st' !! table = Some (VObj (filter (pending t0) ps))
    /\ timers st' = (timers st ++ (timer_of t0 <$> filter (pending t0) ps))%list.
Proof.
  intros frozen Hload (Ht & (path & Hm & Hp) & Hd & Hnd & Hnn).
  pose proof (load_tables_timers st) as Hq. rewrite Hload in Hq.
  unfold keeps in Hq. cbn [final] in Hq.
  set (st2 := with_log (log st1 ++ [Emit EvReady (datas st1)]) (with_ready true st1)).
  assert (Hs2 : scanning table path st2 ([] ++ ps)%list) by (repeat split; done).
  destruct (scan_loop_state t0 frozen table path Hp ps [] st2 Hs2 Hnd Hnn)
    as (st' & Hrun & (Hr' & _ & _ & Hd') & Htm).
  exists st'. split; [| split; [exact Hr' | split; [exact Hd' |]]].
  - unfold init, async. erewrite bind_run by exact Hload.
    erewrite bind_run by reflexivity. erewrite bind_run by reflexivity.
    unfold scan_timeouts, table_or_timeouts, table_doc.
    erewrite bind_run by reflexivity. erewrite bind_run by reflexivity.
    match goal with
    | |- match ?run with _ => _ end = _ =>
        change run with (for_each
                  (scan_timeout (default "undefined" (timeoutsTable (options st1))))
                  (scanned_keys
                     (datas_get st1
                        (default "undefined" (timeoutsTable (options st1)))))
                  st2)
    end.
    rewrite <- Ht, (datas_get_own _ _ _ Hd).
    change (scanned_keys (Val (VObj ps))) with (ps.*1).
    by rewrite Hrun.
  - rewrite Htm. subst st2. proj. by rewrite Hq.
Qed.
End InitScan.

(** ** The life of a timeout *)

Lemma coalesce_null x d : coalesce (coalesce x VNull) d = coalesce x d.
Proof. by destruct x. Qed.

(** Below [2^53] a sum is exact. *)
Lemma num_add_small a b : Z.abs (a + b) < 2 ^ 53 -> num_add a b = Some (a + b).
Proof.
  intros Hs. unfold num_add, to_double, finite.
  rewrite (proj2 (Z.ltb_lt _ _) Hs).
  assert (Hf : Z.abs (a + b) < 2 ^ 1024).
  { eapply Z.lt_trans; [exact Hs |]. by apply Z.pow_lt_mono_r. }
  by rewrite (proj2 (Z.ltb_lt _ _) Hf).
Qed.

Section TimeoutLife.
Context `{Host}.

Lemma timeout_run st table ps id v time expires :
  registered st table -> datas st !! table = Some (VObj ps) -> writable_key id ->
  num_add (Date_now (clock_reads st)) time = Some expires ->
  let entry := Timeout expires v time id in
  exists st',
    timeout v time (Some id) (Some table) st = Return entry st'
    /\ registered st' table
    /\ datas st' = <[table := VObj (obj_set id entry ps)]> (datas st)
    /\ options st' = options st
    /\ emitted (log st') = (emitted (log st) ++ [EvCreateTimeout entry])%list
    /\ timers st' = timers st.
Proof.
  intros Hreg Hdoc Hid Hexp entry.
  unfold timeout, table_or_timeouts. rewrite !bind_ret.
  erewrite bind_run by by apply checkTable_ok.
  unfold now. erewrite bind_run by reflexivity. rewrite Hexp. fold entry.
  set (st0 := with_clock_reads (S (clock_reads st)) st).
  assert (Hreg0 : registered st0 table) by (by eapply registered_transfer).
  assert (Hdoc0 : datas st0 !! table = Some (VObj ps)) by exact Hdoc.
  destruct (set_spec st0 table _ (KStr id) entry false _ Hreg0 Hdoc0
              (lodash_set_plain ps id _ Hid))
    as (st1 & Hs & Hd & Ho & Hm & Hr & Ht & _ & writes & Hl & Hw).
  erewrite bind_run by exact Hs. unfold emit. run.
  eexists. split; [reflexivity |]. proj.
  split; [by eapply registered_transfer |].
  split; [rewrite Hd; unfold datas_with; by rewrite Hdoc0 |].
  split; [exact Ho |]. split; [| exact Ht].
  rewrite Hl, !emitted_app, Hw. cbn. by rewrite app_nil_r.
Qed.

Lemma expire_plain_run st table ps tid :
  registered st table -> datas st !! table = Some (VObj ps) -> plain_key tid ->
  exists st',
    expire tid (Some table) st = Return tt st'
    /\ registered st' table
    /\ datas st' = <[table := VObj (filter (fun p => p.1 <> tid) ps)]> (datas st)
    /\ emitted (log st')
       = (emitted (log st)
          ++ [EvExpires (get_prop (VObj ps) tid); EvDelete tid table])%list
    /\ timers st' = timers st.
Proof.
  intros Hreg Hdoc Hid.
  unfold expire, table_or_timeouts. rewrite bind_ret.
  erewrite bind_run by by apply checkTable_ok.
  erewrite bind_run by by apply table_value_own.
  cbn [nullish]. unfold emit. erewrite bind_run by reflexivity.
  match goal with |- context [bind (delete _ _) _ ?s] => set (st1 := s) end.
  assert (Hreg1 : registered st1 table) by (by eapply registered_transfer).
  assert (Hdoc1 : datas st1 !! table = Some (VObj ps)) by exact Hdoc.
  destruct (delete_spec st1 table _ tid _ Hreg1 Hdoc1 (lodash_unset_plain ps tid Hid))
    as (st' & Hdel & Hd & _ & Hm & Hr & _ & Ht & _ & writes & Hl & Hw).
  erewrite bind_run by exact Hdel.
  exists st'. split; [reflexivity |].
  split; [by eapply registered_transfer |].
  split; [exact Hd |]. split; [| exact Ht].
  rewrite Hl. subst st1. proj.
  rewrite !emitted_app, !emitted_Emit, Hw. cbn. by rewrite <- app_assoc.
Qed.

Lemma has_after_removal st table ps k :
  registered st table ->
  datas st !! table = Some (VObj (filter (fun p => p.1 <> k) ps)) ->
  plain_key k ->
  has (Some table) (KStr k) st = Return false st.
Proof.
  intros Hreg Hdoc Hk.
  rewrite (has_plain _ _ _ _ Hreg Hdoc Hk), assoc_filter_eq.
  apply f_equal2; [| reflexivity].
  apply bool_decide_eq_false. by intros [? ?].
Qed.

(** X14.  On an object document and with a writable plain id, [timeout]
    returns the entry it stored: the value, the duration, the id, and the
    expiration time, which is the sum of the clock and the duration as
    the language rounds it.  [get] then finds the entry under the id, and
    the only event is [createTimeout]; no [update] is emitted. *)
Theorem timeout_stores_entry st table ps id v time expires :
  registered st table -> datas st !! table = Some (VObj ps) -> writable_key id ->
  num_add (Date_now (clock_reads st)) time = Some expires ->
  let entry := Timeout expires v time id in
  exists st',
    timeout v time (Some id) (Some table) st = Return entry st'
    /\ (forall dvalue, get (Some table) (KStr id) dvalue st' = Return entry st')
    /\ has (Some table) (KStr id) st' = Return true st'
    /\ emitted (log st') = (emitted (log st) ++ [EvCreateTimeout entry])%list.
Proof.
  intros Hreg Hdoc Hid Hexp entry.
  destruct (timeout_run st table ps id v time expires Hreg Hdoc Hid Hexp)
    as (st' & Hrun & Hreg' & Hd & _ & Hl & _).
  fold entry in Hrun, Hd, Hl.
  assert (Hdoc' : datas st' !! table = Some (VObj (obj_set id entry ps)))
    by (rewrite Hd; apply lookup_insert_eq).
  exists st'. split; [exact Hrun |]. split; [| split; [| exact Hl]].
  - intros dvalue. rewrite (get_plain _ _ _ _ _ Hreg' Hdoc' (proj1 Hid)).
    by rewrite (get_prop_obj _ _ _ (assoc_obj_set id entry ps)).
  - rewrite (has_plain _ _ _ _ Hreg' Hdoc' (proj1 Hid)), assoc_obj_set.
    by rewrite bool_decide_eq_true_2 by by eexists.
Qed.

(** X15.  On an object document, [expire] of a plain id emits [expires]
    with what the document yields under the id: the entry stored there,
    or, when there is none, what the prototype chain holds under that
    name, [undefined] if nothing; then it emits [delete].  Afterwards the
    id is absent, and no timer was added or removed. *)
Theorem expire_emits_and_removes st table ps tid :
  registered st table -> datas st !! table = Some (VObj ps) -> plain_key tid ->
  exists st',
    expire tid (Some table) st = Return tt st'
    /\ emitted (log st')
       = (emitted (log st)
          ++ [EvExpires (get_prop (VObj ps) tid); EvDelete tid table])%list
    /\ (forall e, assoc ps tid = Some e -> get_prop (VObj ps) tid = Val e)
    /\ (assoc ps tid = None ->
        get_prop (VObj ps) tid = default (Val VUndef) (inherited KObject tid))
    /\ has (Some table) (KStr tid) st' = Return false st'
    /\ (forall tid' dvalue, plain_key tid' -> tid' <> tid ->
        exists x,
          get (Some table) (KStr tid') dvalue st = Return x st
          /\ get (Some table) (KStr tid') dvalue st' = Return x st')
    /\ timers st' = timers st.
Proof.
  intros Hreg Hdoc Hid.
  destruct (expire_plain_run st table ps tid Hreg Hdoc Hid)
    as (st' & Hrun & Hreg' & Hd & Hl & Ht).
  assert (Hdoc' : datas st' !! table = Some (VObj (filter (fun p => p.1 <> tid) ps)))
    by (rewrite Hd; apply lookup_insert_eq).
  exists st'. split; [exact Hrun |]. split; [exact Hl |].
  split; [apply get_prop_obj |]. split; [apply get_prop_obj_absent |].
  split; [by eapply has_after_removal |]. split; [| exact Ht].
  intros tid' dvalue Hid' Hne.
  rewrite (get_plain _ _ _ _ _ Hreg Hdoc Hid'), (get_plain _ _ _ _ _ Hreg' Hdoc' Hid').
  rewrite (get_prop_obj_ext ps (filter (fun p => p.1 <> tid) ps) tid')
    by (by apply assoc_filter_ne).
  eexists. split; reflexivity.
Qed.


End TimeoutLife.

(** ** [edit] and the readers *)

Section EditAndReaders.
Context `{Host}.

(** X18.  On an object document that holds the writable plain key,
    [edit] hands the predicate the stored value, or [undefined] when the
    stored value is [null], and stores what the predicate returns: [get]
    then yields that result, or the default when the result is nullish.
    The other plain keys are untouched. *)
Theorem edit_applies_predicate st table ps k old
    (predicate : result -> key -> value) force emit_ :
  registered st table -> datas st !! table = Some (VObj ps) -> writable_key k ->
  assoc ps k = Some old ->
  let new := predicate (coalesce old VUndef) (KStr k) in
  exists st',
    edit (Some table) (KStr k) predicate force emit_ st = Return true st'
    /\ (forall dvalue,
        get (Some table) (KStr k) dvalue st' = Return (coalesce new dvalue) st')
    /\ (forall k' dvalue, plain_key k' -> k' <> k ->
        exists x,
          get (Some table) (KStr k') dvalue st = Return x st
          /\ get (Some table) (KStr k') dvalue st' = Return x st').
Proof.
  intros Hreg Hdoc Hk Ha new.
  destruct (set_plain_spec st table ps k new emit_ Hreg Hdoc Hk)
    as (st' & Hs & Hreg' & Hd).
  assert (Hdoc' : datas st' !! table = Some (VObj (obj_set k (coalesce new VNull) ps)))
    by (rewrite Hd; apply lookup_insert_eq).
  exists st'. split; [| split].
  - unfold edit, table_or_first. rewrite bind_ret.
    erewrite bind_run by by apply checkTable_ok.
    erewrite bind_run by (by apply (has_plain _ _ ps); [| | apply Hk]).
    rewrite Ha, bool_decide_eq_true_2 by by eexists. cbn [orb].
    erewrite bind_run by (by apply (get_plain _ _ ps); [| | apply Hk]).
    rewrite (get_prop_obj _ _ _ Ha). cbn [coalesce_result].
    fold new. by erewrite bind_run by exact Hs.
  - intros dvalue. rewrite (get_plain _ _ _ _ _ Hreg' Hdoc' (proj1 Hk)).
    rewrite (get_prop_obj _ _ _ (assoc_obj_set k _ ps)). cbn [coalesce_result].
    by rewrite coalesce_null.
  - intros k' dvalue Hk' Hne.
    rewrite (get_plain _ _ _ _ _ Hreg Hdoc Hk'), (get_plain _ _ _ _ _ Hreg' Hdoc' Hk').
    rewrite (get_prop_obj_ext ps (obj_set k (coalesce new VNull) ps) k')
      by (by apply assoc_obj_set_ne).
    eexists. split; reflexivity.
Qed.

(** X19.  On an object document the four readers agree: [data] returns
    the document, [keys] its keys in order, and for a plain key [has]
    tells whether [keys] lists it, while [get] yields what the document
    yields under the key, or the default when that is [undefined] or
    [null]: the property the document owns, and for a key it does not
    own, what the prototype chain holds under that name. *)
Theorem readers_agree st table ps :
  registered st table -> datas st !! table = Some (VObj ps) ->
  data (Some table) st = Return (Val (VObj ps)) st
  /\ keys (Some table) st = Return ps.*1 st
  /\ (forall k, plain_key k ->
      has (Some table) (KStr k) st = Return (bool_decide (k ∈ ps.*1)) st
      /\ (forall dvalue,
            get (Some table) (KStr k) dvalue st
            = Return (coalesce_result (get_prop (VObj ps) k) dvalue) st)
      /\ (forall v dvalue, assoc ps k = Some v ->
            get (Some table) (KStr k) dvalue st = Return (Val (coalesce v dvalue)) st)
      /\ (k ∉ ps.*1 ->
          get_prop (VObj ps) k = default (Val VUndef) (inherited KObject k))).
Proof.
  intros Hreg Hdoc. split; [| split].
  - unfold data, table_or_first. rewrite bind_ret.
    erewrite bind_run by by apply checkTable_ok.
    unfold table_doc, gets. by rewrite (datas_get_own _ _ _ Hdoc).
  - by rewrite (keys_spec _ _ _ Hreg Hdoc).
  - intros k Hk. split; [| split; [| split]].
    + rewrite (has_plain _ _ _ _ Hreg Hdoc Hk).
      f_equal. apply bool_decide_ext, assoc_is_Some_elem.
    + intros dvalue. by apply get_plain.
    + intros v dvalue Ha. rewrite (get_plain _ _ _ _ _ Hreg Hdoc Hk).
      by rewrite (get_prop_obj _ _ _ Ha).
    + intros Hn. apply get_prop_obj_absent. by apply assoc_not_elem.
Qed.
End EditAndReaders.

(** ** Persistence across a restart *)

Section Restart.
Context `{Host}.

(** X20.  A [delete] of a plain key on an object document starts a write
    of the JSON of the document without the key to the path of the table
    when [autoSave] is [true], and starts no write otherwise.  The
    [delete] event comes before the write is started, its subscribers
    seeing the tables as they were. *)
Theorem delete_persists_iff_autosave st table path ps k :
  registered st table -> mods st !! table = Some path ->
  datas st !! table = Some (VObj ps) -> plain_key k ->
  let doc' := VObj (filter (fun p => p.1 <> k) ps) in
  exists st',
    delete (Some table) k st = Return true st'
    /\ datas st' = <[table := doc']> (datas st)
    /\ log st'
       = (log st
          ++ Emit (EvDelete k table) (datas st)
             :: (if decide (autoSave (options st) = Some true)
                 then [WriteFile path (to_json doc')] else []))%list.
Proof.
  intros Hreg Hm Hd Hk doc'.
  unfold delete, table_or_first. rewrite bind_ret.
  erewrite bind_run by by apply checkTable_ok.
  unfold emit. erewrite bind_run by reflexivity.
  erewrite bind_run by (by apply table_value_own).
  rewrite lodash_unset_plain by done. fold doc'.
  erewrite bind_run by (by eapply mutated_own).
  match goal with |- context [bind (autosave table) _ ?s] => set (st1 := s) end.
  assert (Hreg1 : registered st1 table) by (by eapply registered_transfer).
  assert (Hd1 : datas st1 !! table = Some doc') by apply lookup_insert_eq.
  erewrite bind_run by (by apply (autosave_run st1 table path doc')).
  eexists. split; [reflexivity |].
  change (options st1) with (options st).
  destruct (decide (autoSave (options st) = Some true)).
  - split; [reflexivity |]. unfold started, st1. proj. by rewrite <- app_assoc.
  - split; reflexivity.
Qed.

End Restart.

(** ** The properties at work *)

Lemma null_store_registered : registered null_store "main".
Proof.
  split; [reflexivity |]. exists "./database/main.json".
  split; [reflexivity | discriminate].
Qed.

Lemma timeouts_store_registered : registered timeouts_store "timeouts".
Proof.
  split; [reflexivity |]. exists "./database/timeouts.json".
  split; [reflexivity | discriminate].
Qed.


Lemma scalar_store_registered : registered scalar_store "main".
Proof.
  split; [vm_compute; reflexivity |]. exists "./database/main.json".
  split; [vm_compute; reflexivity | discriminate].
Qed.

Lemma writable_a : writable_key "a".
Proof. split; reflexivity. Qed.

Lemma writable_t1 : writable_key "t1".
Proof. split; reflexivity. Qed.

Lemma set_leaves_other_keys_witness :
  registered main_store "main"
  /\ datas main_store !! "main" = Some (VObj [])
  /\ writable_key "a"
  /\ exists st',
       @set simple_host (Some "main") (KStr "a") (VNum 1) true main_store
       = Return (VNum 1) st'
       /\ @has simple_host (Some "main") (KStr "a") st' = Return true st'.
Proof.
  assert (Hd : datas main_store !! "main" = Some (VObj [])) by reflexivity.
  split; [exact main_store_registered |]. split; [exact Hd |].
  split; [exact writable_a |].
  destruct (@set_leaves_other_keys simple_host main_store "main" [] "a" (VNum 1) true
              main_store_registered Hd writable_a) as (st' & Hs & Hh & _).
  exists st'. split; [exact Hs | exact Hh].
Defined.

Lemma delete_removes_key_witness :
  registered null_store "main"
  /\ datas null_store !! "main" = Some (VObj [("k", VNull)])
  /\ plain_key "k"
  /\ exists st',
       @delete simple_host (Some "main") "k" null_store = Return true st'
       /\ @has simple_host (Some "main") (KStr "k") st' = Return false st'.
Proof.
  assert (Hd : datas null_store !! "main" = Some (VObj [("k", VNull)]))
    by (vm_compute; reflexivity).
  assert (Hk : plain_key "k") by reflexivity.
  split; [exact null_store_registered |]. split; [exact Hd |]. split; [exact Hk |].
  destruct (@delete_removes_key simple_host null_store "main" _ "k"
              null_store_registered Hd Hk) as (st' & ks & Hs & Hh & _).
  exists st'. split; [exact Hs | exact Hh].
Defined.

Lemma set_then_delete_restores_witness :
  registered main_store "main"
  /\ datas main_store !! "main" = Some (VObj [])
  /\ writable_key "a"
  /\ assoc [] "a" = None
  /\ exists st1 st2,
       @set simple_host (Some "main") (KStr "a") (VNum 1) true main_store
       = Return (VNum 1) st1
       /\ @delete simple_host (Some "main") "a" st1 = Return true st2
       /\ datas st2 = datas main_store.
Proof.
  assert (Hd : datas main_store !! "main" = Some (VObj [])) by reflexivity.
  split; [exact main_store_registered |]. split; [exact Hd |].
  split; [exact writable_a |]. split; [reflexivity |].
  exact (@set_then_delete_restores simple_host main_store "main" [] "a" (VNum 1) true
           main_store_registered Hd writable_a eq_refl).
Defined.

Lemma keys_after_set_witness :
  registered main_store "main"
  /\ datas main_store !! "main" = Some (VObj [])
  /\ writable_key "a"
  /\ exists st' ks',
       @set simple_host (Some "main") (KStr "a") (VNum 1) true main_store
       = Return (VNum 1) st'
       /\ @keys simple_host (Some "main") st' = Return ks' st'
       /\ "a" ∈ ks'.
Proof.
  assert (Hd : datas main_store !! "main" = Some (VObj [])) by reflexivity.
  split; [exact main_store_registered |]. split; [exact Hd |].
  split; [exact writable_a |].
  destruct (@keys_after_set simple_host main_store "main" [] "a" (VNum 1) true
              main_store_registered Hd writable_a) as (st' & ks' & _ & Hs & Hk & Hin).
  exists st', ks'. split; [exact Hs |]. split; [exact Hk |].
  apply Hin. by left.
Defined.


Lemma set_persists_iff_autosave_witness :
  registered main_store "main"
  /\ mods main_store !! "main" = Some "./database/main.json"
  /\ datas main_store !! "main" = Some (VObj [])
  /\ VObj [] <> VUndef
  /\ @lodash_set simple_host (VObj []) (KStr "a") (coalesce (VNum 1) VNull)
     = Wrote (VObj [("a", VNum 1)])
  /\ exists st',
       @set simple_host (Some "main") (KStr "a") (VNum 1) true main_store
       = Return (VNum 1) st'
       /\ log st'
          = (log main_store
             ++ [Emit (EvUpdate (KStr "a") (VNum 1) "main")
                   (<["main" := VObj [("a", VNum 1)]]> (datas main_store));
                 WriteFile "./database/main.json" (VObj [("a", VNum 1)])])%list.
Proof.
  assert (Hm : mods main_store !! "main" = Some "./database/main.json") by reflexivity.
  assert (Hu : VObj [] <> VUndef) by discriminate.
  assert (Hs : @lodash_set simple_host (VObj []) (KStr "a") (coalesce (VNum 1) VNull)
               = Wrote (VObj [("a", VNum 1)])) by reflexivity.
  split; [exact main_store_registered |]. split; [exact Hm |].
  split; [exact main_store_document |]. split; [exact Hu |]. split; [exact Hs |].
  destruct (@set_persists_iff_autosave simple_host main_store "main" _ _ (KStr "a")
              (VNum 1) true _ main_store_registered Hm main_store_document Hu Hs)
    as (st' & Hset & Hl).
  exists st'. split; [exact Hset |]. rewrite Hl. reflexivity.
Defined.

Lemma set_on_scalar_document_witness :
  registered scalar_store "main"
  /\ datas scalar_store !! "main" = Some (VNum 5)
  /\ isObject (VNum 5) = false
  /\ exists st',
       @set simple_host (Some "main") (KStr "a") (VNum 1) true scalar_store
       = Return (VNum 1) st'
       /\ datas st' = datas scalar_store.
Proof.
  assert (Hd : datas scalar_store !! "main" = Some (VNum 5))
    by (vm_compute; reflexivity).
  split; [exact scalar_store_registered |]. split; [exact Hd |].
  split; [reflexivity |].
  destruct (@set_on_scalar_document simple_host scalar_store "main" _ (KStr "a")
              (VNum 1) true scalar_store_registered Hd eq_refl)
    as (st' & Hs & Hsame & _).
  exists st'. split; [exact Hs | exact Hsame].
Defined.

(** On such a document not every [get] returns: one whose path goes
    through a name the prototype chain holds goes on inside the object
    found there. *)
Lemma get_through_prototype_leaves :
  datas scalar_store !! "main" = Some (VNum 5)
  /\ @get simple_host (Some "main") (KPath ["toString"; "name"]) VUndef scalar_store
     = Beyond scalar_store
  /\ @get simple_host (Some "main") (KStr "toString") VUndef scalar_store
     = Return (Native "Object.prototype.toString") scalar_store.
Proof. repeat split; vm_compute; reflexivity. Qed.

Lemma omitted_table_is_main_witness :
  options main_store = options (constructor (world ∅ ∅) None)
  /\ @get simple_host None (KStr "a") VUndef main_store
     = @get simple_host (Some "main") (KStr "a") VUndef main_store.
Proof.
  assert (Ho : options main_store = options (constructor (world ∅ ∅) None))
    by reflexivity.
  split; [exact Ho |].
  destruct (@omitted_table_is_main simple_host main_store ∅ ∅ None (KStr "a") VUndef
              true VUndef (fun _ _ => VNull) false "t" 0 Ho) as (_ & Hg & _).
  exact Hg.
Defined.

Lemma load_tables_registers_witness :
  let st := constructor (world ∅ ∅) (Some with_timeouts_table) in
  let ts := [ {| name := "main"; file_mod := "main.json" |};
              {| name := "timeouts"; file_mod := "timeouts.json" |} ] in
  tables (merge (defaults st) (options st)) = Some ts
  /\ mod_dir (merge (defaults st) (options st)) = Some "./database/"
  /\ (forall T, T ∈ ts -> @loadable simple_host st "./database/" T)
  /\ exists st',
       @load_tables simple_host st = Return tt st'
       /\ mods st' !! "timeouts" = Some "./database/timeouts.json"
       /\ datas st' !! "timeouts" = Some (VObj []).
Proof.
  intros st ts.
  assert (Ht : tables (merge (defaults st) (options st)) = Some ts) by reflexivity.
  assert (Hd : mod_dir (merge (defaults st) (options st)) = Some "./database/")
    by reflexivity.
  assert (Hok : forall T, T ∈ ts -> @loadable simple_host st "./database/" T).
  { intros T HT. split; [apply not_elem_of_empty |]. split.
    - apply list_elem_of_In in HT. destruct HT as [<- | [<- | []]]; discriminate.
    - change (files st) with (∅ : gmap string file). by rewrite lookup_empty. }
  split; [exact Ht |]. split; [exact Hd |]. split; [exact Hok |].
  destruct (@load_tables_registers simple_host st ts "./database/" Ht Hd Hok)
    as (st' & Hrun & Hin & _).
  exists st'. split; [exact Hrun |].
  exact (Hin [ {| name := "main"; file_mod := "main.json" |} ]
           {| name := "timeouts"; file_mod := "timeouts.json" |} []
           eq_refl (not_elem_of_nil _) ltac:(discriminate)).
Defined.

(** A table named [__proto__] is not registered by the loop: its path
    is dropped, and its document becomes the prototype of [this.datas],
    so that the properties of the document are found under their names as
    if they were tables. *)
Example proto_table_is_not_registered :
  mods proto_store !! "__proto__" = None
  /\ datas proto_store !! "__proto__" = None
  /\ datas_proto proto_store
     = DocPrototype (VObj [("timeouts", VObj [("a", overdue_entry)])])
  /\ @datas_get simple_host proto_store "timeouts"
     = Val (VObj [("a", overdue_entry)]).
Proof. repeat split; vm_compute; reflexivity. Qed.

Lemma init_rejects_malformed_file_witness :
  let T := {| name := "main"; file_mod := "main.json" |} in
  tables (merge (defaults corrupt) (options corrupt)) = Some ([] ++ T :: [])%list
  /\ mod_dir (merge (defaults corrupt) (options corrupt)) = Some "./database/"
  /\ (forall T', T' ∈ [] -> @loadable simple_host corrupt "./database/" T')
  /\ files corrupt !! @path_join simple_host "./database/" (file_mod T) = Some Garbage
  /\ exists st',
       @init simple_host corrupt = Return (Rejected SyntaxError) st'
       /\ ready st' = false
       /\ emitted (log st') = [].
Proof.
  intros T.
  assert (Ht : tables (merge (defaults corrupt) (options corrupt))
               = Some ([] ++ T :: [])%list) by reflexivity.
  assert (Hd : mod_dir (merge (defaults corrupt) (options corrupt))
               = Some "./database/") by reflexivity.
  assert (Hok : forall T', T' ∈ [] -> @loadable simple_host corrupt "./database/" T')
    by (by intros T' ?%elem_of_nil).
  assert (Hbad : files corrupt !! @path_join simple_host "./database/" (file_mod T)
                 = Some Garbage) by (vm_compute; reflexivity).
  split; [exact Ht |]. split; [exact Hd |]. split; [exact Hok |].
  split; [exact Hbad |].
  destruct (@init_rejects_malformed_file simple_host corrupt [] T [] "./database/"
              Ht Hd Hok Hbad) as (st' & Hi & Hr & He & _).
  exists st'. split; [exact Hi |]. split; [exact Hr | exact He].
Defined.

Lemma restarted_loads :
  @load_tables simple_host restarted
  = Return tt (final (@load_tables simple_host restarted)).
Proof. vm_compute. reflexivity. Qed.

Lemma restarted_holds_timeouts :
  holds_timeouts (final (@load_tables simple_host restarted)) "timeouts"
    [("a", overdue_entry); ("b", pending_entry)].
Proof.
  split; [reflexivity |]. split.
  - exists "./database/timeouts.json". split; [reflexivity | discriminate].
  - split; [reflexivity |]. split.
    + apply (bool_decide_unpack _). reflexivity.
    + repeat constructor.
Qed.

Lemma init_scan_outcome_witness :
  let st1 := final (@load_tables simple_host restarted) in
  (forall n, @Date_now simple_host n = 1000)
  /\ @load_tables simple_host restarted = Return tt st1
  /\ holds_timeouts st1 "timeouts" [("a", overdue_entry); ("b", pending_entry)]
  /\ exists st',
       @init simple_host restarted = Return (Fulfilled tt) st'
       /\ datas st' !! "timeouts" = Some (VObj [("b", pending_entry)])
       /\ timers st' = [("b", Some 4000)].
Proof.
  intros st1.
  assert (Hc : forall n, @Date_now simple_host n = 1000) by reflexivity.
  split; [exact Hc |]. split; [exact restarted_loads |].
  split; [exact restarted_holds_timeouts |].
  destruct (@init_scan_outcome simple_host 1000 restarted st1 "timeouts" _ Hc
              restarted_loads restarted_holds_timeouts) as (st' & Hi & _ & Hd & Ht).
  exists st'. split; [exact Hi |]. split; [exact Hd | exact Ht].
Defined.

Lemma timeout_stores_entry_witness :
  let entry := Timeout 1000 (VStr "bye") 0 "t1" in
  registered timeouts_store "timeouts"
  /\ datas timeouts_store !! "timeouts" = Some (VObj [])
  /\ writable_key "t1"
  /\ num_add (@Date_now simple_host (clock_reads timeouts_store)) 0 = Some 1000
  /\ exists st',
       @timeout simple_host (VStr "bye") 0 (Some "t1") (Some "timeouts") timeouts_store
       = Return entry st'
       /\ @get simple_host (Some "timeouts") (KStr "t1") VUndef st' = Return entry st'.
Proof.
  intros entry.
  assert (Hd : datas timeouts_store !! "timeouts" = Some (VObj [])) by reflexivity.
  split; [exact timeouts_store_registered |]. split; [exact Hd |].
  split; [exact writable_t1 |]. split; [reflexivity |].
  destruct (@timeout_stores_entry simple_host timeouts_store "timeouts" [] "t1"
              (VStr "bye") 0 1000 timeouts_store_registered Hd writable_t1 eq_refl)
    as (st' & Hrun & Hget & _).
  exists st'. split; [exact Hrun | exact (Hget VUndef)].
Defined.

Lemma expire_emits_and_removes_witness :
  registered timeouts_store "timeouts"
  /\ datas timeouts_store !! "timeouts" = Some (VObj [])
  /\ plain_key "ghost"
  /\ exists st',
       @expire simple_host "ghost" (Some "timeouts") timeouts_store = Return tt st'
       /\ emitted (log st')
          = [EvReady; EvExpires VUndef; EvDelete "ghost" "timeouts"].
Proof.
  assert (Hd : datas timeouts_store !! "timeouts" = Some (VObj [])) by reflexivity.
  assert (Hk : plain_key "ghost") by reflexivity.
  split; [exact timeouts_store_registered |]. split; [exact Hd |].
  split; [exact Hk |].
  destruct (@expire_emits_and_removes simple_host timeouts_store "timeouts" [] "ghost"
              timeouts_store_registered Hd Hk) as (st' & Hrun & Hl & _).
  exists st'. split; [exact Hrun |]. rewrite Hl. reflexivity.
Defined.



Lemma edit_applies_predicate_witness :
  let bump := fun (v : result) (_ : key) =>
                match v with Val VUndef => VNum 1 | _ => VNum 2 end in
  registered null_store "main"
  /\ datas null_store !! "main" = Some (VObj [("k", VNull)])
  /\ writable_key "k"
  /\ assoc [("k", VNull)] "k" = Some VNull
  /\ exists st',
       @edit simple_host (Some "main") (KStr "k") bump false true null_store
       = Return true st'
       /\ @get simple_host (Some "main") (KStr "k") VUndef st' = Return (VNum 1) st'.
Proof.
  intros bump.
  assert (Hd : datas null_store !! "main" = Some (VObj [("k", VNull)]))
    by (vm_compute; reflexivity).
  assert (Hk : writable_key "k") by (split; reflexivity).
  split; [exact null_store_registered |]. split; [exact Hd |]. split; [exact Hk |].
  split; [reflexivity |].
  destruct (@edit_applies_predicate simple_host null_store "main" _ "k" VNull bump
              false true null_store_registered Hd Hk eq_refl) as (st' & Hrun & Hget & _).
  exists st'. split; [exact Hrun | exact (Hget VUndef)].
Defined.

Lemma readers_agree_witness :
  registered null_store "main"
  /\ datas null_store !! "main" = Some (VObj [("k", VNull)])
  /\ @data simple_host (Some "main") null_store
     = Return (Val (VObj [("k", VNull)])) null_store
  /\ @keys simple_host (Some "main") null_store = Return ["k"] null_store.
Proof.
  assert (Hd : datas null_store !! "main" = Some (VObj [("k", VNull)]))
    by (vm_compute; reflexivity).
  split; [exact null_store_registered |]. split; [exact Hd |].
  destruct (@readers_agree simple_host null_store "main" _ null_store_registered Hd)
    as (Hdata & Hkeys & _).
  split; [exact Hdata | exact Hkeys].
Defined.

Lemma delete_persists_iff_autosave_witness :
  registered null_store "main"
  /\ mods null_store !! "main" = Some "./database/main.json"
  /\ datas null_store !! "main" = Some (VObj [("k", VNull)])
  /\ plain_key "k"
  /\ exists st',
       @delete simple_host (Some "main") "k" null_store = Return true st'
       /\ log st'
          = (log null_store
             ++ [Emit (EvDelete "k" "main") (datas null_store);
                 WriteFile "./database/main.json" (VObj [])])%list.
Proof.
  assert (Hm : mods null_store !! "main" = Some "./database/main.json")
    by (vm_compute; reflexivity).
  assert (Hd : datas null_store !! "main" = Some (VObj [("k", VNull)]))
    by (vm_compute; reflexivity).
  assert (Hk : plain_key "k") by reflexivity.
  split; [exact null_store_registered |]. split; [exact Hm |].
  split; [exact Hd |]. split; [exact Hk |].
  destruct (@delete_persists_iff_autosave simple_host null_store "main" _ _ "k"
              null_store_registered Hm Hd Hk) as (st' & Hrun & _ & Hl).
  exists st'. split; [exact Hrun |]. rewrite Hl.
  rewrite decide_True by (vm_compute; reflexivity). reflexivity.
Defined.


(** ** Edge cases of the document and of the key *)

Section EdgeCases.
Context `{Host}.

(** X22.  When the file of a table held [null], the table is registered
    but has no properties to offer: [data] returns [null], [get] the
    default, [has] false; [keys] throws a type error, and so does [expire],
    before it emits anything; [delete] returns [true] and leaves the
    tables as they are. *)
Theorem null_document st table tid k dvalue :
  registered st table -> datas st !! table = Some VNull ->
  data (Some table) st = Return VNull st
  /\ get (Some table) k dvalue st = Return dvalue st
  /\ has (Some table) k st = Return false st
  /\ keys (Some table) st = Throw TypeError st
  /\ expire tid (Some table) st = Throw TypeError st
  /\ exists st', delete (Some table) tid st = Return true st' /\ datas st' = datas st.
Proof.
  intros Hreg Hdoc. split; [| split; [| split; [| split; [| split]]]].
  - unfold data, table_or_first. rewrite bind_ret.
    erewrite bind_run by by apply checkTable_ok.
    unfold table_doc, gets. by rewrite (datas_get_own _ _ _ Hdoc).
  - by rewrite (get_spec _ _ _ _ _ Hreg Hdoc).
  - by rewrite (has_spec _ _ _ _ Hreg Hdoc).
  - by rewrite (keys_spec _ _ _ Hreg Hdoc).
  - unfold expire, table_or_timeouts. rewrite bind_ret.
    erewrite bind_run by by apply checkTable_ok.
    by erewrite bind_run by by apply table_value_own.
  - destruct (delete_spec st table VNull tid VNull Hreg Hdoc eq_refl)
      as (st' & Hdel & Hd & _).
    exists st'. split; [exact Hdel |].
    rewrite Hd. by apply insert_id.
Qed.

(** X23.  A key whose first segment is [__proto__], [constructor] or
    [prototype] is never written: [set] returns its argument and emits
    [update] as usual, but the tables are as before. *)
Theorem set_refuses_unsafe_key st table doc k s rest v emit_ :
  registered st table -> datas st !! table = Some doc ->
  castPath k doc = s :: rest -> unsafe_key s = true ->
  exists st',
    set (Some table) k v emit_ st = Return v st'
    /\ datas st' = datas st
    /\ emitted (log st')
       = (emitted (log st) ++ if emit_ then [EvUpdate k v table] else [])%list.
Proof.
  intros Hreg Hdoc Hpath Hs.
  assert (Hset : lodash_set doc k (coalesce v VNull) = Wrote doc).
  { unfold lodash_set.
    destruct (nullish doc); [reflexivity |].
    destruct (negb (isObject doc)); [reflexivity |].
    rewrite Hpath. cbn [baseSet_walk]. by rewrite Hs. }
  destruct (set_spec st table doc k v emit_ doc Hreg Hdoc Hset)
    as (st' & Hrun & Hd & _ & _ & _ & _ & _ & writes & Hl & Hw).
  exists st'. split; [exact Hrun |]. split.
  - rewrite Hd. unfold datas_with. rewrite Hdoc. by apply insert_id.
  - rewrite Hl, !emitted_app, Hw, app_nil_r. by destruct emit_.
Qed.
End EdgeCases.

Lemma nulled_store_registered : registered nulled_store "main".
Proof.
  split; [vm_compute; reflexivity |]. exists "./database/main.json".
  split; [vm_compute; reflexivity | discriminate].
Qed.

Lemma null_document_witness :
  registered nulled_store "main"
  /\ datas nulled_store !! "main" = Some VNull
  /\ @keys simple_host (Some "main") nulled_store = Throw TypeError nulled_store
  /\ @get simple_host (Some "main") (KStr "a") (VNum 0) nulled_store
     = Return (VNum 0) nulled_store.
Proof.
  assert (Hd : datas nulled_store !! "main" = Some VNull) by (vm_compute; reflexivity).
  split; [exact nulled_store_registered |]. split; [exact Hd |].
  destruct (@null_document simple_host nulled_store "main" "t" (KStr "a") (VNum 0)
              nulled_store_registered Hd) as (_ & Hget & _ & Hkeys & _).
  split; [exact Hkeys | exact Hget].
Defined.

Lemma set_refuses_unsafe_key_witness :
  registered main_store "main"
  /\ datas main_store !! "main" = Some (VObj [])
  /\ @castPath simple_host (KStr "__proto__") (VObj []) = ["__proto__"]
  /\ unsafe_key "__proto__" = true
  /\ exists st',
       @set simple_host (Some "main") (KStr "__proto__") (VNum 1) true main_store
       = Return (VNum 1) st'
       /\ datas st' = datas main_store.
Proof.
  assert (Hd : datas main_store !! "main" = Some (VObj [])) by reflexivity.
  assert (Hp : @castPath simple_host (KStr "__proto__") (VObj []) = ["__proto__"])
    by reflexivity.
  assert (Hs : unsafe_key "__proto__" = true) by reflexivity.
  split; [exact main_store_registered |]. split; [exact Hd |].
  split; [exact Hp |]. split; [exact Hs |].
  destruct (@set_refuses_unsafe_key simple_host main_store "main" _ (KStr "__proto__")
              _ _ (VNum 1) true main_store_registered Hd Hp Hs)
    as (st' & Hrun & Hsame & _).
  exists st'. split; [exact Hrun | exact Hsame].
Defined.
